(** * SelfStudyHebrew: the word / sentence comprehension classifier

  A shallow embedding of the classification core of the extension:
  - [HebrewText]          src/Chrome/src/utils/hebrew-text.js
  - [WordHighlighter]     src/Firefox/src/highlighting/word-highlighter.js
  - [Coordinator]         the content coordinator (module-level vocabulary)
  - [SentenceHighlighter] src/Firefox/src/highlighting/sentence-highlighter.js
  - [AnkiStats]           the comprehension statistics module

  JavaScript strings are sequences of UTF-16 code units; every character
  the code inspects (the Hebrew block, brackets, punctuation) lies in the
  basic multilingual plane, and the regular expressions carry no [u] flag,
  so they work code unit by code unit. *)

From Stdlib Require Import List NArith ZArith Lia Bool Permutation.
From Stdlib Require Import Sorting.Sorted.
From Stdlib Require Import Floats.PrimFloat Floats.FloatOps Floats.SpecFloat.
From Stdlib Require Floats.FloatAxioms.
From Stdlib Require Import Numbers.Cyclic.Int63.Uint63.
Import ListNotations.

(** ** Strings, arrays and sets of the host language *)

Module JS.

Definition codeUnit := N.
Definition jsstring := list codeUnit.

Definition jsstring_eq_dec : forall a b : jsstring, {a = b} + {a <> b} :=
  list_eq_dec N.eq_dec.

(** [a === b] on strings. *)
Definition streq (a b : jsstring) : bool :=
  if jsstring_eq_dec a b then true else false.

(** [Array.prototype.includes] on an array of strings. *)
Definition includes (arr : list jsstring) (x : jsstring) : bool :=
  existsb (streq x) arr.

(** [String.prototype.startsWith] with a one-code-unit needle. *)
Definition startsWith (s : jsstring) (c : codeUnit) : bool :=
  match s with
  | [] => false
  | d :: _ => N.eqb d c
  end.

(** [s.substring(1)]. *)
Definition substring1 (s : jsstring) : jsstring := tl s.

(** Numbers are IEEE 754 doubles.  Counters of the code are small
    non-negative integers (bounded by array and set sizes), which a
    double holds exactly. *)
Definition Number_ofZ (z : Z) : float :=
  if (z <? 0)%Z then PrimFloat.opp (PrimFloat.of_uint63 (Uint63.of_Z (- z)))
  else PrimFloat.of_uint63 (Uint63.of_Z z).

Definition Number_ofnat (n : nat) : float := Number_ofZ (Z.of_nat n).

(** [Math.round]: the integral double closest to [x], ties towards
    +infinity; NaN, the infinities and integral values are returned as
    they are.  A finite double is [(-1)^s * m * 2^e]; for [e < 0] the
    result is the exact [floor (x + 1/2)], of magnitude at most 2^53. *)
Definition Math_round (x : float) : float :=
  match Prim2SF x with
  | S754_finite s m e =>
      if (0 <=? e)%Z then x
      else
        let num := ((if s then -1 else 1) * Z.pos m)%Z in
        let n := ((2 * num + 2 ^ (- e)) / 2 ^ (1 - e))%Z in
        if (n =? 0)%Z && s then (-0)%float else Number_ofZ n
  | _ => x
  end.

(** A [Set] of strings: its elements in insertion order, which is the
    order [forEach] visits them in. *)
Definition StrSet := list jsstring.

Definition Set_has (s : StrSet) (x : jsstring) : bool := existsb (streq x) s.

Definition Set_add (s : StrSet) (x : jsstring) : StrSet :=
  if Set_has s x then s else s ++ [x].

Definition Set_size (s : StrSet) : nat := length s.

(** [x || []] for an array that may be missing ([undefined]). *)
Definition orEmpty {A} (x : option (list A)) : list A :=
  match x with
  | Some l => l
  | None => []
  end.

(** [String.prototype.trim] removes white space and line terminators
    from both ends. *)
Definition isWhiteSpace (c : codeUnit) : bool :=
  existsb (N.eqb c)
    [0x0009; 0x000A; 0x000B; 0x000C; 0x000D; 0x0020; 0x00A0; 0x1680;
     0x2028; 0x2029; 0x202F; 0x205F; 0x3000; 0xFEFF]%N
  || ((0x2000 <=? c) && (c <=? 0x200A))%N.

Fixpoint trimStart (s : jsstring) : jsstring :=
  match s with
  | [] => []
  | c :: rest => if isWhiteSpace c then trimStart rest else s
  end.

Definition trim (s : jsstring) : jsstring :=
  rev (trimStart (rev (trimStart s))).

(** Completion of a call that may throw. *)
Inductive JSError :=
| TypeError
| RuntimeError (message : jsstring).

Inductive Completion (A : Type) :=
| Normal (value : A)
| Throw (error : JSError).

Arguments Normal {A} value.
Arguments Throw {A} error.

Definition bind {A B} (c : Completion A) (k : A -> Completion B) : Completion B :=
  match c with
  | Normal a => k a
  | Throw e => Throw e
  end.

(** [try { body } catch (error) { handler }]. *)
Definition tryCatch {A} (body : Completion A) (handler : JSError -> Completion A)
  : Completion A :=
  match body with
  | Normal a => Normal a
  | Throw e => handler e
  end.

(** The classification labels: the string constants ['mature'],
    ['learning'], ['known'], ['potentially-known'] and ['unknown'] that
    the classifiers return and their callers compare with [===]. *)
Inductive WordTag :=
| mature
| learning
| known
| potentially_known
| unknown.

Definition tag_eqb (a b : WordTag) : bool :=
  match a, b with
  | mature, mature | learning, learning | known, known
  | potentially_known, potentially_known | unknown, unknown => true
  | _, _ => false
  end.

End JS.

Import JS.

(** ** hebrew-text.js *)

Module HebrewText.

(** Character class of [HEBREW_WORD_REGEX = /[U+0590-U+05FF]+/g]. *)
Definition isHebrew (c : codeUnit) : bool :=
  ((0x0590 <=? c) && (c <=? 0x05FF))%N.

(** Character class of [NIKUD_REGEX = /[U+0591-U+05C7]/g]. *)
Definition isNikud (c : codeUnit) : bool :=
  ((0x0591 <=? c) && (c <=? 0x05C7))%N.

(** [normalizeHebrew(word)]: the empty string is falsy and yields [''];
    otherwise every match of [NIKUD_REGEX] is replaced by nothing. *)
Definition normalizeHebrew (word : jsstring) : jsstring :=
  match word with
  | [] => []
  | _ => filter (fun c => negb (isNikud c)) word
  end.

(** [stripNikud(text, stripNikudEnabled)]. *)
Definition stripNikud (text : jsstring) (stripNikudEnabled : bool) : jsstring :=
  if negb stripNikudEnabled || (length text =? 0) then text
  else filter (fun c => negb (isNikud c)) text.

(** A finished run of Hebrew code units is a match; an empty run is not. *)
Definition closeRun (run : jsstring) : list jsstring :=
  match run with
  | [] => []
  | _ => [run]
  end.

(** The matches of the global [HEBREW_WORD_REGEX] in [text], left to
    right: the maximal runs of Hebrew-block code units.  [run] is the run
    being read. *)
Fixpoint scanHebrew (run : jsstring) (text : jsstring) : list jsstring :=
  match text with
  | [] => closeRun run
  | c :: rest =>
      if isHebrew c then scanHebrew (run ++ [c]) rest
      else closeRun run ++ scanHebrew [] rest
  end.

(** [text.match(HEBREW_WORD_REGEX)]: the array of matches, or [null]
    when there is none.  [match] with a global pattern starts from
    index 0 whatever [lastIndex] was. *)
Definition matchHebrew (text : jsstring) : option (list jsstring) :=
  match scanHebrew [] text with
  | [] => None
  | words => Some words
  end.

(** [containsHebrew(text)] and [isHebrewWord(word)]: [lastIndex] is reset,
    so the test is whether some code unit is in the Hebrew block. *)
Definition containsHebrew (text : jsstring) : bool := existsb isHebrew text.

Definition isHebrewWord (word : jsstring) : bool := existsb isHebrew word.

(** [text.replace(/O[^C]*C/g, '')] for an opening code unit [O] and a
    closing one [C]: every leftmost bracketed stretch is removed.  [held]
    is the text read since a still unclosed [O]; it is kept as it is when
    the text ends before a [C]. *)
Fixpoint removeBracketedFrom (opening closing : codeUnit)
    (held : option jsstring) (text : jsstring) : jsstring :=
  match text with
  | [] => match held with Some h => h | None => [] end
  | c :: rest =>
      match held with
      | None =>
          if (c =? opening)%N
          then removeBracketedFrom opening closing (Some [c]) rest
          else c :: removeBracketedFrom opening closing None rest
      | Some h =>
          if (c =? closing)%N
          then removeBracketedFrom opening closing None rest
          else removeBracketedFrom opening closing (Some (h ++ [c])) rest
      end
  end.

Definition removeBracketed (opening closing : codeUnit) (text : jsstring)
  : jsstring :=
  removeBracketedFrom opening closing None text.

(** [extractHebrewWords(text, minLength = 1, ignoreBrackets = true)]. *)
Definition extractHebrewWords (text : jsstring) (minLength : nat)
    (ignoreBrackets : bool) : list jsstring :=
  match text with
  | [] => []
  | _ =>
      let text :=
        if ignoreBrackets then
          removeBracketed 0x28%N 0x29%N
            (removeBracketed 0xFF08%N 0xFF09%N
               (removeBracketed 0x5B%N 0x5D%N text))
        else text in
      let words := orEmpty (matchHebrew text) in
      filter (fun word => minLength <=? length (normalizeHebrew word)) words
  end.

(** The letters the classifier strips: vav, lamed, bet and shin. *)
Definition vav : codeUnit := 0x05D5%N.
Definition lamed : codeUnit := 0x05DC%N.
Definition bet : codeUnit := 0x05D1%N.
Definition shin : codeUnit := 0x05E9%N.

Definition prefixes : list codeUnit := [lamed; bet; shin].

(** The body of [for (const prefix of prefixes)], shared by the three
    classifiers: some prefix starts the word, the word is longer than one
    code unit and the rest is in one of the arrays. *)
Definition prefixMatch (word : jsstring) (matureWords learningWords : list jsstring)
  : bool :=
  existsb
    (fun prefix =>
       if startsWith word prefix && (1 <? length word) then
         let withoutPrefix := substring1 word in
         includes matureWords withoutPrefix || includes learningWords withoutPrefix
       else false)
    prefixes.

(** [getWordKnownType(normalizedWord, matureWords, learningWords)]. *)
Definition getWordKnownType (normalizedWord : jsstring)
    (matureWords learningWords : list jsstring) : WordTag :=
  if includes matureWords normalizedWord || includes learningWords normalizedWord
  then known
  else
    let viaVav :=
      if startsWith normalizedWord vav && (1 <? length normalizedWord) then
        let withoutVav := substring1 normalizedWord in
        includes matureWords withoutVav || includes learningWords withoutVav
      else false in
    if viaVav then known
    else if prefixMatch normalizedWord matureWords learningWords
         then potentially_known
         else unknown.

(** [isWordKnown(normalizedWord, matureWords, learningWords)]. *)
Definition isWordKnown (normalizedWord : jsstring)
    (matureWords learningWords : list jsstring) : bool :=
  tag_eqb (getWordKnownType normalizedWord matureWords learningWords) known.

End HebrewText.

(** ** constants.js *)

Module Constants.

Definition MIN_SENTENCE_WORDS : nat := 3.
Definition MIN_WORD_LENGTH : nat := 2.

End Constants.

(** ** word-highlighter.js *)

Module WordHighlighter.
Import HebrewText.

(** [getWordType(word, matureWords, learningWords)]. *)
Definition getWordType (word : jsstring)
    (matureWords learningWords : list jsstring) : WordTag :=
  let normalized := normalizeHebrew word in
  if includes matureWords normalized then mature
  else if includes learningWords normalized then learning
  else
    let viaVav : option WordTag :=
      if startsWith normalized vav && (1 <? length normalized) then
        let withoutVav := substring1 normalized in
        if includes matureWords withoutVav then Some mature
        else if includes learningWords withoutVav then Some learning
        else None
      else None in
    match viaVav with
    | Some tag => tag
    | None =>
        if prefixMatch normalized matureWords learningWords
        then potentially_known
        else unknown
    end.

End WordHighlighter.

(** ** The content coordinator

    Its [getWordType] reads the vocabulary from the module-level variables
    [matureWords] and [learningWords], which [initialize] and
    [refreshWords] assign. *)

Module Coordinator.
Import HebrewText.

Record Globals := {
  matureWords : list jsstring;
  learningWords : list jsstring
}.

(** [getWordType(normalizedWord)]. *)
Definition getWordType (g : Globals) (normalizedWord : jsstring) : WordTag :=
  if includes (matureWords g) normalizedWord then mature
  else if includes (learningWords g) normalizedWord then learning
  else
    let viaVav : option WordTag :=
      if startsWith normalizedWord vav && (1 <? length normalizedWord) then
        let withoutVav := substring1 normalizedWord in
        if includes (matureWords g) withoutVav then Some mature
        else if includes (learningWords g) withoutVav then Some learning
        else None
      else None in
    match viaVav with
    | Some tag => tag
    | None =>
        if prefixMatch normalizedWord (matureWords g) (learningWords g)
        then potentially_known
        else unknown
    end.

End Coordinator.

(** ** background.js: where the vocabulary comes from

    [fetchHebrewWords] strips the diacritics of every word it reads from
    a note before it stores it:
    [matches.map(word => word.replace(/[U+0591-U+05C7]/g, ''))
            .filter(w => w.length > 0)]. *)

Module Background.
Import HebrewText.

Definition noteWords (matches : list jsstring) : list jsstring :=
  filter (fun w => 0 <? length w)
    (map (fun word => filter (fun c => negb (isNikud c)) word) matches).

End Background.

(** ** sentence-highlighter.js *)

Module SentenceHighlighter.
Import HebrewText.

Record Sentence := {
  text : jsstring;
  unknownCount : nat;
  potentiallyKnownCount : nat;
  unknownWords : list jsstring;
  start : nat;
  end_ : nat
}.

(** [isI1Sentence(sentence)]. *)
Definition isI1Sentence (sentence : Sentence) : bool :=
  (unknownCount sentence =? 1) && (potentiallyKnownCount sentence =? 0).

(** [isPotentiallyI1Sentence(sentence)]. *)
Definition isPotentiallyI1Sentence (sentence : Sentence) : bool :=
  (potentiallyKnownCount sentence =? 1)
  && ((unknownCount sentence =? 0) || (unknownCount sentence =? 1)).

(** The character classes of the two sentence patterns of
    [highlightSentences]: [.], [!], [?] and sof pasuq end a sentence; on
    sites other than Netflix a line feed separates sentences too. *)
Definition isTerminator (c : codeUnit) : bool :=
  existsb (N.eqb c) [0x2E; 0x21; 0x3F; 0x05C3]%N.

Definition isBoundary (isNetflix : bool) (c : codeUnit) : bool :=
  isTerminator c || (negb isNetflix && (c =? 0x0A)%N).

(** A match of [sentenceRegex]: [match.index] and [match[0]]. *)
Record RegexMatch := {
  index : nat;
  matched : jsstring
}.

Inductive ScanState :=
| Idle
| InBody (m : RegexMatch)
| InTail (m : RegexMatch).

Definition extend (m : RegexMatch) (c : codeUnit) : RegexMatch :=
  {| index := index m; matched := matched m ++ [c] |}.

(** The successive results of [sentenceRegex.exec(text)], for
    [/[^.!?U+05C3\n]+[.!?U+05C3]*/g] (Netflix: without [\n]): a maximal
    run of non-boundary code units followed by a maximal run of
    terminators.  [pos] is the index of the next code unit. *)
Fixpoint execAll (isNetflix : bool) (st : ScanState) (pos : nat)
    (text : jsstring) : list RegexMatch :=
  match text with
  | [] =>
      match st with
      | Idle => []
      | InBody m | InTail m => [m]
      end
  | c :: rest =>
      let fresh := {| index := pos; matched := [c] |} in
      match st with
      | Idle =>
          if isBoundary isNetflix c
          then execAll isNetflix Idle (S pos) rest
          else execAll isNetflix (InBody fresh) (S pos) rest
      | InBody m =>
          if isTerminator c
          then execAll isNetflix (InTail (extend m c)) (S pos) rest
          else if isBoundary isNetflix c
          then m :: execAll isNetflix Idle (S pos) rest
          else execAll isNetflix (InBody (extend m c)) (S pos) rest
      | InTail m =>
          if isTerminator c
          then execAll isNetflix (InTail (extend m c)) (S pos) rest
          else if isBoundary isNetflix c
          then m :: execAll isNetflix Idle (S pos) rest
          else m :: execAll isNetflix (InBody fresh) (S pos) rest
      end
  end.

(** The counters of the loop over [hebrewWords]. *)
Record Tally := {
  uniqueWords : StrSet;
  unknownSoFar : nat;
  potentiallyKnownSoFar : nat;
  unknownWordsList : list jsstring
}.

Definition emptyTally : Tally :=
  {| uniqueWords := []; unknownSoFar := 0; potentiallyKnownSoFar := 0;
     unknownWordsList := [] |}.

(** The callback of [hebrewWords.forEach]. *)
Definition tallyWord (matureWords learningWords : list jsstring)
    (t : Tally) (word : jsstring) : Tally :=
  let normalized := normalizeHebrew word in
  if negb (Set_has (uniqueWords t) normalized) then
    let seen := Set_add (uniqueWords t) normalized in
    match getWordKnownType normalized matureWords learningWords with
    | unknown =>
        {| uniqueWords := seen;
           unknownSoFar := S (unknownSoFar t);
           potentiallyKnownSoFar := potentiallyKnownSoFar t;
           unknownWordsList := unknownWordsList t ++ [word] |}
    | potentially_known =>
        {| uniqueWords := seen;
           unknownSoFar := unknownSoFar t;
           potentiallyKnownSoFar := S (potentiallyKnownSoFar t);
           unknownWordsList := unknownWordsList t |}
    | _ =>
        {| uniqueWords := seen;
           unknownSoFar := unknownSoFar t;
           potentiallyKnownSoFar := potentiallyKnownSoFar t;
           unknownWordsList := unknownWordsList t |}
    end
  else t.

(** The body of the [while] loop over the matches: [None] where the code
    [continue]s, the object pushed onto [sentences] otherwise. *)
Definition sentenceOf (matureWords learningWords : list jsstring)
    (m : RegexMatch) : option Sentence :=
  let sentence := trim (matched m) in
  if length sentence =? 0 then None
  else
    let hebrewWords := extractHebrewWords sentence 2 false in
    if length hebrewWords =? 0 then None
    else if length hebrewWords <? Constants.MIN_SENTENCE_WORDS then None
    else
      let t := fold_left (tallyWord matureWords learningWords) hebrewWords
                 emptyTally in
      Some {| text := sentence;
              unknownCount := unknownSoFar t;
              potentiallyKnownCount := potentiallyKnownSoFar t;
              unknownWords := unknownWordsList t;
              start := index m;
              end_ := index m + length (matched m) |}.

(** The [sentences] array of one element. *)
Definition sentencesOf (isNetflix : bool)
    (matureWords learningWords : list jsstring) (textContent : jsstring)
  : list Sentence :=
  flat_map
    (fun m => match sentenceOf matureWords learningWords m with
              | Some s => [s]
              | None => []
              end)
    (execAll isNetflix Idle 0 textContent).

(** What one element adds to [i1SentenceCount] and to
    [potentiallyI1SentenceCount]. *)
Definition elementCounts (isNetflix : bool)
    (matureWords learningWords : list jsstring) (textContent : jsstring)
  : nat * nat :=
  let sentences := sentencesOf isNetflix matureWords learningWords textContent in
  (length (filter isI1Sentence sentences),
   length (filter isPotentiallyI1Sentence sentences)).

End SentenceHighlighter.

(** ** The comprehension statistics module *)

Module AnkiStats.
Import HebrewText.

(** The callback of [hebrewWords.forEach] in [countUnknownWords]; the
    state is [uniqueWordsInSentence] and [unknownCount]. *)
Definition countUnknownWord (matureWords learningWords : list jsstring)
    (st : StrSet * nat) (word : jsstring) : StrSet * nat :=
  let '(uniqueWordsInSentence, unknownCount) := st in
  let normalized := normalizeHebrew word in
  if (0 <? length normalized) && negb (Set_has uniqueWordsInSentence normalized)
  then
    let seen := Set_add uniqueWordsInSentence normalized in
    if negb (isWordKnown normalized matureWords learningWords)
    then (seen, S unknownCount)
    else (seen, unknownCount)
  else st.

(** [countUnknownWords(hebrewWords, matureWords, learningWords)]. *)
Definition countUnknownWords (hebrewWords matureWords learningWords : list jsstring)
  : nat :=
  snd (fold_left (countUnknownWord matureWords learningWords) hebrewWords ([], 0)).

(** [{unknownCount, potentiallyKnownCount}]. *)
Record WordTypeCounts := {
  unknownCount : nat;
  potentiallyKnownCount : nat
}.

(** The callback of [hebrewWords.forEach] in [countWordTypes]. *)
Definition countWordType (matureWords learningWords : list jsstring)
    (st : StrSet * WordTypeCounts) (word : jsstring) : StrSet * WordTypeCounts :=
  let '(uniqueWordsInSentence, counts) := st in
  let normalized := normalizeHebrew word in
  if (0 <? length normalized) && negb (Set_has uniqueWordsInSentence normalized)
  then
    let seen := Set_add uniqueWordsInSentence normalized in
    match getWordKnownType normalized matureWords learningWords with
    | unknown =>
        (seen, {| unknownCount := S (unknownCount counts);
                  potentiallyKnownCount := potentiallyKnownCount counts |})
    | potentially_known =>
        (seen, {| unknownCount := unknownCount counts;
                  potentiallyKnownCount := S (potentiallyKnownCount counts) |})
    | _ => (seen, counts)
    end
  else st.

(** [countWordTypes(hebrewWords, matureWords, learningWords)]. *)
Definition countWordTypes (hebrewWords matureWords learningWords : list jsstring)
  : WordTypeCounts :=
  snd (fold_left (countWordType matureWords learningWords) hebrewWords
         ([], {| unknownCount := 0; potentiallyKnownCount := 0 |})).

(** [(sentenceText.match(window.HEBREW_WORD_REGEX) || [])
      .filter(word => window.normalizeHebrew(word).length > 1)]. *)
Definition sentenceWords (sentenceText : jsstring) : list jsstring :=
  filter (fun word => 1 <? length (normalizeHebrew word))
    (orEmpty (matchHebrew sentenceText)).

(** [checkIfI1Sentence(sentenceText, matureWords, learningWords)]. *)
Definition checkIfI1Sentence (sentenceText : jsstring)
    (matureWords learningWords : list jsstring) : bool :=
  match sentenceText with
  | [] => false
  | _ =>
      let hebrewWords := sentenceWords sentenceText in
      if length hebrewWords <? 3 then false
      else countUnknownWords hebrewWords matureWords learningWords =? 1
  end.

(** [checkIfPotentiallyI1Sentence(sentenceText, matureWords, learningWords)]. *)
Definition checkIfPotentiallyI1Sentence (sentenceText : jsstring)
    (matureWords learningWords : list jsstring) : bool :=
  match sentenceText with
  | [] => false
  | _ =>
      let hebrewWords := sentenceWords sentenceText in
      if length hebrewWords <? 3 then false
      else
        let counts := countWordTypes hebrewWords matureWords learningWords in
        (potentiallyKnownCount counts =? 1)
        && ((unknownCount counts =? 0) || (unknownCount counts =? 1))
  end.

(** A subtitle cue; only its [text] is read here. *)
Record Subtitle := {
  text : jsstring
}.

(** The answer to the [getWords] message: either array may be missing. *)
Record WordsData := {
  matureWords : option (list jsstring);
  learningWords : option (list jsstring)
}.

Record Stats := {
  total : nat;
  known_ : nat;
  potentiallyKnown : nat;
  percentage : float;
  i1Sentences : nat;
  potentiallyI1Sentences : nat
}.

Definition zeroStats : Stats :=
  {| total := 0; known_ := 0; potentiallyKnown := 0; percentage := 0%float;
     i1Sentences := 0; potentiallyI1Sentences := 0 |}.

(** The variables [subtitles.forEach] updates. *)
Record Scan := {
  uniqueWords : StrSet;
  i1SentenceCount : nat;
  potentiallyI1SentenceCount : nat
}.

(** The callback of [hebrewWords.forEach] that fills [uniqueWords]. *)
Definition collectWord (uniqueWords : StrSet) (word : jsstring) : StrSet :=
  let normalized := normalizeHebrew word in
  if 0 <? length normalized then Set_add uniqueWords normalized
  else uniqueWords.

(** The callback of [subtitles.forEach]. *)
Definition scanSubtitle (matureWords learningWords : list jsstring)
    (sc : Scan) (sub : Subtitle) : Scan :=
  let hebrewWords := extractHebrewWords (text sub) 2 false in
  let uniqueWords := fold_left collectWord hebrewWords (uniqueWords sc) in
  if 3 <=? length hebrewWords then
    let counts := countWordTypes hebrewWords matureWords learningWords in
    if (unknownCount counts =? 1) && (potentiallyKnownCount counts =? 0) then
      {| uniqueWords := uniqueWords;
         i1SentenceCount := S (i1SentenceCount sc);
         potentiallyI1SentenceCount := potentiallyI1SentenceCount sc |}
    else if (potentiallyKnownCount counts =? 1)
            && ((unknownCount counts =? 0) || (unknownCount counts =? 1)) then
      {| uniqueWords := uniqueWords;
         i1SentenceCount := i1SentenceCount sc;
         potentiallyI1SentenceCount := S (potentiallyI1SentenceCount sc) |}
    else
      {| uniqueWords := uniqueWords;
         i1SentenceCount := i1SentenceCount sc;
         potentiallyI1SentenceCount := potentiallyI1SentenceCount sc |}
  else
    {| uniqueWords := uniqueWords;
       i1SentenceCount := i1SentenceCount sc;
       potentiallyI1SentenceCount := potentiallyI1SentenceCount sc |}.

(** The callback of [uniqueWords.forEach]; the state is [knownCount] and
    [potentiallyKnownCount]. *)
Definition countKnown (matureWords learningWords : list jsstring)
    (st : nat * nat) (word : jsstring) : nat * nat :=
  let '(knownCount, potentiallyKnownCount) := st in
  match getWordKnownType word matureWords learningWords with
  | known => (S knownCount, potentiallyKnownCount)
  | potentially_known => (knownCount, S potentiallyKnownCount)
  | _ => st
  end.

(** [totalWords > 0 ? Math.round((knownCount / totalWords) * 100) : 0]. *)
Definition percentageOf (knownCount totalWords : nat) : float :=
  if 0 <? totalWords then
    Math_round
      (PrimFloat.mul
         (PrimFloat.div (Number_ofnat knownCount) (Number_ofnat totalWords))
         100%float)
  else 0%float.

(** The [try] block of [calculateComprehensionStats], once the answer to
    the message is there. *)
Definition statsOf (wordsData : WordsData) (subtitles : list Subtitle) : Stats :=
  let matureWords := orEmpty (matureWords wordsData) in
  let learningWords := orEmpty (learningWords wordsData) in
  let sc := fold_left (scanSubtitle matureWords learningWords) subtitles
              {| uniqueWords := []; i1SentenceCount := 0;
                 potentiallyI1SentenceCount := 0 |} in
  let '(knownCount, potentiallyKnownCount) :=
    fold_left (countKnown matureWords learningWords) (uniqueWords sc) (0, 0) in
  let totalWords := Set_size (uniqueWords sc) in
  {| total := totalWords;
     known_ := knownCount;
     potentiallyKnown := potentiallyKnownCount;
     percentage := percentageOf knownCount totalWords;
     i1Sentences := i1SentenceCount sc;
     potentiallyI1Sentences := potentiallyI1SentenceCount sc |}.

(** [calculateComprehensionStats(subtitles)].  [reply] is how
    [await chrome.runtime.sendMessage({ action: 'getWords' })] completes:
    with an answer, which is [undefined] ([None]) when nothing answered,
    or by throwing.  Reading [wordsData.matureWords] of [undefined] throws
    a [TypeError]. *)
Definition calculateComprehensionStats
    (reply : Completion (option WordsData)) (subtitles : list Subtitle)
  : Completion Stats :=
  tryCatch
    (bind reply (fun wordsData =>
       match wordsData with
       | None => Throw TypeError
       | Some wordsData => Normal (statsOf wordsData subtitles)
       end))
    (fun error => Normal zeroStats).

End AnkiStats.

(** ** The counts of section 4.4 of the specification, in its words

    "extract unique normalized tokens from the sentence; classify each;
    count [unknownCount] (strictly unknown) and [potentiallyKnownCount]".
    These are what the loops of the code are compared with. *)

Module SpecWords.
Import HebrewText.

Definition uniqueNormalized (tokens : list jsstring) : list jsstring :=
  nodup jsstring_eq_dec (map normalizeHebrew tokens).

(** How many of [words] the word classifier gives the label [tag]. *)
Definition countTagged (tag : WordTag) (matureWords learningWords : list jsstring)
    (words : list jsstring) : nat :=
  length
    (filter (fun w => tag_eqb (getWordKnownType w matureWords learningWords) tag)
       words).

Definition unknownCountOf (matureWords learningWords tokens : list jsstring) : nat :=
  countTagged unknown matureWords learningWords (uniqueNormalized tokens).

Definition potentiallyKnownCountOf (matureWords learningWords tokens : list jsstring)
  : nat :=
  countTagged potentially_known matureWords learningWords (uniqueNormalized tokens).

(** A string without diacritics. *)
Definition isNormalized (w : jsstring) : bool := streq (normalizeHebrew w) w.

(** The collapse of the four labels of [getWordType] onto the three of
    [getWordKnownType]. *)
Definition collapse (tag : WordTag) : WordTag :=
  match tag with
  | mature | learning => known
  | other => other
  end.

End SpecWords.

(** ** Invariants of the counting loops

    While a loop over the words of a sentence runs, its two counters are
    the numbers of [unknown] and of [potentially-known] words among the
    normalized words seen so far. *)

Module LoopInvariants.
Import SpecWords.

Definition tallyInv (matureWords learningWords : list jsstring)
    (t : SentenceHighlighter.Tally) : Prop :=
  SentenceHighlighter.unknownSoFar t
  = countTagged unknown matureWords learningWords
      (SentenceHighlighter.uniqueWords t)
  /\ SentenceHighlighter.potentiallyKnownSoFar t
     = countTagged potentially_known matureWords learningWords
         (SentenceHighlighter.uniqueWords t).

Definition countsInv (matureWords learningWords : list jsstring)
    (st : StrSet * AnkiStats.WordTypeCounts) : Prop :=
  AnkiStats.unknownCount (snd st)
  = countTagged unknown matureWords learningWords (fst st)
  /\ AnkiStats.potentiallyKnownCount (snd st)
     = countTagged potentially_known matureWords learningWords (fst st).

End LoopInvariants.

(** ** Vocabulary of the further properties *)

Module Shapes.
Import HebrewText.

(** What is true of every match of [HEBREW_WORD_REGEX]: it is not empty
    and holds Hebrew-block code units only. *)
Definition hebrewRun (w : jsstring) : Prop :=
  w <> [] /\ Forall (fun c => isHebrew c = true) w.

(** A text in which [replace(/O[^C]*C/g, '')] finds nothing: no [O]
    before a last part that, if there is one, starts with an [O] that no
    [C] follows. *)
Definition bracketFree (opening closing : codeUnit) (s : jsstring) : Prop :=
  exists a h,
    s = a ++ h /\ ~ In opening a
    /\ (h = [] \/ exists h', h = opening :: h' /\ ~ In closing h').

(** How sure a label is: unknown, then potentially known, then known. *)
Definition confidence (tag : WordTag) : nat :=
  match tag with
  | unknown => 0
  | potentially_known => 1
  | mature | learning | known => 2
  end.

End Shapes.

(** ** The classifier's tests, named *)

Module Tests.
Import HebrewText.

(** The word or the word without a leading vav is in one of the arrays:
    the first two tests of the classifiers. *)
Definition knownForm (w : jsstring) (matureWords learningWords : list jsstring)
  : bool :=
  includes matureWords w || includes learningWords w
  || (startsWith w vav && (1 <? length w)
      && (includes matureWords (substring1 w)
          || includes learningWords (substring1 w))).

(** [w] is the letter [c] followed by a non-empty rest. *)
Definition stripped (c : codeUnit) (w rest : jsstring) : Prop :=
  w = c :: rest /\ rest <> [].

End Tests.

(** ** word-highlighter.js: the pass over the text nodes

    The document is seen through what the code reads of it: the text
    nodes the [TreeWalker] visits, each with its text and with whether
    its parent excludes it (a script, a style, an element already
    highlighted).  A highlighted word is a [span] carrying the word and
    its label, from which its class name, title and underline colour are
    looked up. *)

Module WordPass.
Import HebrewText SentenceHighlighter.

(** [s.substring(from, to)] for indices that are natural numbers: both
    are clamped to the length and exchanged when out of order. *)
Definition substring (s : jsstring) (from to : nat) : jsstring :=
  let a := Nat.min from (length s) in
  let b := Nat.min to (length s) in
  firstn (Nat.max a b - Nat.min a b) (skipn (Nat.min a b) s).

(** [s.substring(from)]. *)
Definition substringFrom (s : jsstring) (from : nat) : jsstring :=
  skipn from s.

(** The successive results of [HEBREW_WORD_REGEX.exec(text)] from
    [lastIndex = 0] until [null], with their indices.  [pos] is the index
    of the next code unit, [run] the match being read. *)
Fixpoint execHebrew (pos : nat) (run : option RegexMatch) (text : jsstring)
  : list RegexMatch :=
  match text with
  | [] =>
      match run with
      | Some m => [m]
      | None => []
      end
  | c :: rest =>
      if isHebrew c then
        match run with
        | Some m => execHebrew (S pos) (Some (extend m c)) rest
        | None =>
            execHebrew (S pos) (Some {| index := pos; matched := [c] |}) rest
        end
      else
        match run with
        | Some m => m :: execHebrew (S pos) None rest
        | None => execHebrew (S pos) None rest
        end
  end.

(** An entry of the [matches] array of [highlightTextNode]. *)
Record Highlight := {
  word : jsstring;
  type : WordTag;
  position : nat;
  length_ : nat
}.

(** The nodes of the fragment that replaces a text node. *)
Inductive Node :=
| TextNode (data : jsstring)
| WordSpan (textContent : jsstring) (label : WordTag).

Definition nodeText (n : Node) : jsstring :=
  match n with
  | TextNode data => data
  | WordSpan textContent _ => textContent
  end.

(** The body of the [while] loop: every label is a non-empty string, so
    [if (wordType)] always holds; [uniqueWords] may be missing. *)
Definition recordMatch (matureWords learningWords : list jsstring)
    (st : list Highlight * option StrSet) (m : RegexMatch)
  : list Highlight * option StrSet :=
  let '(matches, uniqueWords) := st in
  let wordType := WordHighlighter.getWordType (matched m) matureWords learningWords in
  (matches ++ [{| word := matched m; type := wordType;
                  position := index m; length_ := length (matched m) |}],
   match uniqueWords with
   | Some s => Some (Set_add s (normalizeHebrew (matched m)))
   | None => None
   end).

(** The callback of [matches.forEach]; the state is the fragment and
    [lastIndex]. *)
Definition appendHighlight (text : jsstring)
    (st : list Node * nat) (h : Highlight) : list Node * nat :=
  let '(fragment, lastIndex) := st in
  let fragment :=
    if lastIndex <? position h
    then fragment ++ [TextNode (substring text lastIndex (position h))]
    else fragment in
  (fragment ++ [WordSpan (word h) (type h)], position h + length_ h).

(** [highlightTextNode(textNode, uniqueWords, matureWords, learningWords)]:
    the fragment put in the place of the text node, [None] when the node
    is left as it is, and [uniqueWords] afterwards. *)
Definition highlightTextNode (text : jsstring) (uniqueWords : option StrSet)
    (matureWords learningWords : list jsstring)
  : option (list Node) * option StrSet :=
  let '(matches, uniqueWords) :=
    fold_left (recordMatch matureWords learningWords)
      (execHebrew 0 None text) ([], uniqueWords) in
  match matches with
  | [] => (None, uniqueWords)
  | _ =>
      let '(fragment, lastIndex) :=
        fold_left (appendHighlight text) matches ([], 0) in
      let fragment :=
        if lastIndex <? length text
        then fragment ++ [TextNode (substringFrom text lastIndex)]
        else fragment in
      (Some fragment, uniqueWords)
  end.

(** A text node as the [TreeWalker] of [highlightWords] sees it. *)
Record TextNodeInfo := {
  parentExcluded : bool;
  nodeValue : jsstring
}.

(** [acceptNode]. *)
Definition acceptNode (n : TextNodeInfo) : bool :=
  negb (parentExcluded n) && containsHebrew (nodeValue n).

(** [{ total, known, unknown }]; [unknown] is a difference of numbers. *)
Record PageStats := {
  total : nat;
  known_ : nat;
  unknown_ : Z
}.

(** [highlightWords(matureWords, learningWords)]; [body] is the text
    nodes under [document.body], [None] when there is no body. *)
Definition highlightWords (body : option (list TextNodeInfo))
    (matureWords learningWords : list jsstring) : PageStats :=
  match body with
  | None => {| total := 0; known_ := 0; unknown_ := 0 |}
  | Some nodes =>
      let nodesToProcess := filter acceptNode nodes in
      let uniqueWords :=
        fold_left
          (fun uniqueWords textNode =>
             match snd (highlightTextNode (nodeValue textNode)
                          (Some uniqueWords) matureWords learningWords) with
             | Some s => s
             | None => uniqueWords
             end)
          nodesToProcess [] in
      let total := Set_size uniqueWords in
      let known :=
        length
          (filter
             (fun word =>
                let wordType :=
                  WordHighlighter.getWordType word matureWords learningWords in
                tag_eqb wordType mature || tag_eqb wordType learning)
             uniqueWords) in
      {| total := total; known_ := known;
         unknown_ := (Z.of_nat total - Z.of_nat known)%Z |}
  end.

End WordPass.

(** ** Matches and the text they come from *)

Module Offsets.
Import SentenceHighlighter.

(** The matches [ms] lie in [text] one after the other from index
    [from] on: each is not empty, is the text at its index, starts where
    the one before ended or later, and what lies between and after them
    holds only code units of the class [skipped]. *)
Fixpoint chain (skipped : codeUnit -> bool) (text : jsstring) (from : nat)
    (ms : list RegexMatch) : Prop :=
  match ms with
  | [] =>
      from <= length text
      /\ Forall (fun c => skipped c = true) (skipn from text)
  | m :: ms =>
      from <= index m
      /\ matched m <> []
      /\ firstn (length (matched m)) (skipn (index m) text) = matched m
      /\ Forall (fun c => skipped c = true)
           (firstn (index m - from) (skipn from text))
      /\ chain skipped text (index m + length (matched m)) ms
  end.

End Offsets.

(** ** What a fragment holds *)

Module Fragments.
Import HebrewText SentenceHighlighter WordPass.

(** The highlighted words of a fragment with their labels, in order. *)
Fixpoint spans (fragment : list Node) : list (jsstring * WordTag) :=
  match fragment with
  | [] => []
  | TextNode _ :: rest => spans rest
  | WordSpan w label :: rest => (w, label) :: spans rest
  end.

(** A text node of a fragment is not empty and holds nothing Hebrew. *)
Definition plainText (n : Node) : Prop :=
  match n with
  | TextNode data => data <> [] /\ Forall (fun c => isHebrew c = false) data
  | WordSpan _ _ => True
  end.

(** The entry of [matches] made from a match. *)
Definition toHighlight (matureWords learningWords : list jsstring)
    (m : RegexMatch) : Highlight :=
  {| word := matched m;
     type := WordHighlighter.getWordType (matched m) matureWords learningWords;
     position := index m;
     length_ := length (matched m) |}.

End Fragments.

(** ** The shape of a sentence match *)

Module SentenceShapes.
Import SentenceHighlighter.

(** A match of [sentenceRegex]: a non-empty body without boundary code
    units, then terminators. *)
Definition sentenceShape (isNetflix : bool) (w : jsstring) : Prop :=
  exists body tail,
    w = body ++ tail
    /\ body <> []
    /\ Forall (fun c => isBoundary isNetflix c = false) body
    /\ Forall (fun c => isTerminator c = true) tail.

(** What a scanning state holds is a match in the making. *)
Definition stateShape (isNetflix : bool) (st : ScanState) : Prop :=
  match st with
  | Idle => True
  | InBody m =>
      matched m <> []
      /\ Forall (fun c => isBoundary isNetflix c = false) (matched m)
  | InTail m => sentenceShape isNetflix (matched m)
  end.

End SentenceShapes.

(** ** What the loop over the words of a sentence keeps true *)

Module Bounds.
Import SentenceHighlighter.

Definition tallyBounds (t : Tally) : Prop :=
  length (unknownWordsList t) = unknownSoFar t
  /\ unknownSoFar t + potentiallyKnownSoFar t <= length (uniqueWords t).

End Bounds.

(** ** The subtitle browser: one row per subtitle

    How a row of the browser is marked from the two checks of the
    statistics module. *)

Module SubtitleBrowser.
Import AnkiStats.

Inductive RowClass :=
| I1Row
| PotentiallyI1Row
| PlainRow.

(** [isI1Sentence] and [isPotentiallyI1Sentence] of a row. *)
Definition rowFlags (sentenceHighlightEnabled : bool) (subText : jsstring)
    (matureWords learningWords : list jsstring) : bool * bool :=
  let isI1Sentence :=
    sentenceHighlightEnabled
    && checkIfI1Sentence subText matureWords learningWords in
  let isPotentiallyI1Sentence :=
    sentenceHighlightEnabled && negb isI1Sentence
    && checkIfPotentiallyI1Sentence subText matureWords learningWords in
  (isI1Sentence, isPotentiallyI1Sentence).

(** The class the row gets: ['anki-i1-sentence'],
    ['anki-potentially-i1-sentence'] or none. *)
Definition rowClass (sentenceHighlightEnabled : bool) (subText : jsstring)
    (matureWords learningWords : list jsstring) : RowClass :=
  let '(isI1Sentence, isPotentiallyI1Sentence) :=
    rowFlags sentenceHighlightEnabled subText matureWords learningWords in
  if isI1Sentence then I1Row
  else if isPotentiallyI1Sentence then PotentiallyI1Row
  else PlainRow.

End SubtitleBrowser.

(** ** Text units, as the aggregator counts them *)

Module Units.
Import HebrewText AnkiStats.

(** The two tests of [calculateComprehensionStats] on one subtitle. *)
Definition countedI1 (matureWords learningWords : list jsstring)
    (sub : Subtitle) : bool :=
  let hebrewWords := extractHebrewWords (text sub) 2 false in
  let counts := countWordTypes hebrewWords matureWords learningWords in
  (3 <=? length hebrewWords)
  && ((unknownCount counts =? 1) && (potentiallyKnownCount counts =? 0)).

Definition countedPotentiallyI1 (matureWords learningWords : list jsstring)
    (sub : Subtitle) : bool :=
  let hebrewWords := extractHebrewWords (text sub) 2 false in
  let counts := countWordTypes hebrewWords matureWords learningWords in
  (3 <=? length hebrewWords)
  && negb ((unknownCount counts =? 1) && (potentiallyKnownCount counts =? 0))
  && ((potentiallyKnownCount counts =? 1)
      && ((unknownCount counts =? 0) || (unknownCount counts =? 1))).

(** All the words of the subtitles. *)
Definition allWords (subtitles : list Subtitle) : list jsstring :=
  flat_map (fun sub => extractHebrewWords (text sub) 2 false) subtitles.

End Units.

(** ** card-creator-modal.js: the unknown words of a sentence *)

Module CardCreator.
Import HebrewText.

(** The body of [for (const word of words)]. *)
Definition noteUnknown (matureWords learningWords : list jsstring)
    (unknownWords : list jsstring) (word : jsstring) : list jsstring :=
  let normalized := normalizeHebrew word in
  if negb (isWordKnown normalized matureWords learningWords) then
    if negb (includes unknownWords word) then unknownWords ++ [word]
    else unknownWords
  else unknownWords.

(** [extractAllUnknownWords(sentence, matureWords, learningWords)]. *)
Definition extractAllUnknownWords (sentence : jsstring)
    (matureWords learningWords : list jsstring) : list jsstring :=
  let words := orEmpty (matchHebrew sentence) in
  fold_left (noteUnknown matureWords learningWords) words [].

End CardCreator.

(** ** background.js: sorting cards into mature and learning words

    [fetchHebrewWords] from the point where the answers of the flashcard
    program are there: the cards ([cardsInfo]), the notes with the
    matches of [hebrewRegex] in their Hebrew field ([None] for a note
    without the field or without a match), and the notes of the "Already
    Known" deck, whose fetch may fail. *)

Module Vocabulary.
Import HebrewText.

Record Card := {
  note : Z;
  interval : option Z;
  type_ : Z
}.

Record Note := {
  noteId : Z;
  matches : option (list jsstring)
}.

(** [settings.settings?.matureThreshold || 21]. *)
Definition matureThresholdOf (setting : option Z) : Z :=
  match setting with
  | None => 21
  | Some t => if (t =? 0)%Z then 21 else t
  end.

(** [card.interval || 0]. *)
Definition intervalOf (card : Card) : Z :=
  match interval card with
  | None => 0
  | Some i => i
  end.

(** A [Map] from note ids to words, the latest [set] first. *)
Definition NoteWords := list (Z * list jsstring).

Fixpoint Map_get (map : NoteWords) (key : Z) : option (list jsstring) :=
  match map with
  | [] => None
  | (k, v) :: rest => if (k =? key)%Z then Some v else Map_get rest key
  end.

(** [set.delete(x)]. *)
Definition Set_delete (s : StrSet) (x : jsstring) : StrSet :=
  filter (fun y => negb (streq x y)) s.

(** The callback of [notesInfo.forEach]. *)
Definition recordNote (map : NoteWords) (n : Note) : NoteWords :=
  match matches n with
  | Some ms => (noteId n, Background.noteWords ms) :: map
  | None => map
  end.

(** The callback of [words.forEach] for a card; the state is
    [matureWords] and [learningWords]. *)
Definition sortWord (matureThreshold cardType interval : Z)
    (sets : StrSet * StrSet) (word : jsstring) : StrSet * StrSet :=
  let '(matureWords, learningWords) := sets in
  if ((cardType =? 2) && (matureThreshold <=? interval))%Z then
    (Set_add matureWords word, Set_delete learningWords word)
  else if ((cardType =? 1)
           || ((cardType =? 2) && (0 <? interval) && (interval <? matureThreshold)))%Z
  then
    if negb (Set_has matureWords word)
    then (matureWords, Set_add learningWords word)
    else sets
  else sets.

(** The callback of [cardsInfo.forEach]. *)
Definition sortCard (matureThreshold : Z) (noteWordsMap : NoteWords)
    (sets : StrSet * StrSet) (card : Card) : StrSet * StrSet :=
  match Map_get noteWordsMap (note card) with
  | None => sets
  | Some words =>
      fold_left (sortWord matureThreshold (type_ card) (intervalOf card))
        words sets
  end.

(** A word of the "Already Known" deck. *)
Definition alreadyKnownWord (sets : StrSet * StrSet) (word : jsstring)
  : StrSet * StrSet :=
  let '(matureWords, learningWords) := sets in
  (Set_add matureWords word, Set_delete learningWords word).

(** The callback of [alreadyKnownNotesInfo.forEach]. *)
Definition alreadyKnownNote (sets : StrSet * StrSet) (n : Note)
  : StrSet * StrSet :=
  match matches n with
  | Some ms => fold_left alreadyKnownWord (Background.noteWords ms) sets
  | None => sets
  end.

(** The order of [Array.prototype.sort] without a comparator: strings
    compared code unit by code unit, a prefix before what extends it. *)
Fixpoint str_leb (a b : jsstring) : bool :=
  match a, b with
  | [], _ => true
  | _ :: _, [] => false
  | x :: a', y :: b' =>
      if (x <? y)%N then true
      else if (y <? x)%N then false
      else str_leb a' b'
  end.

Fixpoint insertSorted (x : jsstring) (l : list jsstring) : list jsstring :=
  match l with
  | [] => [x]
  | y :: rest => if str_leb x y then x :: l else y :: insertSorted x rest
  end.

(** [Array.from(set).sort()]. *)
Definition sortArray (s : StrSet) : list jsstring :=
  fold_right insertSorted [] s.

(** [{ mature, learning }], also what is stored as [matureWords] and
    [learningWords].  Without any card nothing is read further. *)
Definition fetchHebrewWords (matureThresholdSetting : option Z)
    (cardsInfo : list Card) (notesInfo : list Note)
    (alreadyKnownNotesInfo : Completion (list Note))
  : list jsstring * list jsstring :=
  match cardsInfo with
  | [] => ([], [])
  | _ =>
      let matureThreshold := matureThresholdOf matureThresholdSetting in
      let noteWordsMap := fold_left recordNote notesInfo [] in
      let sets :=
        fold_left (sortCard matureThreshold noteWordsMap) cardsInfo ([], []) in
      let sets :=
        match alreadyKnownNotesInfo with
        | Normal notes => fold_left alreadyKnownNote notes sets
        | Throw _ => sets
        end in
      (sortArray (fst sets), sortArray (snd sets))
  end.

(** The two sets share no word and neither repeats one. *)
Definition separate (sets : StrSet * StrSet) : Prop :=
  NoDup (fst sets) /\ NoDup (snd sets)
  /\ forall w, In w (fst sets) -> ~ In w (snd sets).

(** A card that makes its words mature. *)
Definition matureCard (matureThreshold : Z) (card : Card) : bool :=
  ((type_ card =? 2) && (matureThreshold <=? intervalOf card))%Z.

End Vocabulary.

(** ** Entries a page word can be equal to *)

Module Entries.
Import HebrewText.

(** An entry made of Hebrew-block code units only. *)
Definition allHebrew (entry : jsstring) : bool := forallb isHebrew entry.

End Entries.

(** ** What a stored vocabulary word is *)

Module StoredWords.
Import HebrewText.

(** Not empty and without diacritics. *)
Definition clean (w : jsstring) : Prop :=
  w <> [] /\ normalizeHebrew w = w.

(** Every value of the map is made of clean words. *)
Definition cleanMap (map : Vocabulary.NoteWords) : Prop :=
  Forall (fun kv => Forall clean (snd kv)) map.

(** Both sets are made of clean words. *)
Definition cleanSets (sets : StrSet * StrSet) : Prop :=
  Forall clean (fst sets) /\ Forall clean (snd sets).

End StoredWords.

(** ** Words and sentences used as concrete inputs *)

Module Samples.

(** shalom, olam, yafe, meod, bayit, sefer. *)
Definition shalom : jsstring := [0x05E9; 0x05DC; 0x05D5; 0x05DD]%N.
Definition olam : jsstring := [0x05E2; 0x05D5; 0x05DC; 0x05DD]%N.
Definition yafe : jsstring := [0x05D9; 0x05E4; 0x05D4]%N.
Definition meod : jsstring := [0x05DE; 0x05D0; 0x05D5; 0x05D3]%N.
Definition bayit : jsstring := [0x05D1; 0x05D9; 0x05EA]%N.
Definition sefer : jsstring := [0x05E1; 0x05E4; 0x05E8]%N.

(** shalom written with its vowel points (shin dot, qamats, holam). *)
Definition shalomPointed : jsstring :=
  [0x05E9; 0x05C1; 0x05B8; 0x05DC; 0x05D5; 0x05B9; 0x05DD]%N.

Definition space : jsstring := [0x20]%N.

(** "shalom olam yafe meod". *)
Definition fourWords : jsstring :=
  shalom ++ space ++ olam ++ space ++ yafe ++ space ++ meod.

(** "shalom olam babayit": two known words and one behind the prefix bet. *)
Definition prefixedSentence : jsstring :=
  shalom ++ space ++ olam ++ space ++ (HebrewText.bet :: bayit).

(** "shalom olam". *)
Definition twoWords : jsstring := shalom ++ space ++ olam.

End Samples.

(** ** Cards and notes used as concrete inputs *)

Module SampleCards.
Import Vocabulary.

(** A note whose field holds "sefer". *)
Definition seferNote : Note :=
  {| noteId := 1; matches := Some [Samples.sefer] |}.

(** A review card of that note with an interval of 30 days, and a
    second card of the same note still at 3 days. *)
Definition matureSefer : Card :=
  {| note := 1; interval := Some 30%Z; type_ := 2 |}.

Definition youngSefer : Card :=
  {| note := 1; interval := Some 3%Z; type_ := 2 |}.

(** A note of the "Already Known" deck holding "bayit". *)
Definition bayitNote : Note :=
  {| noteId := 2; matches := Some [Samples.bayit] |}.

End SampleCards.

(** ** The percentage, read over the rationals *)

Module SpecPercentage.






End SpecPercentage.

(** ** A subtitle of forty different words *)

Module SampleSubtitles.

(** Two-letter words over alef..he and alef..het: the word number [i]
    is made of the letters number [i / 8] and [i mod 8]. *)
Definition word (i : nat) : jsstring :=
  [(0x05D0 + N.of_nat (i / 8))%N; (0x05D0 + N.of_nat (i mod 8))%N].

Definition words (count : nat) : list jsstring := map word (seq 0 count).



End SampleSubtitles.

(** * Properties *)

(** ** Arrays and sets *)

Lemma streq_true (a b : jsstring) : streq a b = true <-> a = b.
Proof.
  unfold streq. destruct (jsstring_eq_dec a b); split; congruence.
Qed.

Lemma includes_In (arr : list jsstring) (x : jsstring) :
  includes arr x = true <-> In x arr.
Proof.
  unfold includes. rewrite existsb_exists. split.
  - intros (y & Hy & E). apply streq_true in E. now subst.
  - intros H. exists x. split; [assumption | now apply streq_true].
Qed.

Lemma includes_not_In (arr : list jsstring) (x : jsstring) :
  includes arr x = false <-> ~ In x arr.
Proof.
  rewrite <- includes_In. destruct (includes arr x); split; congruence.
Qed.

Lemma Set_has_In (s : StrSet) (x : jsstring) : Set_has s x = true <-> In x s.
Proof. apply includes_In. Qed.

(** ** The text normalizer *)

Lemma normalizeHebrew_filter (w : jsstring) :
  HebrewText.normalizeHebrew w
  = filter (fun c => negb (HebrewText.isNikud c)) w.
Proof. destruct w; reflexivity. Qed.

Lemma filter_twice {A} (p : A -> bool) (l : list A) :
  filter p (filter p l) = filter p l.
Proof.
  induction l as [|a l IH]; simpl; [reflexivity|].
  destruct (p a) eqn:E; simpl; rewrite ?E, IH; reflexivity.
Qed.

(** C9. [normalizeHebrew] (the spec's stripDiacritics) is idempotent:
    stripping the diacritics of an already stripped string changes
    nothing, for every string. *)
Theorem normalizeHebrew_idempotent (x : jsstring) :
  HebrewText.normalizeHebrew (HebrewText.normalizeHebrew x)
  = HebrewText.normalizeHebrew x.
Proof.
  rewrite !normalizeHebrew_filter. apply filter_twice.
Qed.

(** ** The word classifiers *)

Section WordClassifiers.
Import HebrewText SpecWords.

Variables matureWords learningWords : list jsstring.

Let g : Coordinator.Globals :=
  {| Coordinator.matureWords := matureWords;
     Coordinator.learningWords := learningWords |}.

(** The coordinator's classifier is the highlighter's without the
    normalization step. *)
Lemma highlighter_is_coordinator (word : jsstring) :
  WordHighlighter.getWordType word matureWords learningWords
  = Coordinator.getWordType g (normalizeHebrew word).
Proof. reflexivity. Qed.

(** [getWordKnownType] is the collapse of the four-label classifier. *)
Lemma getWordKnownType_collapse (w : jsstring) :
  getWordKnownType w matureWords learningWords
  = collapse (Coordinator.getWordType g w).
Proof.
  unfold getWordKnownType, Coordinator.getWordType; simpl.
  destruct (includes matureWords w); [reflexivity|].
  destruct (includes learningWords w); [reflexivity|]. simpl.
  destruct (startsWith w vav && (1 <? length w)).
  - destruct (includes matureWords (substring1 w)); [reflexivity|].
    destruct (includes learningWords (substring1 w)); [reflexivity|]. simpl.
    destruct (prefixMatch w matureWords learningWords); reflexivity.
  - destruct (prefixMatch w matureWords learningWords); reflexivity.
Qed.

(** The four-label classifier never answers ['known']. *)
Lemma getWordType_not_known (w : jsstring) :
  Coordinator.getWordType g w <> known.
Proof.
  unfold Coordinator.getWordType; simpl.
  destruct (includes matureWords w); [discriminate|].
  destruct (includes learningWords w); [discriminate|].
  destruct (startsWith w vav && (1 <? length w)).
  - destruct (includes matureWords (substring1 w)); [discriminate|].
    destruct (includes learningWords (substring1 w)); [discriminate|].
    destruct (prefixMatch w matureWords learningWords); discriminate.
  - destruct (prefixMatch w matureWords learningWords); discriminate.
Qed.

(** The three-label classifier answers nothing but its three labels. *)
Lemma getWordKnownType_range (w : jsstring) :
  let tag := getWordKnownType w matureWords learningWords in
  tag = known \/ tag = potentially_known \/ tag = unknown.
Proof.
  simpl. rewrite getWordKnownType_collapse.
  destruct (Coordinator.getWordType g w); simpl; auto.
Qed.

(** A word that starts with vav starts with none of the three prefixes. *)
Lemma vav_no_prefix (w : jsstring) :
  startsWith w vav = true -> prefixMatch w matureWords learningWords = false.
Proof.
  destruct w as [|c w]; [discriminate|]. simpl. intros E.
  apply N.eqb_eq in E. subst c. reflexivity.
Qed.

(** A word that starts with one of the three prefixes does not start
    with vav. *)
Lemma prefix_no_vav (p : codeUnit) (rest : jsstring) :
  In p prefixes -> startsWith (p :: rest) vav = false.
Proof.
  simpl. intros [E | [E | [E | []]]]; subst p; reflexivity.
Qed.

Lemma prefixMatch_intro (p : codeUnit) (rest : jsstring) :
  In p prefixes -> rest <> [] ->
  In rest matureWords \/ In rest learningWords ->
  prefixMatch (p :: rest) matureWords learningWords = true.
Proof.
  intros Hp Hrest Hin. unfold prefixMatch. apply existsb_exists.
  exists p. split; [assumption|]. simpl. rewrite N.eqb_refl.
  destruct rest as [|c rest]; [congruence|]. simpl.
  apply orb_true_iff. rewrite !includes_In. exact Hin.
Qed.

End WordClassifiers.

(** C2. A token whose normalized form is in neither vocabulary array,
    begins with vav and is longer than one code unit is classified by the
    vav rule: [mature] when the form without the vav is in the mature
    array, [learning] when it is only in the learning array.  The prefix
    rule is not consulted.  This holds for the page highlighter's
    classifier and for the coordinator's. *)
Theorem vav_rule_resolves_first
    (token : jsstring) (matureWords learningWords : list jsstring) :
  let normalized := HebrewText.normalizeHebrew token in
  let withoutVav := substring1 normalized in
  let g := {| Coordinator.matureWords := matureWords;
              Coordinator.learningWords := learningWords |} in
  ~ In normalized matureWords ->
  ~ In normalized learningWords ->
  startsWith normalized HebrewText.vav = true ->
  1 < length normalized ->
  (In withoutVav matureWords ->
   WordHighlighter.getWordType token matureWords learningWords = mature
   /\ Coordinator.getWordType g normalized = mature)
  /\
  (~ In withoutVav matureWords -> In withoutVav learningWords ->
   WordHighlighter.getWordType token matureWords learningWords = learning
   /\ Coordinator.getWordType g normalized = learning).
Proof.
  intros normalized withoutVav g Hm Hl Hvav Hlen.
  apply includes_not_In in Hm, Hl.
  apply Nat.ltb_lt in Hlen.
  assert (common : forall tag,
    (if includes matureWords withoutVav then Some mature
     else if includes learningWords withoutVav then Some learning
     else None) = Some tag ->
    WordHighlighter.getWordType token matureWords learningWords = tag
    /\ Coordinator.getWordType g normalized = tag).
  { intros tag E.
    rewrite highlighter_is_coordinator. fold normalized. fold g.
    unfold Coordinator.getWordType. simpl.
    rewrite Hm, Hl, Hvav, Hlen. simpl. fold withoutVav.
    rewrite E. split; reflexivity. }
  split.
  - intros Hin. apply includes_In in Hin. apply common. now rewrite Hin.
  - intros Hnm Hin. apply includes_not_In in Hnm. apply includes_In in Hin.
    apply common. now rewrite Hnm, Hin.
Qed.

(** The spec's scenario for C2: "vav + sefer" with "sefer" mature is
    [mature], although the token is in neither array. *)
Lemma vav_rule_resolves_first_witness :
  WordHighlighter.getWordType (HebrewText.vav :: Samples.sefer)
    [Samples.sefer] [] = mature
  /\ Coordinator.getWordType
       {| Coordinator.matureWords := [Samples.sefer];
          Coordinator.learningWords := [] |}
       (HebrewText.normalizeHebrew (HebrewText.vav :: Samples.sefer)) = mature.
Proof.
  refine (proj1 (vav_rule_resolves_first (HebrewText.vav :: Samples.sefer)
                   [Samples.sefer] [] _ _ _ _) _).
  - simpl. intros [E | []]. discriminate E.
  - simpl. intros [].
  - reflexivity.
  - simpl. lia.
  - simpl. left. reflexivity.
Defined.

(** C3. A token whose normalized form is in neither array and begins
    with lamed, bet or shin (so the vav rule cannot match it), is longer
    than one code unit and whose rest is in one of the arrays is
    [potentially-known] for all three classifiers, never [mature],
    [learning] or [known]. *)
Theorem prefix_rule_potentially_known
    (token : jsstring) (matureWords learningWords : list jsstring)
    (prefix : codeUnit) (rest : jsstring) :
  let g := {| Coordinator.matureWords := matureWords;
              Coordinator.learningWords := learningWords |} in
  HebrewText.normalizeHebrew token = prefix :: rest ->
  In prefix HebrewText.prefixes ->
  rest <> [] ->
  ~ In (prefix :: rest) matureWords ->
  ~ In (prefix :: rest) learningWords ->
  In rest matureWords \/ In rest learningWords ->
  WordHighlighter.getWordType token matureWords learningWords = potentially_known
  /\ Coordinator.getWordType g (prefix :: rest) = potentially_known
  /\ HebrewText.getWordKnownType (prefix :: rest) matureWords learningWords
     = potentially_known.
Proof.
  intros g Hnorm Hp Hrest Hm Hl Hin.
  apply includes_not_In in Hm, Hl.
  assert (Hc : Coordinator.getWordType g (prefix :: rest) = potentially_known).
  { unfold Coordinator.getWordType. cbn [g Coordinator.matureWords
      Coordinator.learningWords]. rewrite Hm, Hl.
    rewrite (prefix_no_vav prefix rest Hp). cbn [andb].
    now rewrite (prefixMatch_intro _ _ prefix rest Hp Hrest Hin). }
  split; [|split].
  - rewrite highlighter_is_coordinator, Hnorm. exact Hc.
  - exact Hc.
  - rewrite getWordKnownType_collapse. fold g. now rewrite Hc.
Qed.

(** The spec's scenario for C3: "bet + bayit" with "bayit" mature. *)
Lemma prefix_rule_potentially_known_witness :
  WordHighlighter.getWordType (HebrewText.bet :: Samples.bayit)
    [Samples.bayit] [] = potentially_known
  /\ Coordinator.getWordType
       {| Coordinator.matureWords := [Samples.bayit];
          Coordinator.learningWords := [] |}
       (HebrewText.bet :: Samples.bayit) = potentially_known
  /\ HebrewText.getWordKnownType (HebrewText.bet :: Samples.bayit)
       [Samples.bayit] [] = potentially_known.
Proof.
  apply (prefix_rule_potentially_known (HebrewText.bet :: Samples.bayit)
           [Samples.bayit] [] HebrewText.bet Samples.bayit).
  - reflexivity.
  - simpl. right. left. reflexivity.
  - discriminate.
  - simpl. intros [E | []]. discriminate E.
  - simpl. intros [].
  - left. simpl. left. reflexivity.
Defined.

(** C10. On a word without diacritics the classifiers agree up to the
    collapse of [mature] and [learning] onto [known]: [getWordKnownType]
    answers [known] exactly when [getWordType] answers [mature] or
    [learning], and [potentially-known], [unknown] exactly when
    [getWordType] does; the coordinator's [getWordType] answers what
    the highlighter's does. *)
Theorem classifiers_agree_up_to_collapse
    (word : jsstring) (matureWords learningWords : list jsstring) :
  HebrewText.normalizeHebrew word = word ->
  let k := HebrewText.getWordKnownType word matureWords learningWords in
  let t := WordHighlighter.getWordType word matureWords learningWords in
  let g := {| Coordinator.matureWords := matureWords;
              Coordinator.learningWords := learningWords |} in
  Coordinator.getWordType g word = t
  /\ (k = known <-> t = mature \/ t = learning)
  /\ (k = potentially_known <-> t = potentially_known)
  /\ (k = unknown <-> t = unknown).
Proof.
  intros Hnorm k t g.
  assert (Et : t = Coordinator.getWordType g word).
  { unfold t. rewrite highlighter_is_coordinator, Hnorm. reflexivity. }
  assert (Ek : k = SpecWords.collapse t).
  { unfold k. rewrite getWordKnownType_collapse. now rewrite Et. }
  assert (Hk : t <> known).
  { rewrite Et. apply getWordType_not_known. }
  split; [now rewrite Et|]. rewrite Ek. clearbody t. clear - Hk.
  destruct t; simpl; repeat split; intros H;
    try discriminate; try congruence; auto;
    destruct H; discriminate.
Qed.

(** "vav + sefer" against a mature "sefer": [known] on one side,
    [mature] on the other. *)
Lemma classifiers_agree_up_to_collapse_witness :
  let word := HebrewText.vav :: Samples.sefer in
  HebrewText.normalizeHebrew word = word
  /\ HebrewText.getWordKnownType word [Samples.sefer] [] = known
  /\ WordHighlighter.getWordType word [Samples.sefer] [] = mature.
Proof.
  intros word.
  assert (Hnorm : HebrewText.normalizeHebrew word = word) by reflexivity.
  destruct (classifiers_agree_up_to_collapse word [Samples.sefer] [] Hnorm)
    as (_ & Hknown & _ & _).
  split; [exact Hnorm|]. split.
  - apply Hknown. left. reflexivity.
  - reflexivity.
Defined.

(** ** Diacritics in the vocabulary *)

Lemma filter_fixed_tail {A} (p : A -> bool) (a : A) (l : list A) :
  filter p (a :: l) = a :: l -> filter p l = l.
Proof.
  simpl. destruct (p a).
  - congruence.
  - intros E. pose proof (filter_length_le p l) as Hle.
    rewrite E in Hle. simpl in Hle. lia.
Qed.

Lemma normalized_substring1 (w : jsstring) :
  HebrewText.normalizeHebrew w = w ->
  HebrewText.normalizeHebrew (substring1 w) = substring1 w.
Proof.
  rewrite !normalizeHebrew_filter. destruct w as [|c w]; [reflexivity|].
  apply filter_fixed_tail.
Qed.

(** An entry that carries a diacritic is never equal to a normalized
    string, so dropping such entries changes no membership test the
    classifiers make. *)
Lemma includes_filter_normalized (arr : list jsstring) (x : jsstring) :
  HebrewText.normalizeHebrew x = x ->
  includes (filter SpecWords.isNormalized arr) x = includes arr x.
Proof.
  intros Hx. induction arr as [|e arr IH]; [reflexivity|].
  simpl. unfold SpecWords.isNormalized at 1.
  destruct (streq (HebrewText.normalizeHebrew e) e) eqn:Ee; simpl.
  - now rewrite IH.
  - rewrite IH. destruct (streq x e) eqn:Exe; [|reflexivity].
    apply streq_true in Exe. subst e.
    apply streq_true in Hx. congruence.
Qed.

Lemma getWordType_filter_normalized
    (w : jsstring) (matureWords learningWords : list jsstring) :
  HebrewText.normalizeHebrew w = w ->
  Coordinator.getWordType
    {| Coordinator.matureWords := filter SpecWords.isNormalized matureWords;
       Coordinator.learningWords := filter SpecWords.isNormalized learningWords |}
    w
  = Coordinator.getWordType
      {| Coordinator.matureWords := matureWords;
         Coordinator.learningWords := learningWords |} w.
Proof.
  intros Hw. pose proof (normalized_substring1 w Hw) as Ht.
  unfold Coordinator.getWordType, HebrewText.prefixMatch.
  cbn [Coordinator.matureWords Coordinator.learningWords].
  now rewrite !(includes_filter_normalized _ w Hw),
              !(includes_filter_normalized _ (substring1 w) Ht).
Qed.

(** The words [fetchHebrewWords] stores carry no diacritics. *)
Lemma noteWords_normalized (matches : list jsstring) :
  Forall (fun w => HebrewText.normalizeHebrew w = w) (Background.noteWords matches).
Proof.
  unfold Background.noteWords. apply Forall_forall. intros w Hw.
  apply filter_In in Hw. destruct Hw as [Hw _].
  apply in_map_iff in Hw. destruct Hw as (raw & <- & _).
  rewrite normalizeHebrew_filter. apply filter_twice.
Qed.

(** C4, as stated, fails: the token "shalom" against a mature array that
    holds "shalom" with its vowel points is [unknown], and [mature] once
    the entry has been stripped.  The classifier compares the normalized
    token with the entries as they are. *)
Lemma pointed_entry_changes_classification :
  WordHighlighter.getWordType Samples.shalom [Samples.shalomPointed] [] = unknown
  /\ WordHighlighter.getWordType Samples.shalom
       (map HebrewText.normalizeHebrew [Samples.shalomPointed]) [] = mature
  /\ HebrewText.getWordKnownType Samples.shalom [Samples.shalomPointed] []
     = unknown
  /\ HebrewText.getWordKnownType Samples.shalom
       (map HebrewText.normalizeHebrew [Samples.shalomPointed]) [] = known.
Proof. repeat split; reflexivity. Qed.

(** C4, amended.  No classifier normalizes a vocabulary entry: entries
    are compared as they are.  [getWordType] normalizes the token: for
    every token its answer is the same with or without the token's
    diacritics, and an entry carrying a diacritic never matches, so that
    the answer is the same with such entries present or dropped.
    [getWordKnownType] normalizes nothing, neither the entries nor the
    word, which its callers normalize before the call: on the normalized
    token, for every token, its answer is the same with the entries
    carrying a diacritic present or dropped, and it is the answer of
    [getWordType] on the token up to the collapse of [mature] and
    [learning] onto [known]; on a word that still carries its
    diacritics it compares the word as given, as "shalom" with its vowel
    points against the mature word "shalom" shows. *)
Theorem classifier_normalizes_token_only :
  (forall (token : jsstring) (matureWords learningWords : list jsstring),
     WordHighlighter.getWordType (HebrewText.normalizeHebrew token)
       matureWords learningWords
     = WordHighlighter.getWordType token matureWords learningWords
     /\ WordHighlighter.getWordType token
          (filter SpecWords.isNormalized matureWords)
          (filter SpecWords.isNormalized learningWords)
        = WordHighlighter.getWordType token matureWords learningWords)
  /\ (forall (token : jsstring) (matureWords learningWords : list jsstring),
        HebrewText.getWordKnownType (HebrewText.normalizeHebrew token)
          (filter SpecWords.isNormalized matureWords)
          (filter SpecWords.isNormalized learningWords)
        = HebrewText.getWordKnownType (HebrewText.normalizeHebrew token)
            matureWords learningWords
        /\ HebrewText.getWordKnownType (HebrewText.normalizeHebrew token)
             matureWords learningWords
           = SpecWords.collapse
               (WordHighlighter.getWordType token matureWords learningWords))
  /\ (HebrewText.getWordKnownType Samples.shalomPointed [Samples.shalom] []
      = unknown
      /\ HebrewText.getWordKnownType
           (HebrewText.normalizeHebrew Samples.shalomPointed)
           [Samples.shalom] []
         = known
      /\ WordHighlighter.getWordType Samples.shalomPointed [Samples.shalom] []
         = mature).
Proof.
  split; [|split].
  - intros token matureWords learningWords.
    assert (Hn : HebrewText.normalizeHebrew (HebrewText.normalizeHebrew token)
                 = HebrewText.normalizeHebrew token)
      by (rewrite !normalizeHebrew_filter; apply filter_twice).
    split.
    + rewrite !highlighter_is_coordinator. now rewrite Hn.
    + rewrite !highlighter_is_coordinator.
      now apply getWordType_filter_normalized.
  - intros token matureWords learningWords. split.
    + rewrite !getWordKnownType_collapse. f_equal.
      apply getWordType_filter_normalized.
      rewrite !normalizeHebrew_filter. apply filter_twice.
    + rewrite getWordKnownType_collapse, highlighter_is_coordinator.
      reflexivity.
  - repeat split; reflexivity.
Qed.

(** ** The sentence predicates *)

(** C5. Whatever the two counts of a sentence are, [isI1Sentence] and
    [isPotentiallyI1Sentence] do not both hold: the first needs
    [potentiallyKnownCount] to be 0, the second needs it to be 1. *)
Theorem i1_and_potentially_i1_exclusive (sentence : SentenceHighlighter.Sentence) :
  SentenceHighlighter.isI1Sentence sentence
  && SentenceHighlighter.isPotentiallyI1Sentence sentence = false.
Proof.
  unfold SentenceHighlighter.isI1Sentence,
         SentenceHighlighter.isPotentiallyI1Sentence.
  destruct (Nat.eqb_spec (SentenceHighlighter.potentiallyKnownCount sentence) 0)
    as [Hzero | Hzero].
  - rewrite Hzero. cbn [Nat.eqb andb]. apply andb_false_r.
  - rewrite andb_false_r. reflexivity.
Qed.

(** ** The aggregator's failure path *)

(** C8. When the vocabulary fetch throws, [calculateComprehensionStats]
    completes normally with the zeroed statistics, whatever the error and
    the subtitles are: the error is not propagated.  The same happens
    when the message gets no answer, since reading [matureWords] of
    [undefined] throws inside the same [try] block. *)
Theorem fetch_failure_gives_zero_stats
    (error : JSError) (subtitles : list AnkiStats.Subtitle) :
  AnkiStats.calculateComprehensionStats (Throw error) subtitles
  = Normal AnkiStats.zeroStats
  /\ AnkiStats.calculateComprehensionStats (Normal None) subtitles
     = Normal AnkiStats.zeroStats.
Proof.
  unfold AnkiStats.calculateComprehensionStats.
  split.
  - cbn [bind]. cbn [tryCatch]. reflexivity.
  - cbn [bind]. cbn [tryCatch]. reflexivity.
Qed.

(** The aggregator never throws. *)
Lemma calculateComprehensionStats_total
    (reply : Completion (option AnkiStats.WordsData))
    (subtitles : list AnkiStats.Subtitle) :
  exists stats,
    AnkiStats.calculateComprehensionStats reply subtitles = Normal stats.
Proof.
  destruct reply as [[wordsData|]|error]; eexists; reflexivity.
Qed.

(** ** Sets in insertion order *)

Section InsertionOrder.

Lemma Set_add_In (s : StrSet) (x y : jsstring) :
  In y (Set_add s x) <-> In y s \/ y = x.
Proof.
  unfold Set_add. destruct (Set_has s x) eqn:E.
  - apply Set_has_In in E. split; [auto|]. intros [H | ->]; assumption.
  - rewrite in_app_iff. simpl. split.
    + intros [H | [<- | []]]; auto.
    + intros [H | ->]; auto.
Qed.

Lemma Set_add_NoDup (s : StrSet) (x : jsstring) :
  NoDup s -> NoDup (Set_add s x).
Proof.
  intros Hs. unfold Set_add. destruct (Set_has s x) eqn:E; [assumption|].
  assert (Hx : ~ In x s).
  { intros Hin. apply Set_has_In in Hin. congruence. }
  clear E. induction Hs as [|a s Ha Hs IH]; simpl.
  - constructor; [intros [] | constructor].
  - constructor.
    + rewrite in_app_iff. simpl. intros [H | [H | []]]; [auto|].
      subst. apply Hx. now left.
    + apply IH. intros H. apply Hx. now right.
Qed.

Lemma fold_Set_add_In (l : list jsstring) (s : StrSet) (y : jsstring) :
  In y (fold_left Set_add l s) <-> In y s \/ In y l.
Proof.
  revert s. induction l as [|x l IH]; intros s; simpl.
  - tauto.
  - rewrite IH, Set_add_In. intuition (subst; auto).
Qed.

Lemma fold_Set_add_NoDup (l : list jsstring) (s : StrSet) :
  NoDup s -> NoDup (fold_left Set_add l s).
Proof.
  revert s. induction l as [|x l IH]; intros s Hs; simpl; [assumption|].
  apply IH. now apply Set_add_NoDup.
Qed.

(** Adding the elements of a list to the empty set, one after the other,
    leaves the distinct elements of the list. *)
Lemma fold_Set_add_nodup (l : list jsstring) :
  Permutation (fold_left Set_add l []) (nodup jsstring_eq_dec l).
Proof.
  apply NoDup_Permutation.
  - apply fold_Set_add_NoDup. constructor.
  - apply NoDup_nodup.
  - intros y. rewrite fold_Set_add_In, nodup_In. simpl. tauto.
Qed.

Lemma filter_length_perm {A} (p : A -> bool) (a b : list A) :
  Permutation a b -> length (filter p a) = length (filter p b).
Proof.
  induction 1 as [|x a b _ IH|x y a|a b c _ IH1 _ IH2]; simpl.
  - reflexivity.
  - destruct (p x); simpl; congruence.
  - destruct (p x), (p y); reflexivity.
  - congruence.
Qed.

End InsertionOrder.

(** ** Counting labels *)

Section Counting.
Import HebrewText SpecWords.

Variables matureWords learningWords : list jsstring.

Local Abbreviation count tag := (countTagged tag matureWords learningWords).
Local Abbreviation typeOf w := (getWordKnownType w matureWords learningWords).
Local Abbreviation tallyInv := (LoopInvariants.tallyInv matureWords learningWords).
Local Abbreviation countsInv := (LoopInvariants.countsInv matureWords learningWords).

Lemma countTagged_perm (tag : WordTag) (a b : list jsstring) :
  Permutation a b -> count tag a = count tag b.
Proof. apply filter_length_perm. Qed.

Lemma countTagged_snoc (tag : WordTag) (s : list jsstring) (x : jsstring) :
  count tag (s ++ [x]) = count tag s + (if tag_eqb (typeOf x) tag then 1 else 0).
Proof.
  unfold countTagged. rewrite filter_app, length_app. simpl.
  destruct (tag_eqb (typeOf x) tag); reflexivity.
Qed.

(** The loop of [highlightSentences] keeps its invariant and collects
    the words it sees in order. *)

Lemma tallyWord_step (t : SentenceHighlighter.Tally) (word : jsstring) :
  tallyInv t ->
  let t' := SentenceHighlighter.tallyWord matureWords learningWords t word in
  tallyInv t'
  /\ SentenceHighlighter.uniqueWords t'
     = Set_add (SentenceHighlighter.uniqueWords t) (normalizeHebrew word).
Proof.
  intros [Hu Hp]. unfold SentenceHighlighter.tallyWord, LoopInvariants.tallyInv, Set_add.
  destruct (Set_has (SentenceHighlighter.uniqueWords t) (normalizeHebrew word));
    simpl; [now repeat split|].
  destruct (typeOf (normalizeHebrew word)) eqn:E; simpl;
    rewrite !countTagged_snoc, E; simpl; repeat split; lia.
Qed.

Lemma tallyWord_fold (words : list jsstring) (t : SentenceHighlighter.Tally) :
  tallyInv t ->
  let t' := fold_left (SentenceHighlighter.tallyWord matureWords learningWords)
              words t in
  tallyInv t'
  /\ SentenceHighlighter.uniqueWords t'
     = fold_left Set_add (map normalizeHebrew words)
         (SentenceHighlighter.uniqueWords t).
Proof.
  revert t. induction words as [|w words IH]; intros t Ht; simpl.
  - now split.
  - destruct (tallyWord_step t w Ht) as [Ht' Eu].
    destruct (IH _ Ht') as [Hfin Efin]. split; [exact Hfin|].
    now rewrite Efin, Eu.
Qed.

(** The same for [countWordTypes], which moreover skips a word whose
    normalized form is empty. *)

Lemma countWordType_step (st : StrSet * AnkiStats.WordTypeCounts)
    (word : jsstring) :
  countsInv st ->
  0 < length (normalizeHebrew word) ->
  let st' := AnkiStats.countWordType matureWords learningWords st word in
  countsInv st' /\ fst st' = Set_add (fst st) (normalizeHebrew word).
Proof.
  destruct st as [s c]. intros [Hu Hp] Hlen. simpl in Hu, Hp.
  apply Nat.ltb_lt in Hlen.
  unfold AnkiStats.countWordType, LoopInvariants.countsInv, Set_add.
  rewrite Hlen.
  cbn [fst snd andb].
  destruct (Set_has s (normalizeHebrew word)); simpl; [now repeat split|].
  destruct (typeOf (normalizeHebrew word)) eqn:E; simpl;
    rewrite !countTagged_snoc, E; simpl; repeat split; lia.
Qed.

Lemma countWordType_fold (words : list jsstring)
    (st : StrSet * AnkiStats.WordTypeCounts) :
  countsInv st ->
  Forall (fun w => 0 < length (normalizeHebrew w)) words ->
  let st' := fold_left (AnkiStats.countWordType matureWords learningWords)
               words st in
  countsInv st'
  /\ fst st' = fold_left Set_add (map normalizeHebrew words) (fst st).
Proof.
  revert st. induction words as [|w words IH]; intros st Hst Hall; simpl.
  - now split.
  - inversion Hall as [|? ? Hw Hrest]; subst.
    destruct (countWordType_step st w Hst Hw) as [Hst' Eu].
    destruct (IH _ Hst' Hrest) as [Hfin Efin]. split; [exact Hfin|].
    now rewrite Efin, Eu.
Qed.

(** The words [extractHebrewWords(text, 2, false)] returns keep at least
    two code units once normalized. *)
Lemma extracted_words_long (text : jsstring) :
  Forall (fun w => 0 < length (normalizeHebrew w))
    (extractHebrewWords text 2 false).
Proof.
  apply Forall_forall. intros w Hw. unfold extractHebrewWords in Hw.
  destruct text as [|c text]; [destruct Hw|].
  apply filter_In in Hw. destruct Hw as [_ Hlen].
  apply Nat.leb_le in Hlen. lia.
Qed.

(** [countWordTypes] on the words of a text unit returns the counts of
    the specification. *)
Lemma countWordTypes_spec (text : jsstring) :
  let tokens := extractHebrewWords text 2 false in
  let counts := AnkiStats.countWordTypes tokens matureWords learningWords in
  AnkiStats.unknownCount counts = unknownCountOf matureWords learningWords tokens
  /\ AnkiStats.potentiallyKnownCount counts
     = potentiallyKnownCountOf matureWords learningWords tokens.
Proof.
  intros tokens counts. unfold counts, AnkiStats.countWordTypes.
  destruct (countWordType_fold tokens
              ([], {| AnkiStats.unknownCount := 0;
                      AnkiStats.potentiallyKnownCount := 0 |}))
    as [[Hu Hp] Efst].
  - split; reflexivity.
  - apply extracted_words_long.
  - simpl in Efst. rewrite Hu, Hp, Efst.
    unfold unknownCountOf, potentiallyKnownCountOf, uniqueNormalized.
    split; apply countTagged_perm, fold_Set_add_nodup.
Qed.

(** And so does the loop of [highlightSentences]. *)
Lemma tally_spec (tokens : list jsstring) :
  let t := fold_left (SentenceHighlighter.tallyWord matureWords learningWords)
             tokens SentenceHighlighter.emptyTally in
  SentenceHighlighter.unknownSoFar t
  = unknownCountOf matureWords learningWords tokens
  /\ SentenceHighlighter.potentiallyKnownSoFar t
     = potentiallyKnownCountOf matureWords learningWords tokens.
Proof.
  intros t. unfold t.
  destruct (tallyWord_fold tokens SentenceHighlighter.emptyTally)
    as [[Hu Hp] Efst].
  - split; reflexivity.
  - simpl in Efst. rewrite Hu, Hp, Efst.
    unfold unknownCountOf, potentiallyKnownCountOf, uniqueNormalized.
    split; apply countTagged_perm, fold_Set_add_nodup.
Qed.

End Counting.

(** ** Trimming does not touch the Hebrew words *)

Section Trimming.
Import HebrewText.

Lemma whiteSpace_not_Hebrew (c : codeUnit) :
  isWhiteSpace c = true -> isHebrew c = false.
Proof.
  intros Hw. destruct (isHebrew c) eqn:Hh; [exfalso | reflexivity].
  unfold isHebrew in Hh. apply andb_true_iff in Hh. destruct Hh as [Hlo Hhi].
  apply N.leb_le in Hlo, Hhi.
  unfold isWhiteSpace in Hw. apply orb_true_iff in Hw.
  destruct Hw as [Hw | Hw].
  - apply existsb_exists in Hw. destruct Hw as (k & Hk & E).
    apply N.eqb_eq in E. subst k. simpl in Hk.
    repeat (destruct Hk as [Hk | Hk]; [subst c; lia|]). destruct Hk.
  - apply andb_true_iff in Hw. destruct Hw as [Hw _].
    apply N.leb_le in Hw. lia.
Qed.

Lemma scanHebrew_no_Hebrew (run : jsstring) (t : jsstring) :
  Forall (fun c => isHebrew c = false) t -> scanHebrew run t = closeRun run.
Proof.
  intros H. revert run.
  induction H as [|c t Hc _ IH]; intros run; simpl; [reflexivity|].
  rewrite Hc, (IH []). apply app_nil_r.
Qed.

Lemma scanHebrew_app_no_Hebrew (s t : jsstring) :
  Forall (fun c => isHebrew c = false) t ->
  forall run, scanHebrew run (s ++ t) = scanHebrew run s.
Proof.
  intros Ht. induction s as [|c s IH]; intros run; simpl.
  - now apply scanHebrew_no_Hebrew.
  - destruct (isHebrew c); now rewrite IH.
Qed.

Lemma scanHebrew_trimStart (s : jsstring) :
  scanHebrew [] (trimStart s) = scanHebrew [] s.
Proof.
  induction s as [|c s IH]; [reflexivity|]. simpl.
  destruct (isWhiteSpace c) eqn:Hw; [|reflexivity].
  now rewrite (whiteSpace_not_Hebrew c Hw).
Qed.

(** [trimStart] removes a prefix made of white space. *)
Lemma trimStart_prefix (s : jsstring) :
  exists w, s = w ++ trimStart s /\ Forall (fun c => isWhiteSpace c = true) w.
Proof.
  induction s as [|c s (w & E & Hw)].
  - exists []. split; [reflexivity | constructor].
  - simpl. destruct (isWhiteSpace c) eqn:Hc.
    + exists (c :: w). split; [simpl; congruence | now constructor].
    + exists []. split; [reflexivity | constructor].
Qed.

Lemma scanHebrew_trim (s : jsstring) :
  scanHebrew [] (trim s) = scanHebrew [] s.
Proof.
  unfold trim. rewrite <- (scanHebrew_trimStart s).
  destruct (trimStart_prefix (rev (trimStart s))) as (w & E & Hw).
  apply (f_equal (@rev codeUnit)) in E.
  rewrite rev_involutive, rev_app_distr in E.
  rewrite E at 2. symmetry. apply scanHebrew_app_no_Hebrew.
  apply Forall_rev. revert Hw. apply Forall_impl.
  exact whiteSpace_not_Hebrew.
Qed.

(** The two ways the code extracts the words of a sentence agree. *)
Lemma extractHebrewWords_sentenceWords (s : jsstring) :
  extractHebrewWords s 2 false = AnkiStats.sentenceWords s.
Proof. destruct s; reflexivity. Qed.

(** The words [highlightSentences] extracts from the trimmed sentence
    are those of the sentence as matched. *)
Lemma sentenceWords_trim (s : jsstring) :
  AnkiStats.sentenceWords (trim s) = AnkiStats.sentenceWords s.
Proof.
  unfold AnkiStats.sentenceWords, matchHebrew. now rewrite scanHebrew_trim.
Qed.

(** A sentence with a word in it is not empty once trimmed. *)
Lemma sentenceWords_nonempty (s : jsstring) :
  AnkiStats.sentenceWords s <> [] -> s <> [].
Proof. intros H ->. now apply H. Qed.

End Trimming.

(** ** Sentence classification *)

(** C6. A text unit with fewer than three Hebrew words of normalized
    length above one is neither i+1 nor potentially-i+1, whatever its
    words and the vocabulary are: both [checkIf...] functions answer
    [false], [highlightSentences] records no sentence for it, and the
    aggregator leaves both sentence counters as they were. *)
Theorem short_units_never_classified
    (sentenceText : jsstring) (matureWords learningWords : list jsstring)
    (position : nat) (sc : AnkiStats.Scan) :
  length (AnkiStats.sentenceWords sentenceText) < 3 ->
  AnkiStats.checkIfI1Sentence sentenceText matureWords learningWords = false
  /\ AnkiStats.checkIfPotentiallyI1Sentence sentenceText matureWords learningWords
     = false
  /\ SentenceHighlighter.sentenceOf matureWords learningWords
       {| SentenceHighlighter.index := position;
          SentenceHighlighter.matched := sentenceText |} = None
  /\ (let sc' := AnkiStats.scanSubtitle matureWords learningWords sc
                   {| AnkiStats.text := sentenceText |} in
      AnkiStats.i1SentenceCount sc' = AnkiStats.i1SentenceCount sc
      /\ AnkiStats.potentiallyI1SentenceCount sc'
         = AnkiStats.potentiallyI1SentenceCount sc).
Proof.
  intros Hshort. pose proof Hshort as Hltb. apply Nat.ltb_lt in Hltb.
  split; [|split; [|split]].
  - unfold AnkiStats.checkIfI1Sentence. rewrite Hltb. now destruct sentenceText.
  - unfold AnkiStats.checkIfPotentiallyI1Sentence. rewrite Hltb.
    now destruct sentenceText.
  - unfold SentenceHighlighter.sentenceOf. cbn [SentenceHighlighter.matched].
    rewrite extractHebrewWords_sentenceWords, sentenceWords_trim.
    unfold Constants.MIN_SENTENCE_WORDS. rewrite Hltb.
    destruct (length (trim sentenceText) =? 0); [reflexivity|].
    now destruct (length (AnkiStats.sentenceWords sentenceText) =? 0).
  - unfold AnkiStats.scanSubtitle. cbn [AnkiStats.text].
    rewrite extractHebrewWords_sentenceWords.
    assert (E : (3 <=? length (AnkiStats.sentenceWords sentenceText)) = false)
      by (apply Nat.leb_gt; exact Hshort).
    rewrite E. split; reflexivity.
Qed.

(** "shalom olam" against an empty vocabulary: two words, both unknown. *)
Lemma short_units_never_classified_witness :
  length (AnkiStats.sentenceWords Samples.twoWords) < 3
  /\ AnkiStats.checkIfI1Sentence Samples.twoWords [] [] = false
  /\ AnkiStats.checkIfPotentiallyI1Sentence Samples.twoWords [] [] = false.
Proof.
  assert (Hshort : length (AnkiStats.sentenceWords Samples.twoWords) < 3)
    by (simpl; lia).
  destruct (short_units_never_classified Samples.twoWords [] [] 0
              {| AnkiStats.uniqueWords := []; AnkiStats.i1SentenceCount := 0;
                 AnkiStats.potentiallyI1SentenceCount := 0 |} Hshort)
    as (Hi1 & Hpi1 & _).
  exact (conj Hshort (conj Hi1 Hpi1)).
Defined.

(** The sentence rule on the two paths that implement it.  For a
    sentence with at least three extracted Hebrew words, let [u] and [p]
    be the numbers of [unknown] and of [potentially-known] words among
    its unique normalized words.  [highlightSentences] records the
    sentence with these two counts, [isI1Sentence] holds of it exactly
    when [u = 1] and [p = 0], and [isPotentiallyI1Sentence] exactly when
    [p = 1] and [u] is 0 or 1; the aggregator adds one to its i+1
    counter, respectively to its potentially-i+1 counter, under exactly
    the same conditions.  The third path, [checkIfI1Sentence] of the
    subtitle overlay and browser, is treated below. *)
Theorem sentence_classification_rule
    (sentenceText : jsstring) (matureWords learningWords : list jsstring)
    (position : nat) (sc : AnkiStats.Scan) :
  let tokens := HebrewText.extractHebrewWords sentenceText 2 false in
  let u := SpecWords.unknownCountOf matureWords learningWords tokens in
  let p := SpecWords.potentiallyKnownCountOf matureWords learningWords tokens in
  3 <= length tokens ->
  (exists sentence,
     SentenceHighlighter.sentenceOf matureWords learningWords
       {| SentenceHighlighter.index := position;
          SentenceHighlighter.matched := sentenceText |} = Some sentence
     /\ SentenceHighlighter.unknownCount sentence = u
     /\ SentenceHighlighter.potentiallyKnownCount sentence = p
     /\ (SentenceHighlighter.isI1Sentence sentence = true <-> u = 1 /\ p = 0)
     /\ (SentenceHighlighter.isPotentiallyI1Sentence sentence = true
         <-> p = 1 /\ (u = 0 \/ u = 1)))
  /\ (let sc' := AnkiStats.scanSubtitle matureWords learningWords sc
                   {| AnkiStats.text := sentenceText |} in
      (AnkiStats.i1SentenceCount sc' = S (AnkiStats.i1SentenceCount sc)
       <-> u = 1 /\ p = 0)
      /\ (AnkiStats.potentiallyI1SentenceCount sc'
          = S (AnkiStats.potentiallyI1SentenceCount sc)
          <-> p = 1 /\ (u = 0 \/ u = 1))).
Proof.
  intros tokens u p Hlong. split.
  - unfold SentenceHighlighter.sentenceOf. cbn [SentenceHighlighter.matched].
    rewrite extractHebrewWords_sentenceWords, sentenceWords_trim,
            <- extractHebrewWords_sentenceWords.
    fold tokens.
    assert (Htrim : (length (trim sentenceText) =? 0) = false).
    { apply Nat.eqb_neq. intros E. apply length_zero_iff_nil in E.
      assert (Ew : tokens = []).
      { unfold tokens.
        rewrite extractHebrewWords_sentenceWords, <- sentenceWords_trim, E.
        reflexivity. }
      rewrite Ew in Hlong. simpl in Hlong. lia. }
    assert (Hzero : (length tokens =? 0) = false) by (apply Nat.eqb_neq; lia).
    assert (Hmin : (length tokens <? Constants.MIN_SENTENCE_WORDS) = false)
      by (apply Nat.ltb_ge; exact Hlong).
    rewrite Htrim, Hzero, Hmin.
    destruct (tally_spec matureWords learningWords tokens) as [Eu Ep].
    eexists. split; [reflexivity|].
    unfold SentenceHighlighter.isI1Sentence,
           SentenceHighlighter.isPotentiallyI1Sentence.
    cbn [SentenceHighlighter.unknownCount
         SentenceHighlighter.potentiallyKnownCount].
    rewrite Eu, Ep. fold u p.
    split; [reflexivity|]. split; [reflexivity|].
    rewrite !andb_true_iff, orb_true_iff, !Nat.eqb_eq. tauto.
  - unfold AnkiStats.scanSubtitle. cbn [AnkiStats.text]. fold tokens.
    assert (Hmin : (3 <=? length tokens) = true)
      by (apply Nat.leb_le; exact Hlong).
    rewrite Hmin.
    destruct (countWordTypes_spec matureWords learningWords sentenceText)
      as [Eu Ep].
    fold tokens in Eu, Ep. rewrite Eu, Ep. fold u p.
    destruct (Nat.eqb_spec u 1) as [Hu1 | Hu1];
      destruct (Nat.eqb_spec p 0) as [Hp0 | Hp0];
      destruct (Nat.eqb_spec p 1) as [Hp1 | Hp1];
      destruct (Nat.eqb_spec u 0) as [Hu0 | Hu0];
      cbn [andb orb AnkiStats.i1SentenceCount
           AnkiStats.potentiallyI1SentenceCount];
      split; split; intros H; try lia; try (split; [lia | lia]).
Qed.

(** "shalom olam yafe meod" with the first three words mature has one
    unknown word and is an i+1 sentence. *)
Lemma sentence_classification_rule_witness :
  3 <= length (HebrewText.extractHebrewWords Samples.fourWords 2 false)
  /\ exists sentence,
       SentenceHighlighter.sentenceOf
         [Samples.shalom; Samples.olam; Samples.yafe] []
         {| SentenceHighlighter.index := 0;
            SentenceHighlighter.matched := Samples.fourWords |} = Some sentence
       /\ SentenceHighlighter.isI1Sentence sentence = true
       /\ SentenceHighlighter.isPotentiallyI1Sentence sentence = false.
Proof.
  assert (Hlong :
    3 <= length (HebrewText.extractHebrewWords Samples.fourWords 2 false))
    by (vm_compute; lia).
  split; [exact Hlong|].
  destruct (sentence_classification_rule Samples.fourWords
              [Samples.shalom; Samples.olam; Samples.yafe] [] 0
              {| AnkiStats.uniqueWords := []; AnkiStats.i1SentenceCount := 0;
                 AnkiStats.potentiallyI1SentenceCount := 0 |} Hlong)
    as [(sentence & Es & _ & _ & Hi1 & Hpi1) _].
  exists sentence. split; [exact Es|]. split.
  - apply Hi1. split; reflexivity.
  - destruct (SentenceHighlighter.isPotentiallyI1Sentence sentence);
      [|reflexivity].
    destruct (proj1 Hpi1 eq_refl) as [Hp _]. vm_compute in Hp. discriminate Hp.
Defined.

(** The sentences [highlightSentences] filters with the two predicates
    are those its loop body records. *)
Lemma sentencesOf_In (isNetflix : bool) (matureWords learningWords : list jsstring)
    (textContent : jsstring) (sentence : SentenceHighlighter.Sentence) :
  In sentence
    (SentenceHighlighter.sentencesOf isNetflix matureWords learningWords
       textContent)
  <-> exists m,
        In m (SentenceHighlighter.execAll isNetflix SentenceHighlighter.Idle 0
                textContent)
        /\ SentenceHighlighter.sentenceOf matureWords learningWords m
           = Some sentence.
Proof.
  unfold SentenceHighlighter.sentencesOf. rewrite in_flat_map.
  split; intros (m & Hm & H); exists m; (split; [exact Hm|]).
  - destruct (SentenceHighlighter.sentenceOf matureWords learningWords m);
      simpl in H; [|destruct H].
    destruct H as [-> | []]. reflexivity.
  - rewrite H. now left.
Qed.

(** [checkIfI1Sentence], which the subtitle browsers call, counts with
    [countUnknownWords]: every word that is not [known], the
    [potentially-known] ones included.  On "shalom olam babayit" with the
    three roots mature, where no word is unknown and one is potentially
    known, it answers [true], and so does
    [checkIfPotentiallyI1Sentence]. *)
Lemma checkIfI1Sentence_counts_potentially_known :
  let vocabulary := [Samples.shalom; Samples.olam; Samples.bayit] in
  let tokens := AnkiStats.sentenceWords Samples.prefixedSentence in
  SpecWords.unknownCountOf vocabulary [] tokens = 0
  /\ SpecWords.potentiallyKnownCountOf vocabulary [] tokens = 1
  /\ AnkiStats.checkIfI1Sentence Samples.prefixedSentence vocabulary [] = true
  /\ AnkiStats.checkIfPotentiallyI1Sentence Samples.prefixedSentence
       vocabulary [] = true.
Proof. repeat split; reflexivity. Qed.

(** C1, where the code departs from it.  "shalom olam babayit" against
    the mature words "shalom", "olam" and "bayit" has three words, none
    of them unknown and one potentially known: by the rule it is a
    potentially-i+1 sentence and not an i+1 sentence.  The sentence
    highlighter and the aggregator treat it so.  [checkIfI1Sentence],
    which the subtitle overlay and the subtitle browser ask first,
    counts every word that is not known, answers [true], and the row is
    marked as an i+1 sentence. *)
Theorem checkIfI1Sentence_departs_from_the_rule :
  let vocabulary := [Samples.shalom; Samples.olam; Samples.bayit] in
  let tokens :=
    HebrewText.extractHebrewWords Samples.prefixedSentence 2 false in
  (length tokens = 3
   /\ SpecWords.unknownCountOf vocabulary [] tokens = 0
   /\ SpecWords.potentiallyKnownCountOf vocabulary [] tokens = 1)
  /\ (AnkiStats.checkIfI1Sentence Samples.prefixedSentence vocabulary []
      = true
      /\ SubtitleBrowser.rowClass true Samples.prefixedSentence vocabulary []
         = SubtitleBrowser.I1Row)
  /\ (exists sentence,
        SentenceHighlighter.sentenceOf vocabulary []
          {| SentenceHighlighter.index := 0;
             SentenceHighlighter.matched := Samples.prefixedSentence |}
        = Some sentence
        /\ SentenceHighlighter.isI1Sentence sentence = false
        /\ SentenceHighlighter.isPotentiallyI1Sentence sentence = true)
  /\ AnkiStats.calculateComprehensionStats
       (Normal (Some {| AnkiStats.matureWords := Some vocabulary;
                        AnkiStats.learningWords := None |}))
       [{| AnkiStats.text := Samples.prefixedSentence |}]
     = Normal {| AnkiStats.total := 3; AnkiStats.known_ := 2;
                 AnkiStats.potentiallyKnown := 1;
                 AnkiStats.percentage := 67%float;
                 AnkiStats.i1Sentences := 0;
                 AnkiStats.potentiallyI1Sentences := 1 |}.
Proof.
  cbv zeta. split; [|split; [|split]].
  - repeat split; reflexivity.
  - split; reflexivity.
  - eexists. split; [reflexivity|]. split; reflexivity.
  - reflexivity.
Qed.

(** ** The aggregator *)

Section Aggregator.
Import HebrewText SpecWords.

Variables matureWords learningWords : list jsstring.

Lemma collectWord_fold (tokens : list jsstring) (s : StrSet) :
  Forall (fun w => 0 < length (normalizeHebrew w)) tokens ->
  fold_left AnkiStats.collectWord tokens s
  = fold_left Set_add (map normalizeHebrew tokens) s.
Proof.
  intros Hall. revert s.
  induction Hall as [|w tokens Hw _ IH]; intros s; simpl; [reflexivity|].
  rewrite <- IH. f_equal. unfold AnkiStats.collectWord.
  apply Nat.ltb_lt in Hw. now rewrite Hw.
Qed.

Lemma scanSubtitle_uniqueWords (sc : AnkiStats.Scan) (sub : AnkiStats.Subtitle) :
  AnkiStats.uniqueWords
    (AnkiStats.scanSubtitle matureWords learningWords sc sub)
  = fold_left Set_add
      (map normalizeHebrew (extractHebrewWords (AnkiStats.text sub) 2 false))
      (AnkiStats.uniqueWords sc).
Proof.
  rewrite <- collectWord_fold by apply extracted_words_long.
  unfold AnkiStats.scanSubtitle.
  repeat match goal with |- context [if ?b then _ else _] => destruct b end;
    reflexivity.
Qed.

(** All the words of the subtitles, in order. *)
Lemma scan_uniqueWords (subtitles : list AnkiStats.Subtitle) (sc : AnkiStats.Scan) :
  AnkiStats.uniqueWords
    (fold_left (AnkiStats.scanSubtitle matureWords learningWords) subtitles sc)
  = fold_left Set_add
      (map normalizeHebrew
         (flat_map (fun sub => extractHebrewWords (AnkiStats.text sub) 2 false)
            subtitles))
      (AnkiStats.uniqueWords sc).
Proof.
  revert sc. induction subtitles as [|sub subtitles IH]; intros sc; simpl.
  - reflexivity.
  - now rewrite IH, scanSubtitle_uniqueWords, map_app, fold_left_app.
Qed.

Lemma countTagged_cons (tag : WordTag) (w : jsstring) (words : list jsstring) :
  countTagged tag matureWords learningWords (w :: words)
  = (if tag_eqb (getWordKnownType w matureWords learningWords) tag
     then 1 else 0)
    + countTagged tag matureWords learningWords words.
Proof.
  unfold countTagged. cbn [filter].
  destruct (tag_eqb (getWordKnownType w matureWords learningWords) tag);
    reflexivity.
Qed.

Lemma countKnown_step (k p : nat) (w : jsstring) :
  AnkiStats.countKnown matureWords learningWords (k, p) w
  = (k + (if tag_eqb (getWordKnownType w matureWords learningWords) known
          then 1 else 0),
     p + (if tag_eqb (getWordKnownType w matureWords learningWords)
               potentially_known
          then 1 else 0)).
Proof.
  unfold AnkiStats.countKnown.
  destruct (getWordKnownType w matureWords learningWords);
    cbn [tag_eqb]; f_equal; lia.
Qed.

Lemma countKnown_fold (words : list jsstring) (k p : nat) :
  fold_left (AnkiStats.countKnown matureWords learningWords) words (k, p)
  = (k + countTagged known matureWords learningWords words,
     p + countTagged potentially_known matureWords learningWords words).
Proof.
  revert k p. induction words as [|w words IH]; intros k p.
  - cbn [fold_left]. unfold countTagged. cbn [filter length]. f_equal; lia.
  - cbn [fold_left]. rewrite countKnown_step, IH, !countTagged_cons.
    f_equal; lia.
Qed.


End Aggregator.







(** The quotient and the product are those of IEEE doubles: 29 known
    words of 200 give [0.145 * 100 = 14.499999999999998], which rounds to
    14; one of eight gives 12.5, which rounds up to 13; and without the
    guard, none of none would give [NaN]. *)
Example percentage_samples :
  AnkiStats.percentageOf 29 200 = 14%float
  /\ AnkiStats.percentageOf 1 8 = 13%float
  /\ AnkiStats.percentageOf 2 3 = 67%float
  /\ AnkiStats.percentageOf 0 0 = 0%float
  /\ Math_round
       (PrimFloat.mul (PrimFloat.div (Number_ofnat 0) (Number_ofnat 0)) 100%float)
     = PrimFloat.nan.
Proof. repeat split; reflexivity. Qed.

(** The spec's scenario: "shalom olam yafe meod" with two mature words
    has four unique words, two of them known: 50 percent, and no i+1
    sentence since two words are unknown. *)
Example aggregate_four_words :
  AnkiStats.calculateComprehensionStats
    (Normal (Some {| AnkiStats.matureWords := Some [Samples.shalom; Samples.olam];
                     AnkiStats.learningWords := None |}))
    [{| AnkiStats.text := Samples.fourWords |}]
  = Normal {| AnkiStats.total := 4; AnkiStats.known_ := 2;
              AnkiStats.potentiallyKnown := 0; AnkiStats.percentage := 50%float;
              AnkiStats.i1Sentences := 0;
              AnkiStats.potentiallyI1Sentences := 0 |}.
Proof. reflexivity. Qed.

(** * Further properties of the code *)

(** ** The text normalizer, beyond idempotence *)

Lemma normalizeHebrew_app (a b : jsstring) :
  HebrewText.normalizeHebrew (a ++ b)
  = HebrewText.normalizeHebrew a ++ HebrewText.normalizeHebrew b.
Proof. rewrite !normalizeHebrew_filter. apply filter_app. Qed.

Lemma filter_fixed_iff {A} (p : A -> bool) (l : list A) :
  filter p l = l <-> Forall (fun a => p a = true) l.
Proof.
  induction l as [|a l IH].
  - split; [constructor | reflexivity].
  - split.
    + intros E. pose proof (filter_fixed_tail p a l E) as Et.
      constructor; [|now apply IH].
      simpl in E. destruct (p a) eqn:Ea; [reflexivity|].
      pose proof (filter_length_le p l) as Hle. rewrite E in Hle.
      simpl in Hle. lia.
    + intros H. inversion H as [|? ? Ha Hl]; subst. simpl. rewrite Ha.
      f_equal. now apply IH.
Qed.

(** X1. [normalizeHebrew] removes the diacritics and nothing else: its
    result holds no code unit of U+0591..U+05C7, is a sub-sequence no
    longer than the word, keeps every other code unit in place, and is
    the word itself exactly when the word had no diacritic (so text that
    is not Hebrew passes through). *)
Theorem normalizeHebrew_removes_exactly_nikud (word : jsstring) :
  Forall (fun c => HebrewText.isNikud c = false) (HebrewText.normalizeHebrew word)
  /\ length (HebrewText.normalizeHebrew word) <= length word
  /\ (forall c, HebrewText.isNikud c = false ->
        count_occ N.eq_dec (HebrewText.normalizeHebrew word) c
        = count_occ N.eq_dec word c)
  /\ (HebrewText.normalizeHebrew word = word
      <-> Forall (fun c => HebrewText.isNikud c = false) word).
Proof.
  rewrite normalizeHebrew_filter. split; [|split; [|split]].
  - apply Forall_forall. intros c Hc. apply filter_In in Hc.
    destruct Hc as [_ Hc]. now apply negb_true_iff in Hc.
  - apply filter_length_le.
  - intros c Hc. induction word as [|d word IH]; [reflexivity|]. simpl.
    destruct (HebrewText.isNikud d) eqn:Hd; simpl.
    + destruct (N.eq_dec d c) as [-> | _]; [congruence | exact IH].
    + destruct (N.eq_dec d c); now rewrite IH.
  - etransitivity; [apply filter_fixed_iff|].
    split; apply Forall_impl; intros c Hc; now apply negb_true_iff.
Qed.

(** ** The tokenizer *)

Section Tokenizer.
Import HebrewText Shapes.

Lemma closeRun_runs (run : jsstring) :
  Forall (fun c => isHebrew c = true) run -> Forall hebrewRun (closeRun run).
Proof.
  intros H. destruct run as [|c run]; simpl; [constructor|].
  constructor; [|constructor]. split; [discriminate | exact H].
Qed.

Lemma scanHebrew_runs (text run : jsstring) :
  Forall (fun c => isHebrew c = true) run ->
  Forall hebrewRun (scanHebrew run text).
Proof.
  revert run. induction text as [|c text IH]; intros run Hrun; simpl.
  - now apply closeRun_runs.
  - destruct (isHebrew c) eqn:Hc.
    + apply IH. apply Forall_app. split; [exact Hrun|]. now constructor.
    + apply Forall_app. split; [now apply closeRun_runs|].
      apply IH. constructor.
Qed.

Lemma concat_closeRun (run : jsstring) : concat (closeRun run) = run.
Proof. destruct run; simpl; [reflexivity|]. now rewrite app_nil_r. Qed.

Lemma scanHebrew_concat (text run : jsstring) :
  concat (scanHebrew run text) = run ++ filter isHebrew text.
Proof.
  revert run. induction text as [|c text IH]; intros run; simpl.
  - rewrite concat_closeRun. now rewrite app_nil_r.
  - destruct (isHebrew c) eqn:Hc.
    + rewrite IH, <- app_assoc. reflexivity.
    + rewrite concat_app, concat_closeRun, IH. reflexivity.
Qed.

Lemma scanHebrew_run_prefix (w rest run : jsstring) :
  Forall (fun c => isHebrew c = true) w ->
  scanHebrew run (w ++ rest) = scanHebrew (run ++ w) rest.
Proof.
  intros Hw. revert run.
  induction Hw as [|c w Hc _ IH]; intros run; simpl.
  - now rewrite app_nil_r.
  - rewrite Hc, IH, <- app_assoc. reflexivity.
Qed.

Lemma matchHebrew_scan (text : jsstring) :
  orEmpty (matchHebrew text) = scanHebrew [] text.
Proof. unfold matchHebrew. now destruct (scanHebrew [] text). Qed.

End Tokenizer.

(** X2. The matches of [HEBREW_WORD_REGEX] in a text are non-empty, hold
    Hebrew-block code units only, and put end to end they are the Hebrew
    code units of the text, in order: nothing Hebrew is lost and nothing
    else is picked up. *)
Theorem tokens_are_the_hebrew_of_the_text (text : jsstring) :
  let tokens := orEmpty (HebrewText.matchHebrew text) in
  Forall (fun w => w <> [] /\ Forall (fun c => HebrewText.isHebrew c = true) w)
    tokens
  /\ concat tokens = filter HebrewText.isHebrew text.
Proof.
  simpl. rewrite matchHebrew_scan. split.
  - apply scanHebrew_runs. constructor.
  - apply scanHebrew_concat.
Qed.

(** X3. A match is a maximal run: a Hebrew run followed by a code unit
    outside the Hebrew block is one match, and matching goes on after
    it; a code unit outside the block at the start is skipped. *)
Theorem tokenizer_splits_at_non_hebrew
    (w : jsstring) (c : codeUnit) (rest : jsstring) :
  w <> [] ->
  Forall (fun d => HebrewText.isHebrew d = true) w ->
  HebrewText.isHebrew c = false ->
  HebrewText.scanHebrew [] (w ++ c :: rest) = w :: HebrewText.scanHebrew [] rest
  /\ HebrewText.scanHebrew [] (c :: rest) = HebrewText.scanHebrew [] rest
  /\ HebrewText.scanHebrew [] w = [w].
Proof.
  intros Hne Hw Hc. split; [|split].
  - rewrite scanHebrew_run_prefix by exact Hw. simpl. rewrite Hc.
    destruct w; [congruence | reflexivity].
  - simpl. now rewrite Hc.
  - rewrite <- (app_nil_r w) at 1. rewrite scanHebrew_run_prefix by exact Hw.
    simpl. destruct w; [congruence | reflexivity].
Qed.

Lemma tokenizer_splits_at_non_hebrew_witness :
  HebrewText.scanHebrew [] (Samples.shalom ++ 0x20%N :: Samples.olam)
  = Samples.shalom :: HebrewText.scanHebrew [] Samples.olam.
Proof.
  refine (proj1 (tokenizer_splits_at_non_hebrew Samples.shalom 0x20%N
                   Samples.olam _ _ _)).
  - discriminate.
  - repeat constructor.
  - reflexivity.
Defined.

Lemma containsHebrew_scan (text : jsstring) :
  HebrewText.containsHebrew text
  = match HebrewText.scanHebrew [] text with
    | [] => false
    | _ => true
    end.
Proof.
  unfold HebrewText.containsHebrew.
  pose proof (scanHebrew_concat text []) as E. simpl in E.
  destruct (HebrewText.scanHebrew [] text) as [|w ws] eqn:Es.
  - simpl in E. destruct (existsb HebrewText.isHebrew text) eqn:Ex;
      [|reflexivity].
    apply existsb_exists in Ex. destruct Ex as (c & Hin & Hc).
    assert (Hf : In c (filter HebrewText.isHebrew text))
      by (apply filter_In; now split).
    rewrite <- E in Hf. destruct Hf.
  - pose proof (scanHebrew_runs text [] (Forall_nil _)) as Hr.
    rewrite Es in Hr. inversion Hr as [|? ? [Hne _] _]; subst.
    destruct w as [|c w]; [congruence|].
    apply existsb_exists. exists c.
    assert (Hf : In c (filter HebrewText.isHebrew text))
      by (rewrite <- E; simpl; now left).
    apply filter_In in Hf. exact Hf.
Qed.

(** X4. [containsHebrew] (and [isHebrewWord]) answers [true] exactly
    when [match] finds at least one word. *)
Theorem containsHebrew_iff_some_match (text : jsstring) :
  HebrewText.containsHebrew text
  = match HebrewText.matchHebrew text with
    | Some _ => true
    | None => false
    end
  /\ HebrewText.isHebrewWord text = HebrewText.containsHebrew text.
Proof.
  split; [|reflexivity].
  rewrite containsHebrew_scan. unfold HebrewText.matchHebrew.
  now destruct (HebrewText.scanHebrew [] text).
Qed.

(** X5. Every word [extractHebrewWords] returns, with or without
    bracket removal, is a non-empty run of Hebrew-block code units and
    has at least [minLength] code units left once normalized. *)
Theorem extractHebrewWords_words
    (text : jsstring) (minLength : nat) (ignoreBrackets : bool) :
  Forall
    (fun w =>
       Shapes.hebrewRun w
       /\ minLength <= length (HebrewText.normalizeHebrew w)
       /\ length (HebrewText.normalizeHebrew w) <= length w)
    (HebrewText.extractHebrewWords text minLength ignoreBrackets).
Proof.
  unfold HebrewText.extractHebrewWords.
  destruct text as [|c text]; [constructor|].
  set (cleaned := if ignoreBrackets then _ else _). clearbody cleaned.
  apply Forall_forall. intros w Hw. apply filter_In in Hw.
  destruct Hw as [Hin Hlen]. rewrite matchHebrew_scan in Hin.
  pose proof (scanHebrew_runs cleaned [] (Forall_nil _)) as Hruns.
  rewrite Forall_forall in Hruns. split; [now apply Hruns|]. split.
  - now apply Nat.leb_le.
  - rewrite normalizeHebrew_filter. apply filter_length_le.
Qed.

(** ** Bracket removal *)

Section Brackets.
Import HebrewText Shapes.

Variables opening closing : codeUnit.

Lemma removeBracketedFrom_unclosed (text h : jsstring) :
  ~ In closing text ->
  removeBracketedFrom opening closing (Some h) text = h ++ text.
Proof.
  revert h. induction text as [|c text IH]; intros h Hc; simpl.
  - now rewrite app_nil_r.
  - destruct (N.eqb_spec c closing) as [-> | _].
    + exfalso. apply Hc. now left.
    + rewrite IH, <- app_assoc; [reflexivity|].
      intros H. apply Hc. now right.
Qed.

Lemma removeBracketed_passes (a rest : jsstring) :
  ~ In opening a ->
  removeBracketed opening closing (a ++ rest)
  = a ++ removeBracketed opening closing rest.
Proof.
  unfold removeBracketed. induction a as [|c a IH]; intros Ha; simpl.
  - reflexivity.
  - destruct (N.eqb_spec c opening) as [-> | _].
    + exfalso. apply Ha. now left.
    + rewrite IH; [reflexivity|]. intros H. apply Ha. now right.
Qed.

Lemma removeBracketedFrom_closed (inner post h : jsstring) :
  ~ In closing inner ->
  removeBracketedFrom opening closing (Some h) (inner ++ closing :: post)
  = removeBracketed opening closing post.
Proof.
  revert h. induction inner as [|c inner IH]; intros h Hc; simpl.
  - now rewrite N.eqb_refl.
  - destruct (N.eqb_spec c closing) as [-> | _].
    + exfalso. apply Hc. now left.
    + apply IH. intros H. apply Hc. now right.
Qed.

Lemma bracketFree_fixed (s : jsstring) :
  bracketFree opening closing s -> removeBracketed opening closing s = s.
Proof.
  intros (a & h & -> & Ha & Hh).
  rewrite removeBracketed_passes by exact Ha. f_equal.
  destruct Hh as [-> | (h' & -> & Hc)]; [reflexivity|].
  unfold removeBracketed. simpl. rewrite N.eqb_refl.
  now apply removeBracketedFrom_unclosed.
Qed.

Lemma bracketFree_cons (c : codeUnit) (s : jsstring) :
  c <> opening -> bracketFree opening closing s ->
  bracketFree opening closing (c :: s).
Proof.
  intros Hc (a & h & -> & Ha & Hh). exists (c :: a), h.
  split; [reflexivity|]. split; [|exact Hh].
  intros [E | H]; [congruence | now apply Ha].
Qed.

Lemma removeBracketedFrom_bracketFree (text : jsstring) (held : option jsstring) :
  match held with
  | None => True
  | Some h => exists h', h = opening :: h' /\ ~ In closing h'
  end ->
  bracketFree opening closing (removeBracketedFrom opening closing held text).
Proof.
  revert held. induction text as [|c text IH]; intros held Hheld; simpl.
  - destruct held as [h|].
    + exists [], h. split; [reflexivity|]. split; [intros []|]. now right.
    + exists [], []. split; [reflexivity|]. split; [intros []|]. now left.
  - destruct held as [h|].
    + destruct Hheld as (h' & -> & Hc).
      destruct (N.eqb_spec c closing) as [-> | Hne].
      * now apply IH.
      * apply IH. exists (h' ++ [c]). split; [reflexivity|].
        rewrite in_app_iff. simpl. intros [H | [H | []]]; [auto | congruence].
    + destruct (N.eqb_spec c opening) as [-> | Hne].
      * apply IH. exists []. split; [reflexivity | intros []].
      * apply bracketFree_cons; [exact Hne|]. now apply IH.
Qed.

End Brackets.

(** X6. After [text.replace(/O[^C]*C/g, '')] nothing is left to remove:
    the result holds no [O] that a [C] follows, and replacing again
    changes nothing. *)
Theorem removeBracketed_idempotent (opening closing : codeUnit) (text : jsstring) :
  Shapes.bracketFree opening closing
    (HebrewText.removeBracketed opening closing text)
  /\ HebrewText.removeBracketed opening closing
       (HebrewText.removeBracketed opening closing text)
     = HebrewText.removeBracketed opening closing text.
Proof.
  assert (H : Shapes.bracketFree opening closing
                (HebrewText.removeBracketed opening closing text))
    by (apply removeBracketedFrom_bracketFree; exact I).
  split; [exact H | now apply bracketFree_fixed].
Qed.

(** X7. The first bracketed stretch goes, brackets included, and what
    precedes it stays: for [pre] without [O] and [inner] without [C],
    [pre O inner C post] becomes [pre] followed by the result for
    [post]; an [O] that no [C] follows is kept with all that follows. *)
Theorem removeBracketed_first_stretch
    (opening closing : codeUnit) (pre inner post : jsstring) :
  ~ In opening pre ->
  ~ In closing inner ->
  HebrewText.removeBracketed opening closing
    (pre ++ opening :: inner ++ closing :: post)
  = pre ++ HebrewText.removeBracketed opening closing post
  /\ HebrewText.removeBracketed opening closing (pre ++ opening :: inner)
     = pre ++ opening :: inner.
Proof.
  intros Hpre Hinner. split.
  - rewrite removeBracketed_passes by exact Hpre. f_equal.
    unfold HebrewText.removeBracketed at 1. simpl. rewrite N.eqb_refl.
    now apply removeBracketedFrom_closed.
  - apply bracketFree_fixed. exists pre, (opening :: inner).
    split; [reflexivity|]. split; [exact Hpre|]. right. now exists inner.
Qed.

(** "shalom [olam] yafe" without the bracketed word. *)
Lemma removeBracketed_first_stretch_witness :
  HebrewText.removeBracketed 0x5B%N 0x5D%N
    ((Samples.shalom ++ Samples.space)
     ++ 0x5B%N :: Samples.olam ++ 0x5D%N :: (Samples.space ++ Samples.yafe))
  = (Samples.shalom ++ Samples.space)
    ++ HebrewText.removeBracketed 0x5B%N 0x5D%N (Samples.space ++ Samples.yafe).
Proof.
  refine (proj1 (removeBracketed_first_stretch 0x5B%N 0x5D%N
                   (Samples.shalom ++ Samples.space) Samples.olam
                   (Samples.space ++ Samples.yafe) _ _)).
  - simpl. intros H.
    repeat (destruct H as [H | H]; [discriminate H|]). exact H.
  - simpl. intros H.
    repeat (destruct H as [H | H]; [discriminate H|]). exact H.
Defined.

(** X8. For a text that holds none of the three opening brackets
    ([[], full-width [(] and [(]) bracket removal is idle:
    [extractHebrewWords] returns the same words with [ignoreBrackets]
    on or off. *)
Theorem ignoreBrackets_idle_without_brackets
    (text : jsstring) (minLength : nat) :
  ~ In 0x5B%N text -> ~ In 0xFF08%N text -> ~ In 0x28%N text ->
  HebrewText.extractHebrewWords text minLength true
  = HebrewText.extractHebrewWords text minLength false.
Proof.
  intros Hsq Hfw Hrd. unfold HebrewText.extractHebrewWords.
  destruct text as [|c text]; [reflexivity|].
  assert (Hfree : forall o cl, ~ In o (c :: text) ->
            HebrewText.removeBracketed o cl (c :: text) = c :: text).
  { intros o cl Ho. apply bracketFree_fixed. exists (c :: text), [].
    split; [now rewrite app_nil_r|]. split; [exact Ho | now left]. }
  now rewrite (Hfree _ _ Hsq), (Hfree _ _ Hfw), (Hfree _ _ Hrd).
Qed.

Lemma ignoreBrackets_idle_without_brackets_witness :
  HebrewText.extractHebrewWords Samples.fourWords 2 true
  = HebrewText.extractHebrewWords Samples.fourWords 2 false.
Proof.
  apply (ignoreBrackets_idle_without_brackets Samples.fourWords 2);
    simpl; intros H;
    repeat (destruct H as [H | H]; [discriminate H|]); exact H.
Defined.

(** ** The word classifiers as functions of the vocabulary *)

Section ClassifierFacts.
Import HebrewText Shapes Tests.

Lemma stripped_test (c : codeUnit) (w : jsstring) :
  startsWith w c && (1 <? length w) = true
  <-> exists rest, stripped c w rest /\ substring1 w = rest.
Proof.
  unfold stripped. destruct w as [|d [|e w]]; simpl.
  - split; [discriminate | intros (rest & [E _] & _); discriminate E].
  - rewrite andb_false_r. split; [discriminate|].
    intros (rest & [E Hne] & _). injection E as _ <-. congruence.
  - rewrite andb_true_r, N.eqb_eq. split.
    + intros ->. exists (e :: w). repeat split. discriminate.
    + intros (rest & [E _] & _). now injection E.
Qed.

Lemma getWordKnownType_cases (w : jsstring) (m l : list jsstring) :
  getWordKnownType w m l
  = if knownForm w m l then known
    else if prefixMatch w m l then potentially_known else unknown.
Proof.
  unfold getWordKnownType, knownForm.
  destruct (includes m w || includes l w); [reflexivity|]. simpl.
  now destruct (startsWith w vav && (1 <? length w)).
Qed.

Lemma includes_incl (a b : list jsstring) (x : jsstring) :
  incl a b -> includes a x = true -> includes b x = true.
Proof. rewrite !includes_In. auto. Qed.

Lemma includes_ext (a b : list jsstring) (x : jsstring) :
  (forall y, In y a <-> In y b) -> includes a x = includes b x.
Proof.
  intros H. destruct (includes b x) eqn:E.
  - apply includes_In, H. now apply includes_In.
  - apply includes_not_In. rewrite H. now apply includes_not_In.
Qed.

Lemma includes_app (a b : list jsstring) (x : jsstring) :
  includes (a ++ b) x = includes a x || includes b x.
Proof. unfold includes. apply existsb_app. Qed.

Lemma knownForm_mono (w : jsstring) (m l m' l' : list jsstring) :
  incl m m' -> incl l l' ->
  knownForm w m l = true -> knownForm w m' l' = true.
Proof.
  intros Hm Hl. unfold knownForm.
  rewrite !orb_true_iff, !andb_true_iff, !orb_true_iff.
  intros [[H | H] | [Hs [H | H]]];
    eauto 6 using includes_incl.
Qed.

Lemma prefixMatch_mono (w : jsstring) (m l m' l' : list jsstring) :
  incl m m' -> incl l l' ->
  prefixMatch w m l = true -> prefixMatch w m' l' = true.
Proof.
  intros Hm Hl. unfold prefixMatch. rewrite !existsb_exists.
  intros (p & Hp & H). exists p. split; [exact Hp|].
  destruct (startsWith w p && (1 <? length w)); [|discriminate].
  apply orb_true_iff in H. apply orb_true_iff.
  destruct H as [H | H]; eauto using includes_incl.
Qed.

Lemma prefixMatch_iff (w : jsstring) (m l : list jsstring) :
  prefixMatch w m l = true
  <-> exists p rest, In p prefixes /\ stripped p w rest /\ In rest (m ++ l).
Proof.
  unfold prefixMatch. rewrite existsb_exists. split.
  - intros (p & Hp & H).
    destruct (startsWith w p && (1 <? length w)) eqn:Es; [|discriminate].
    apply stripped_test in Es. destruct Es as (rest & Hs & Erest).
    exists p, rest. repeat split; try assumption; try apply Hs.
    rewrite Erest, <- includes_app in H. now apply includes_In.
  - intros (p & rest & Hp & Hs & Hin). exists p. split; [exact Hp|].
    assert (Es : startsWith w p && (1 <? length w) = true).
    { apply stripped_test. exists rest. split; [exact Hs|].
      destruct Hs as [-> _]. reflexivity. }
    rewrite Es. destruct Hs as [-> _]. simpl.
    rewrite <- includes_app. now apply includes_In.
Qed.

Lemma knownForm_iff (w : jsstring) (m l : list jsstring) :
  knownForm w m l = true
  <-> In w (m ++ l) \/ exists rest, stripped vav w rest /\ In rest (m ++ l).
Proof.
  unfold knownForm. rewrite orb_true_iff, <- includes_app, includes_In.
  rewrite andb_true_iff, <- includes_app, includes_In. split.
  - intros [H | [Hs H]]; [now left | right].
    apply stripped_test in Hs. destruct Hs as (rest & Hs & Erest).
    exists rest. split; [exact Hs | now rewrite <- Erest].
  - intros [H | (rest & Hs & H)]; [now left | right].
    assert (Erest : substring1 w = rest) by (destruct Hs as [-> _]; reflexivity).
    split.
    + apply stripped_test. now exists rest.
    + now rewrite Erest.
Qed.

End ClassifierFacts.

(** X9. With an empty vocabulary every word is [unknown], for each of
    the three classifiers. *)
Theorem empty_vocabulary_all_unknown (word : jsstring) :
  HebrewText.getWordKnownType word [] [] = unknown
  /\ WordHighlighter.getWordType word [] [] = unknown
  /\ Coordinator.getWordType
       {| Coordinator.matureWords := []; Coordinator.learningWords := [] |}
       word = unknown.
Proof.
  assert (Hp : forall w, HebrewText.prefixMatch w [] [] = false).
  { intros w. unfold HebrewText.prefixMatch. simpl.
    repeat match goal with
           | |- context [if ?b then _ else _] => destruct b
           end; reflexivity. }
  assert (Hc : forall w,
    Coordinator.getWordType
      {| Coordinator.matureWords := []; Coordinator.learningWords := [] |} w
    = unknown).
  { intros w. unfold Coordinator.getWordType. simpl. rewrite Hp.
    now destruct (startsWith w HebrewText.vav && (1 <? length w)). }
  split; [|split].
  - rewrite getWordKnownType_collapse, Hc. reflexivity.
  - rewrite highlighter_is_coordinator. apply Hc.
  - apply Hc.
Qed.

(** X10. The classifiers use the arrays as sets: two vocabularies with
    the same members, in whatever order and with whatever repetitions,
    give every word the same label. *)
Theorem classification_depends_on_membership_only
    (word : jsstring) (m l m' l' : list jsstring) :
  (forall x, In x m <-> In x m') ->
  (forall x, In x l <-> In x l') ->
  HebrewText.getWordKnownType word m l = HebrewText.getWordKnownType word m' l'
  /\ WordHighlighter.getWordType word m l = WordHighlighter.getWordType word m' l'.
Proof.
  intros Hm Hl.
  assert (Hc : forall w,
    Coordinator.getWordType
      {| Coordinator.matureWords := m; Coordinator.learningWords := l |} w
    = Coordinator.getWordType
        {| Coordinator.matureWords := m'; Coordinator.learningWords := l' |} w).
  { intros w. unfold Coordinator.getWordType, HebrewText.prefixMatch.
    cbn [Coordinator.matureWords Coordinator.learningWords].
    now rewrite !(includes_ext m m' _ Hm), !(includes_ext l l' _ Hl). }
  split.
  - rewrite !getWordKnownType_collapse. now rewrite Hc.
  - rewrite !highlighter_is_coordinator. apply Hc.
Qed.

Lemma classification_depends_on_membership_only_witness :
  HebrewText.getWordKnownType (HebrewText.bet :: Samples.bayit)
    [Samples.bayit; Samples.sefer; Samples.bayit] []
  = HebrewText.getWordKnownType (HebrewText.bet :: Samples.bayit)
      [Samples.sefer; Samples.bayit] [].
Proof.
  refine (proj1 (classification_depends_on_membership_only
                   (HebrewText.bet :: Samples.bayit)
                   [Samples.bayit; Samples.sefer; Samples.bayit] []
                   [Samples.sefer; Samples.bayit] [] _ _)).
  - intros x. simpl. tauto.
  - intros x. tauto.
Defined.

(** X11. Learning more words never makes a word less known: when both
    arrays grow, the label of a word moves only upwards in the order
    unknown, potentially known, known. *)
Theorem larger_vocabulary_never_demotes
    (word : jsstring) (m l m' l' : list jsstring) :
  incl m m' -> incl l l' ->
  Shapes.confidence (HebrewText.getWordKnownType word m l)
  <= Shapes.confidence (HebrewText.getWordKnownType word m' l')
  /\ Shapes.confidence (WordHighlighter.getWordType word m l)
     <= Shapes.confidence (WordHighlighter.getWordType word m' l').
Proof.
  intros Hm Hl.
  assert (Hk : forall w,
    Shapes.confidence (HebrewText.getWordKnownType w m l)
    <= Shapes.confidence (HebrewText.getWordKnownType w m' l')).
  { intros w. rewrite !getWordKnownType_cases.
    pose proof (knownForm_mono w m l m' l' Hm Hl) as Hkf.
    pose proof (prefixMatch_mono w m l m' l' Hm Hl) as Hpm.
    destruct (Tests.knownForm w m l).
    - rewrite Hkf by reflexivity. simpl. lia.
    - destruct (HebrewText.prefixMatch w m l).
      + rewrite Hpm by reflexivity.
        destruct (Tests.knownForm w m' l'); simpl; lia.
      + simpl. lia. }
  assert (Hconf : forall tag,
    Shapes.confidence (SpecWords.collapse tag) = Shapes.confidence tag)
    by (intros []; reflexivity).
  split; [apply Hk|].
  rewrite !highlighter_is_coordinator.
  specialize (Hk (HebrewText.normalizeHebrew word)).
  rewrite !getWordKnownType_collapse, !Hconf in Hk. exact Hk.
Qed.

(** Adding "bayit" to the mature words takes "babayit" from unknown to
    potentially known. *)
Lemma larger_vocabulary_never_demotes_witness :
  Shapes.confidence
    (HebrewText.getWordKnownType (HebrewText.bet :: Samples.bayit)
       [Samples.sefer] [])
  <= Shapes.confidence
       (HebrewText.getWordKnownType (HebrewText.bet :: Samples.bayit)
          [Samples.bayit; Samples.sefer] []).
Proof.
  refine (proj1 (larger_vocabulary_never_demotes
                   (HebrewText.bet :: Samples.bayit)
                   [Samples.sefer] [] [Samples.bayit; Samples.sefer] [] _ _)).
  - intros x Hx. now right.
  - intros x Hx. exact Hx.
Defined.

Section Precedence.
Import HebrewText Tests.

Lemma via_letter (c : codeUnit) (w : jsstring) (arr : list jsstring) :
  startsWith w c && (1 <? length w) && includes arr (substring1 w) = true
  <-> exists rest, stripped c w rest /\ In rest arr.
Proof.
  rewrite andb_true_iff, stripped_test, includes_In. split.
  - intros [(rest & Hs & <-) Hin]. now exists (substring1 w).
  - intros (rest & Hs & Hin).
    assert (E : substring1 w = rest) by (destruct Hs as [-> _]; reflexivity).
    split; [now exists rest | now rewrite E].
Qed.

Lemma via_letter_only (c : codeUnit) (w : jsstring) (a b : list jsstring) :
  startsWith w c && (1 <? length w)
  && negb (includes a (substring1 w)) && includes b (substring1 w) = true
  <-> exists rest, stripped c w rest /\ ~ In rest a /\ In rest b.
Proof.
  do 2 rewrite andb_true_iff.
  rewrite stripped_test, negb_true_iff, includes_not_In, includes_In.
  split.
  - intros [[(rest & Hs & <-) Hna] Hin]. now exists (substring1 w).
  - intros (rest & Hs & Hna & Hin).
    assert (E : substring1 w = rest) by (destruct Hs as [-> _]; reflexivity).
    rewrite E. repeat split; try assumption. now exists rest.
Qed.

End Precedence.

(** X12. What [known], [potentially-known] and [unknown] mean.  A word
    is known exactly when it, or what follows its leading vav, is in one
    of the arrays; it is potentially known exactly when it is not known
    and what follows its leading lamed, bet or shin is in one of the
    arrays; it is unknown otherwise.  What follows the letter must not
    be empty: a one-letter word is never stripped. *)
Theorem getWordKnownType_characterized
    (w : jsstring) (m l : list jsstring) :
  let viaPrefix :=
    exists p rest,
      In p HebrewText.prefixes /\ Tests.stripped p w rest /\ In rest (m ++ l) in
  (HebrewText.isWordKnown w m l = true
   <-> In w (m ++ l)
       \/ exists rest, Tests.stripped HebrewText.vav w rest /\ In rest (m ++ l))
  /\ (HebrewText.getWordKnownType w m l = potentially_known
      <-> HebrewText.isWordKnown w m l = false /\ viaPrefix)
  /\ (HebrewText.getWordKnownType w m l = unknown
      <-> HebrewText.isWordKnown w m l = false /\ ~ viaPrefix).
Proof.
  intros viaPrefix. unfold viaPrefix, HebrewText.isWordKnown.
  rewrite <- knownForm_iff, <- prefixMatch_iff, getWordKnownType_cases.
  destruct (Tests.knownForm w m l), (HebrewText.prefixMatch w m l);
    simpl; repeat split; try tauto; try discriminate;
    intros H; try discriminate H; try (destruct H; congruence).
Qed.

(** [getWordKnownType] treats the two arrays alike: exchanging the
    mature and the learning words changes no label. *)
Lemma getWordKnownType_arrays_exchange (w : jsstring) (m l : list jsstring) :
  HebrewText.getWordKnownType w m l = HebrewText.getWordKnownType w l m.
Proof.
  unfold HebrewText.getWordKnownType, HebrewText.prefixMatch.
  rewrite (orb_comm (includes m w)),
          (orb_comm (includes m (substring1 w))).
  reflexivity.
Qed.

(** X13. The order of the tests of [getWordType].  A word is [mature]
    exactly when its normalized form is in the mature array or, that
    form not being in the learning array, what follows its leading vav
    is in the mature array; it is [learning]
    exactly when the form is not in the mature array and either is in
    the learning array or what follows its leading vav is in the
    learning array and not in the mature one.  So a word in both arrays
    is mature, and a learning word stays learning even when it is a vav
    before a mature word. *)
Theorem getWordType_precedence (word : jsstring) (m l : list jsstring) :
  let n := HebrewText.normalizeHebrew word in
  (WordHighlighter.getWordType word m l = mature
   <-> In n m
       \/ (~ In n l
           /\ exists rest, Tests.stripped HebrewText.vav n rest /\ In rest m))
  /\ (WordHighlighter.getWordType word m l = learning
      <-> ~ In n m
          /\ (In n l
              \/ exists rest,
                   Tests.stripped HebrewText.vav n rest
                   /\ ~ In rest m /\ In rest l)).
Proof.
  intros n. rewrite highlighter_is_coordinator. fold n.
  rewrite <- via_letter, <- via_letter_only, <- !includes_not_In,
          <- !includes_In.
  unfold Coordinator.getWordType.
  cbn [Coordinator.matureWords Coordinator.learningWords].
  destruct (includes m n), (includes l n),
           (startsWith n HebrewText.vav && (1 <? length n)),
           (includes m (substring1 n)), (includes l (substring1 n)),
           (HebrewText.prefixMatch n m l);
    cbn [andb negb]; intuition congruence.
Qed.

(** ** Matches and their indices *)

Section Indices.
Import HebrewText SentenceHighlighter Offsets.

Lemma skipn_app_le {A} (n : nat) (a b : list A) :
  n <= length a -> skipn n (a ++ b) = skipn n a ++ b.
Proof.
  intros H. rewrite skipn_app.
  replace (n - length a) with 0 by lia. reflexivity.
Qed.

Lemma firstn_app_le {A} (n : nat) (a b : list A) :
  n <= length a -> firstn n (a ++ b) = firstn n a.
Proof.
  intros H. rewrite firstn_app.
  replace (n - length a) with 0 by lia. simpl. apply app_nil_r.
Qed.

Lemma firstn_exact {A} (a b : list A) : firstn (length a) (a ++ b) = a.
Proof.
  rewrite firstn_app, Nat.sub_diag, firstn_all. simpl. apply app_nil_r.
Qed.

Lemma firstn_plus {A} (a b : nat) (l : list A) :
  firstn (a + b) l = firstn a l ++ firstn b (skipn a l).
Proof.
  revert l. induction a as [|a IH]; intros l; simpl; [reflexivity|].
  destruct l as [|x l]; simpl.
  - now rewrite firstn_nil.
  - now rewrite IH.
Qed.

(** The text between [from] and the end of [pre], seen in the whole
    text. *)
Lemma gap_in_text {A} (from s : nat) (pre rest : list A) :
  from <= s -> s <= length pre ->
  firstn (s - from) (skipn from (pre ++ rest))
  = firstn (s - from) (skipn from pre).
Proof.
  intros Hfs Hs. rewrite skipn_app_le by lia.
  apply firstn_app_le. rewrite length_skipn. lia.
Qed.

Lemma run_in_text {A} (s : nat) (pre rest : list A) :
  s <= length pre ->
  firstn (length (skipn s pre)) (skipn s (pre ++ rest)) = skipn s pre.
Proof.
  intros Hs. rewrite skipn_app_le by exact Hs. apply firstn_exact.
Qed.

Lemma execHebrew_chain_from (text pre whole : jsstring) :
  pre ++ text = whole ->
  let skipped := fun c => negb (isHebrew c) in
  (forall from,
      from <= length pre ->
      Forall (fun c => skipped c = true) (skipn from pre) ->
      chain skipped whole from (WordPass.execHebrew (length pre) None text))
  /\
  (forall from s,
      from <= s -> s < length pre ->
      Forall (fun c => skipped c = true) (firstn (s - from) (skipn from pre)) ->
      chain skipped whole from
        (WordPass.execHebrew (length pre)
           (Some {| index := s; matched := skipn s pre |}) text)).
Proof.
  intros E skipped. revert pre E.
  induction text as [|c text IH]; intros pre E.
  - rewrite app_nil_r in E. subst whole. split.
    + intros from Hfrom Hgap. simpl. split; assumption.
    + intros from s Hfs Hs Hgap. simpl.
      assert (Hlen : length (skipn s pre) = length pre - s)
        by apply length_skipn.
      repeat split.
      * exact Hfs.
      * intros Hnil. rewrite Hnil in Hlen. simpl in Hlen. lia.
      * apply firstn_all.
      * exact Hgap.
      * rewrite Hlen. lia.
      * rewrite Hlen. replace (s + (length pre - s)) with (length pre) by lia.
        rewrite skipn_all. constructor.
  - assert (E' : (pre ++ [c]) ++ text = whole)
      by (rewrite <- app_assoc; exact E).
    destruct (IH (pre ++ [c]) E') as [IHnone IHsome].
    rewrite length_app in IHnone, IHsome. simpl in IHnone, IHsome.
    rewrite Nat.add_1_r in IHnone, IHsome.
    split.
    + intros from Hfrom Hgap. cbn [WordPass.execHebrew].
      destruct (isHebrew c) eqn:Hc.
      * specialize (IHsome from (length pre) Hfrom (Nat.lt_succ_diag_r _)).
        rewrite (skipn_app_le (length pre) pre [c]) in IHsome by lia.
        rewrite skipn_all in IHsome. cbn [app] in IHsome.
        apply IHsome.
        rewrite (skipn_app_le from pre [c]) by lia.
        rewrite firstn_app_le by (rewrite length_skipn; lia).
        rewrite firstn_all2 by (rewrite length_skipn; lia). exact Hgap.
      * apply IHnone; [lia|]. rewrite skipn_app_le by exact Hfrom.
        apply Forall_app. split; [exact Hgap|]. constructor; [|constructor].
        unfold skipped. now rewrite Hc.
    + intros from s Hfs Hs Hgap. cbn [WordPass.execHebrew].
      destruct (isHebrew c) eqn:Hc.
      * specialize (IHsome from s Hfs (Nat.lt_lt_succ_r _ _ Hs)).
        rewrite (skipn_app_le s pre [c]) in IHsome by lia.
        rewrite (skipn_app_le from pre [c]) in IHsome by lia.
        rewrite firstn_app_le in IHsome by (rewrite length_skipn; lia).
        unfold extend. cbn [index matched]. apply IHsome. exact Hgap.
      * assert (Hlen : length (skipn s pre) = length pre - s)
          by apply length_skipn.
        cbn [chain index matched]. subst whole. repeat split.
        -- exact Hfs.
        -- intros Hnil. rewrite Hnil in Hlen. simpl in Hlen. lia.
        -- apply run_in_text. lia.
        -- rewrite gap_in_text by lia. exact Hgap.
        -- rewrite Hlen. replace (s + (length pre - s)) with (length pre) by lia.
           apply IHnone; [lia|].
           rewrite skipn_app_le, skipn_all by lia. simpl.
           constructor; [|constructor]. unfold skipped. now rewrite Hc.
Qed.

Lemma execHebrew_chain (text : jsstring) :
  chain (fun c => negb (isHebrew c)) text 0 (WordPass.execHebrew 0 None text).
Proof.
  destruct (execHebrew_chain_from text [] text eq_refl) as [H _].
  apply (H 0); [apply Nat.le_refl | constructor].
Qed.

Lemma execHebrew_words_from (text : jsstring) (pos : nat) :
  map matched (WordPass.execHebrew pos None text) = scanHebrew [] text
  /\ forall m, matched m <> [] ->
       map matched (WordPass.execHebrew pos (Some m) text)
       = scanHebrew (matched m) text.
Proof.
  revert pos. induction text as [|c text IH]; intros pos.
  - split; [reflexivity|]. intros m Hm. simpl.
    destruct (matched m); [congruence | reflexivity].
  - destruct (IH (S pos)) as [IHnone IHsome].
    split; [|intros m Hm]; cbn [WordPass.execHebrew scanHebrew];
      destruct (isHebrew c).
    + rewrite IHsome by discriminate. reflexivity.
    + exact IHnone.
    + rewrite IHsome; [reflexivity|]. simpl.
      destruct (matched m); discriminate.
    + cbn [map]. rewrite IHnone.
      destruct (matched m); [congruence | reflexivity].
Qed.

(** The matches of the [exec] loop are those of [match]. *)
Lemma execHebrew_words (text : jsstring) :
  map matched (WordPass.execHebrew 0 None text) = scanHebrew [] text.
Proof. apply execHebrew_words_from. Qed.

End Indices.

(** ** The fragment that replaces a text node *)

Section Fragment.
Import HebrewText SentenceHighlighter WordPass Fragments Offsets.

Variables matureWords learningWords : list jsstring.

Lemma recordMatch_fold (ms : list RegexMatch) (hs : list Highlight)
    (uniqueWords : option StrSet) :
  fold_left (recordMatch matureWords learningWords) ms (hs, uniqueWords)
  = (hs ++ map (toHighlight matureWords learningWords) ms,
     match uniqueWords with
     | Some s =>
         Some (fold_left Set_add (map normalizeHebrew (map matched ms)) s)
     | None => None
     end).
Proof.
  revert hs uniqueWords.
  induction ms as [|m ms IH]; intros hs uniqueWords; cbn [fold_left map].
  - rewrite app_nil_r. now destruct uniqueWords.
  - unfold recordMatch at 2. rewrite IH, <- app_assoc.
    now destruct uniqueWords.
Qed.

Lemma substring_between (text : jsstring) (from to : nat) :
  from <= to -> to <= length text ->
  substring text from to = firstn (to - from) (skipn from text).
Proof.
  intros Hft Ht. unfold substring.
  rewrite (Nat.min_l from), (Nat.min_l to) by lia.
  now rewrite Nat.max_r, Nat.min_l by lia.
Qed.

Lemma match_in_bounds (text w : jsstring) (i : nat) :
  w <> [] -> firstn (length w) (skipn i text) = w ->
  i + length w <= length text /\ i < length text.
Proof.
  intros Hne E. apply (f_equal (@length codeUnit)) in E.
  rewrite length_firstn, length_skipn in E.
  destruct w; [congruence|]. cbn [length] in *. lia.
Qed.

Lemma not_Hebrew_class (l : jsstring) :
  Forall (fun c => negb (isHebrew c) = true) l ->
  Forall (fun c => isHebrew c = false) l.
Proof. apply Forall_impl. intros c. apply negb_true_iff. Qed.

(** One more match appended: the fragment spells the text up to the end
    of the match. *)
Lemma appendHighlight_fold (text : jsstring) (ms : list RegexMatch)
    (fragment : list Node) (from : nat) :
  chain (fun c => negb (isHebrew c)) text from ms ->
  concat (map nodeText fragment) = firstn from text ->
  Forall plainText fragment ->
  let st := fold_left (appendHighlight text)
              (map (toHighlight matureWords learningWords) ms)
              (fragment, from) in
  concat (map nodeText (fst st)) = firstn (snd st) text
  /\ snd st <= length text
  /\ Forall (fun c => isHebrew c = false) (skipn (snd st) text)
  /\ Forall plainText (fst st)
  /\ spans (fst st)
     = spans fragment
       ++ map (fun m => (matched m,
                         WordHighlighter.getWordType (matched m)
                           matureWords learningWords)) ms.
Proof.
  revert fragment from.
  induction ms as [|m ms IH]; intros fragment from Hchain Htext Hplain.
  - destruct Hchain as [Hlen Hgap]. cbn [map fold_left fst snd].
    rewrite app_nil_r. repeat split; try assumption.
    now apply not_Hebrew_class.
  - destruct Hchain as (Hfrom & Hne & Hm & Hgap & Hrest).
    destruct (match_in_bounds text (matched m) (index m) Hne Hm)
      as [Hend Hidx].
    cbn [map fold_left].
    set (fragment' :=
           if from <? index m
           then fragment ++ [TextNode (substring text from (index m))]
           else fragment).
    assert (Estep :
      appendHighlight text (fragment, from)
        (toHighlight matureWords learningWords m)
      = (fragment' ++ [WordSpan (matched m)
                         (WordHighlighter.getWordType (matched m)
                            matureWords learningWords)],
         index m + length (matched m))) by reflexivity.
    rewrite Estep. clear Estep.
    assert (Htext' : concat (map nodeText fragment') = firstn (index m) text).
    { unfold fragment'. destruct (Nat.ltb_spec from (index m)) as [Hlt | Hge].
      - rewrite map_app, concat_app, Htext. cbn [map concat nodeText].
        rewrite app_nil_r, substring_between by lia.
        rewrite <- firstn_plus. f_equal. lia.
      - replace (index m) with from by lia. exact Htext. }
    assert (Hplain' : Forall plainText fragment').
    { unfold fragment'. destruct (Nat.ltb_spec from (index m)) as [Hlt | Hge];
        [|exact Hplain].
      apply Forall_app. split; [exact Hplain|]. constructor; [|constructor].
      rewrite substring_between by lia. split.
      - intros Hnil. apply (f_equal (@length codeUnit)) in Hnil.
        rewrite length_firstn, length_skipn in Hnil. simpl in Hnil. lia.
      - now apply not_Hebrew_class. }
    assert (Hspans' : spans fragment' = spans fragment).
    { unfold fragment'. destruct (from <? index m); [|reflexivity].
      clear. induction fragment as [|[d|w t] fragment IHf]; simpl;
        [reflexivity | exact IHf | now rewrite IHf]. }
    destruct (IH (fragment' ++ [WordSpan (matched m)
                                  (WordHighlighter.getWordType (matched m)
                                     matureWords learningWords)])
                 (index m + length (matched m)) Hrest)
      as (H1 & H2 & H3 & H4 & H5).
    + rewrite map_app, concat_app, Htext'. cbn [map concat nodeText].
      rewrite app_nil_r, firstn_plus. now rewrite Hm.
    + apply Forall_app. split; [exact Hplain'|]. repeat constructor.
    + repeat split; try assumption. rewrite H5.
      assert (Hsp : forall f w t, spans (f ++ [WordSpan w t])
                                  = spans f ++ [(w, t)]).
      { clear. intros f w t. induction f as [|[d|w' t'] f IHf]; simpl;
          [reflexivity | exact IHf | now rewrite IHf]. }
      rewrite Hsp, Hspans', <- app_assoc. reflexivity.
Qed.

End Fragment.

(** X14. [highlightTextNode] rewrites a text node without changing its
    text.  When the text holds a Hebrew word, the fragment put in its
    place spells the same text, its spans are the matches of
    [HEBREW_WORD_REGEX] in order, each with the label [getWordType]
    gives it, and its text nodes are non-empty and hold nothing Hebrew;
    when the text holds none, the node is left alone.  Either way the
    normalized words are added to [uniqueWords] in order. *)
Theorem highlightTextNode_keeps_the_text
    (text : jsstring) (uniqueWords : option StrSet)
    (matureWords learningWords : list jsstring) :
  let result :=
    WordPass.highlightTextNode text uniqueWords matureWords learningWords in
  let words := HebrewText.scanHebrew [] text in
  match fst result with
  | Some fragment =>
      concat (map WordPass.nodeText fragment) = text
      /\ Fragments.spans fragment
         = map (fun w => (w, WordHighlighter.getWordType w matureWords
                               learningWords)) words
      /\ Forall Fragments.plainText fragment
      /\ HebrewText.containsHebrew text = true
  | None => HebrewText.containsHebrew text = false
  end
  /\ snd result
     = match uniqueWords with
       | Some s =>
           Some (fold_left Set_add (map HebrewText.normalizeHebrew words) s)
       | None => None
       end.
Proof.
  intros result words. unfold result, WordPass.highlightTextNode.
  rewrite recordMatch_fold. cbn [app].
  pose proof (execHebrew_words text) as Hwords. fold words in Hwords.
  pose proof (execHebrew_chain text) as Hchain.
  pose proof (containsHebrew_scan text) as Hcontains. fold words in Hcontains.
  destruct (WordPass.execHebrew 0 None text) as [|m ms] eqn:Eexec.
  - cbn [map fst snd]. simpl in Hwords. rewrite <- Hwords in *.
    split; [exact Hcontains | reflexivity].
  - rewrite Hwords.
    destruct (appendHighlight_fold matureWords learningWords text (m :: ms)
                [] 0 Hchain eq_refl (Forall_nil _))
      as (Htext & Hlast & Hgap & Hplain & Hspans).
    cbn [map] in *.
    destruct (fold_left (WordPass.appendHighlight text) _ _)
      as [fragment lastIndex] eqn:Efold.
    cbn [fst snd] in *. split; [|reflexivity].
    assert (Hsome : HebrewText.containsHebrew text = true).
    { rewrite Hcontains, <- Hwords. reflexivity. }
    rewrite <- Hwords. cbn [map]. rewrite map_map.
    cbn [Fragments.spans app] in Hspans.
    destruct (Nat.ltb_spec lastIndex (length text)) as [Hlt | Hge].
    + repeat split.
      * rewrite map_app, concat_app, Htext. cbn [map concat WordPass.nodeText].
        rewrite app_nil_r. apply firstn_skipn.
      * assert (Hsp : forall f d, Fragments.spans (f ++ [WordPass.TextNode d])
                                  = Fragments.spans f).
        { clear. intros f d. induction f as [|[d'|w t] f IHf]; simpl;
            [reflexivity | exact IHf | now rewrite IHf]. }
        rewrite Hsp, Hspans. reflexivity.
      * apply Forall_app. split; [exact Hplain|]. constructor; [|constructor].
        split; [|exact Hgap]. unfold WordPass.substringFrom.
        intros Hnil. apply (f_equal (@length codeUnit)) in Hnil.
        rewrite length_skipn in Hnil. simpl in Hnil. lia.
      * exact Hsome.
    + repeat split; try assumption.
      rewrite Htext. apply firstn_all2. lia.
Qed.

(** ** The statistics of the page *)

Section PageStatistics.
Import HebrewText SentenceHighlighter WordPass SpecWords.

Variables matureWords learningWords : list jsstring.

Lemma highlightTextNode_uniqueWords (text : jsstring) (s : StrSet) :
  snd (highlightTextNode text (Some s) matureWords learningWords)
  = Some (fold_left Set_add (map normalizeHebrew (scanHebrew [] text)) s).
Proof.
  unfold highlightTextNode. rewrite recordMatch_fold, execHebrew_words.
  cbn [app].
  destruct (map (Fragments.toHighlight matureWords learningWords) _);
    [reflexivity|].
  destruct (fold_left (appendHighlight text) _ _). reflexivity.
Qed.

Lemma page_uniqueWords (nodes : list TextNodeInfo) (s : StrSet) :
  fold_left
    (fun uniqueWords textNode =>
       match snd (highlightTextNode (nodeValue textNode) (Some uniqueWords)
                    matureWords learningWords) with
       | Some s' => s'
       | None => uniqueWords
       end)
    nodes s
  = fold_left Set_add
      (map normalizeHebrew
         (flat_map (fun n => scanHebrew [] (nodeValue n)) nodes))
      s.
Proof.
  revert s. induction nodes as [|n nodes IH]; intros s; cbn [fold_left flat_map].
  - reflexivity.
  - rewrite highlightTextNode_uniqueWords, IH, map_app, fold_left_app.
    reflexivity.
Qed.

(** Each word has one of the three labels. *)
Lemma count_three_labels (words : list jsstring) :
  length words
  = countTagged known matureWords learningWords words
    + countTagged potentially_known matureWords learningWords words
    + countTagged unknown matureWords learningWords words.
Proof.
  induction words as [|w words IH]; [reflexivity|].
  rewrite !countTagged_cons. cbn [length]. rewrite IH.
  destruct (getWordKnownType_range matureWords learningWords w)
    as [E | [E | E]]; rewrite E; cbn [tag_eqb]; lia.
Qed.

(** The test of [highlightWords] for a known word is that of the
    aggregator. *)
Lemma known_test (word : jsstring) :
  normalizeHebrew word = word ->
  (let wordType := WordHighlighter.getWordType word matureWords learningWords in
   tag_eqb wordType mature || tag_eqb wordType learning)
  = tag_eqb (getWordKnownType word matureWords learningWords) known.
Proof.
  intros Hn. cbn zeta.
  rewrite getWordKnownType_collapse, highlighter_is_coordinator, Hn.
  pose proof (getWordType_not_known matureWords learningWords word) as Hk.
  destruct (Coordinator.getWordType _ word); try reflexivity. congruence.
Qed.

Lemma fold_Set_add_normalized (words : list jsstring) :
  Forall (fun w => normalizeHebrew w = w)
    (fold_left Set_add (map normalizeHebrew words) []).
Proof.
  apply Forall_forall. intros w Hw. apply fold_Set_add_In in Hw.
  destruct Hw as [[] | Hw]. apply in_map_iff in Hw.
  destruct Hw as (raw & <- & _).
  rewrite !normalizeHebrew_filter. apply filter_twice.
Qed.

End PageStatistics.

(** X15. The statistics [highlightWords] returns.  [total] is the
    number of distinct normalized words in the accepted text nodes;
    [known] is the number of those the aggregator's classifier labels
    [known]; [unknown], computed as [total - known], is never negative
    and counts the potentially known words together with the unknown
    ones.  Without a body all three are 0. *)
Theorem highlightWords_statistics
    (nodes : list WordPass.TextNodeInfo)
    (matureWords learningWords : list jsstring) :
  let stats := WordPass.highlightWords (Some nodes) matureWords learningWords in
  let words :=
    SpecWords.uniqueNormalized
      (flat_map (fun n => HebrewText.scanHebrew [] (WordPass.nodeValue n))
         (filter WordPass.acceptNode nodes)) in
  WordPass.total stats = length words
  /\ WordPass.known_ stats
     = SpecWords.countTagged known matureWords learningWords words
  /\ WordPass.unknown_ stats
     = Z.of_nat
         (SpecWords.countTagged potentially_known matureWords learningWords words
          + SpecWords.countTagged unknown matureWords learningWords words)
  /\ WordPass.highlightWords None matureWords learningWords
     = {| WordPass.total := 0; WordPass.known_ := 0; WordPass.unknown_ := 0 |}.
Proof.
  intros stats words. unfold stats, WordPass.highlightWords.
  rewrite page_uniqueWords.
  set (tokens := flat_map _ (filter WordPass.acceptNode nodes)) in *.
  pose proof (fold_Set_add_nodup (map HebrewText.normalizeHebrew tokens))
    as Hperm.
  fold (SpecWords.uniqueNormalized tokens) in Hperm. fold words in Hperm.
  pose proof (fold_Set_add_normalized tokens) as Hnorm.
  set (seen := fold_left Set_add _ []) in *.
  cbn [WordPass.total WordPass.known_ WordPass.unknown_].
  assert (Htotal : Set_size seen = length words)
    by (apply Permutation_length; exact Hperm).
  assert (Hknown :
    length
      (filter
         (fun word =>
            tag_eqb (WordHighlighter.getWordType word matureWords learningWords)
              mature
            || tag_eqb (WordHighlighter.getWordType word matureWords learningWords)
                 learning) seen)
    = SpecWords.countTagged known matureWords learningWords words).
  { rewrite <- (countTagged_perm matureWords learningWords known _ _ Hperm).
    unfold SpecWords.countTagged. f_equal. apply filter_ext_in.
    intros w Hw. rewrite Forall_forall in Hnorm.
    exact (known_test matureWords learningWords w (Hnorm w Hw)). }
  rewrite Hknown, Htotal.
  split; [reflexivity|]. split; [reflexivity|]. split; [|reflexivity].
  rewrite (count_three_labels matureWords learningWords words). lia.
Qed.

(** ** Sentence matches *)

Section SentenceMatches.
Import SentenceHighlighter Offsets SentenceShapes.

Variable isNetflix : bool.

Lemma terminator_is_boundary (c : codeUnit) :
  isTerminator c = true -> isBoundary isNetflix c = true.
Proof. unfold isBoundary. now intros ->. Qed.

(** The head of a chain, for a match that ends where [pre] ends. *)
Lemma chain_emit (skipped : codeUnit -> bool) (pre rest : jsstring)
    (from s : nat) (ms : list RegexMatch) :
  from <= s -> s < length pre ->
  Forall (fun c => skipped c = true) (firstn (s - from) (skipn from pre)) ->
  chain skipped (pre ++ rest) (length pre) ms ->
  chain skipped (pre ++ rest) from
    ({| index := s; matched := skipn s pre |} :: ms).
Proof.
  intros Hfs Hs Hgap Hrest.
  assert (Hlen : length (skipn s pre) = length pre - s) by apply length_skipn.
  cbn [chain index matched]. repeat split.
  - exact Hfs.
  - intros Hnil. rewrite Hnil in Hlen. simpl in Hlen. lia.
  - apply run_in_text. lia.
  - rewrite gap_in_text by lia. exact Hgap.
  - rewrite Hlen. replace (s + (length pre - s)) with (length pre) by lia.
    exact Hrest.
Qed.

Lemma execAll_chain_from (text pre whole : jsstring) :
  pre ++ text = whole ->
  let skipped := isBoundary isNetflix in
  (forall from,
      from <= length pre ->
      Forall (fun c => skipped c = true) (skipn from pre) ->
      chain skipped whole from (execAll isNetflix Idle (length pre) text))
  /\
  (forall from s,
      from <= s -> s < length pre ->
      Forall (fun c => skipped c = true) (firstn (s - from) (skipn from pre)) ->
      chain skipped whole from
        (execAll isNetflix (InBody {| index := s; matched := skipn s pre |})
           (length pre) text)
      /\ chain skipped whole from
           (execAll isNetflix (InTail {| index := s; matched := skipn s pre |})
              (length pre) text)).
Proof.
  intros E skipped. revert pre E.
  induction text as [|c text IH]; intros pre E.
  - rewrite app_nil_r in E. subst whole. split.
    + intros from Hfrom Hgap. simpl. split; assumption.
    + intros from s Hfs Hs Hgap.
      assert (Hend : chain skipped (pre ++ []) (length pre) []).
      { simpl. rewrite app_nil_r. split; [apply Nat.le_refl|].
        rewrite skipn_all. constructor. }
      pose proof (chain_emit skipped pre [] from s [] Hfs Hs Hgap Hend) as H.
      rewrite app_nil_r in H. split; exact H.
  - assert (E' : (pre ++ [c]) ++ text = whole)
      by (rewrite <- app_assoc; exact E).
    destruct (IH (pre ++ [c]) E') as [IHidle IHopen].
    rewrite length_app in IHidle, IHopen. simpl in IHidle, IHopen.
    rewrite Nat.add_1_r in IHidle, IHopen.
    (* the three ways a step goes on *)
    assert (Hidle : forall from, from <= length pre ->
              Forall (fun d => skipped d = true) (skipn from pre) ->
              skipped c = true ->
              chain skipped whole from
                (execAll isNetflix Idle (S (length pre)) text)).
    { intros from Hfrom Hgap Hc. apply IHidle; [lia|].
      rewrite skipn_app_le by exact Hfrom.
      apply Forall_app. split; [exact Hgap | now repeat constructor]. }
    assert (Hfresh : forall from, from <= length pre ->
              Forall (fun d => skipped d = true) (skipn from pre) ->
              chain skipped whole from
                (execAll isNetflix
                   (InBody {| index := length pre; matched := [c] |})
                   (S (length pre)) text)).
    { intros from Hfrom Hgap.
      destruct (IHopen from (length pre) Hfrom (Nat.lt_succ_diag_r _))
        as [H _].
      - rewrite (skipn_app_le from pre [c]) by lia.
        rewrite firstn_app_le by (rewrite length_skipn; lia).
        rewrite firstn_all2 by (rewrite length_skipn; lia). exact Hgap.
      - rewrite (skipn_app_le (length pre) pre [c]) in H by lia.
        rewrite skipn_all in H. exact H. }
    assert (Hgrow : forall from s, from <= s -> s < length pre ->
              Forall (fun d => skipped d = true)
                (firstn (s - from) (skipn from pre)) ->
              chain skipped whole from
                (execAll isNetflix
                   (InBody {| index := s; matched := skipn s pre ++ [c] |})
                   (S (length pre)) text)
              /\ chain skipped whole from
                   (execAll isNetflix
                      (InTail {| index := s; matched := skipn s pre ++ [c] |})
                      (S (length pre)) text)).
    { intros from s Hfs Hs Hgap.
      specialize (IHopen from s Hfs (Nat.lt_lt_succ_r _ _ Hs)).
      rewrite (skipn_app_le s pre [c]) in IHopen by lia.
      rewrite (skipn_app_le from pre [c]) in IHopen by lia.
      rewrite firstn_app_le in IHopen by (rewrite length_skipn; lia).
      now apply IHopen. }
    assert (Hemit : forall from s ms, from <= s -> s < length pre ->
              Forall (fun d => skipped d = true)
                (firstn (s - from) (skipn from pre)) ->
              chain skipped whole (length pre) ms ->
              chain skipped whole from
                ({| index := s; matched := skipn s pre |} :: ms)).
    { intros from s ms Hfs Hs Hgap Hms. subst whole.
      now apply chain_emit. }
    split.
    + intros from Hfrom Hgap. cbn [execAll].
      destruct (isBoundary isNetflix c) eqn:Hc.
      * now apply Hidle.
      * now apply Hfresh.
    + intros from s Hfs Hs Hgap.
      destruct (Hgrow from s Hfs Hs Hgap) as [Hbody Htail].
      cbn [execAll]. unfold extend. cbn [index matched].
      destruct (isTerminator c) eqn:Ht; [split; exact Htail|].
      destruct (isBoundary isNetflix c) eqn:Hc.
      * assert (Hnext : chain skipped whole (length pre)
                          (execAll isNetflix Idle (S (length pre)) text)).
        { apply Hidle; [apply Nat.le_refl | | exact Hc].
          rewrite skipn_all. constructor. }
        split; now apply Hemit.
      * split; [exact Hbody|]. apply Hemit; try assumption.
        apply Hfresh; [apply Nat.le_refl|]. rewrite skipn_all. constructor.
Qed.

Lemma execAll_chain (text : jsstring) :
  chain (isBoundary isNetflix) text 0 (execAll isNetflix Idle 0 text).
Proof.
  destruct (execAll_chain_from text [] text eq_refl) as [H _].
  apply (H 0); [apply Nat.le_refl | constructor].
Qed.

Lemma shape_extend_body (w : jsstring) (c : codeUnit) :
  w <> [] /\ Forall (fun d => isBoundary isNetflix d = false) w ->
  isBoundary isNetflix c = false ->
  (w ++ [c]) <> [] /\ Forall (fun d => isBoundary isNetflix d = false) (w ++ [c]).
Proof.
  intros [Hne Hw] Hc. split.
  - destruct w; discriminate.
  - apply Forall_app. split; [exact Hw | now repeat constructor].
Qed.

Lemma shape_of_body (w : jsstring) :
  w <> [] /\ Forall (fun d => isBoundary isNetflix d = false) w ->
  sentenceShape isNetflix w.
Proof.
  intros [Hne Hw]. exists w, []. rewrite app_nil_r. repeat split; auto.
Qed.

Lemma shape_extend_tail (w : jsstring) (c : codeUnit) :
  sentenceShape isNetflix w -> isTerminator c = true ->
  sentenceShape isNetflix (w ++ [c]).
Proof.
  intros (body & tail & -> & Hne & Hb & Ht) Hc.
  exists body, (tail ++ [c]). rewrite app_assoc. repeat split; auto.
  apply Forall_app. split; [exact Ht | now repeat constructor].
Qed.

Lemma execAll_shapes (text : jsstring) (st : ScanState) (pos : nat) :
  stateShape isNetflix st ->
  Forall (fun m => sentenceShape isNetflix (matched m))
    (execAll isNetflix st pos text).
Proof.
  revert st pos. induction text as [|c text IH]; intros st pos Hst.
  - destruct st as [|m|m]; simpl; repeat constructor.
    + now apply shape_of_body.
    + exact Hst.
  - cbn [execAll].
    assert (Hfresh : isBoundary isNetflix c = false ->
              stateShape isNetflix (InBody {| index := pos; matched := [c] |})).
    { intros Hc. simpl. split; [discriminate | now repeat constructor]. }
    destruct st as [|m|m].
    + destruct (isBoundary isNetflix c) eqn:Hc; apply IH; [exact I | auto].
    + destruct (isTerminator c) eqn:Ht.
      * apply IH. simpl. apply shape_extend_tail; [|exact Ht].
        now apply shape_of_body.
      * destruct (isBoundary isNetflix c) eqn:Hc.
        -- constructor; [now apply shape_of_body | now apply IH].
        -- apply IH. simpl. now apply shape_extend_body.
    + destruct (isTerminator c) eqn:Ht.
      * apply IH. simpl. now apply shape_extend_tail.
      * destruct (isBoundary isNetflix c) eqn:Hc.
        -- constructor; [exact Hst | now apply IH].
        -- constructor; [exact Hst | apply IH; auto].
Qed.

End SentenceMatches.

(** X16. The matches of the sentence pattern lie in the text one after
    the other without overlapping: each is not empty and is the text at
    its index, each starts where the one before ended or later, and the
    code units between and around them are all boundary code units (a
    terminator or, off Netflix, a line feed). *)
Theorem sentence_matches_lie_in_the_text (isNetflix : bool) (text : jsstring) :
  Offsets.chain (SentenceHighlighter.isBoundary isNetflix) text 0
    (SentenceHighlighter.execAll isNetflix SentenceHighlighter.Idle 0 text).
Proof. apply execAll_chain. Qed.

(** X17. Every match of the sentence pattern is a non-empty stretch
    without boundary code units followed by terminators only: sentence
    punctuation stays at the end of its sentence, and off Netflix no
    match holds a line feed. *)
Theorem sentence_matches_shape (isNetflix : bool) (text : jsstring) :
  Forall
    (fun m =>
       SentenceShapes.sentenceShape isNetflix (SentenceHighlighter.matched m)
       /\ (isNetflix = false -> ~ In 0x0A%N (SentenceHighlighter.matched m)))
    (SentenceHighlighter.execAll isNetflix SentenceHighlighter.Idle 0 text).
Proof.
  pose proof (execAll_shapes isNetflix text SentenceHighlighter.Idle 0 I) as H.
  revert H. apply Forall_impl. intros m Hm. split; [exact Hm|].
  intros -> Hin. destruct Hm as (body & tail & E & _ & Hb & Ht).
  rewrite E in Hin. apply in_app_or in Hin. destruct Hin as [Hin | Hin].
  - rewrite Forall_forall in Hb. specialize (Hb _ Hin). discriminate Hb.
  - rewrite Forall_forall in Ht. specialize (Ht _ Hin). discriminate Ht.
Qed.

(** ** Recorded sentences *)

Section RecordedSentences.
Import HebrewText SentenceHighlighter Offsets Bounds.

Variables matureWords learningWords : list jsstring.

Lemma chain_In (skipped : codeUnit -> bool) (text : jsstring)
    (ms : list RegexMatch) (from : nat) (m : RegexMatch) :
  chain skipped text from ms -> In m ms ->
  matched m <> []
  /\ firstn (length (matched m)) (skipn (index m) text) = matched m.
Proof.
  revert from. induction ms as [|m' ms IH]; intros from Hchain Hin.
  - destruct Hin.
  - destruct Hchain as (_ & Hne & Hm & _ & Hrest).
    destruct Hin as [-> | Hin]; [now split | now apply (IH _ Hrest)].
Qed.

Lemma tallyWord_bounds (t : Tally) (word : jsstring) :
  tallyBounds t ->
  let t' := tallyWord matureWords learningWords t word in
  tallyBounds t' /\ length (uniqueWords t') <= S (length (uniqueWords t)).
Proof.
  intros [Hl Hc]. unfold tallyWord, tallyBounds, Set_add.
  destruct (Set_has (uniqueWords t) (normalizeHebrew word)); cbn [negb].
  - repeat split; try assumption. lia.
  - destruct (getWordKnownType (normalizeHebrew word) matureWords learningWords);
      cbn [uniqueWords unknownSoFar potentiallyKnownSoFar unknownWordsList];
      rewrite ?length_app; cbn [length]; repeat split; lia.
Qed.

Lemma tallyWord_fold_bounds (words : list jsstring) (t : Tally) :
  tallyBounds t ->
  let t' := fold_left (tallyWord matureWords learningWords) words t in
  tallyBounds t'
  /\ length (uniqueWords t') <= length words + length (uniqueWords t).
Proof.
  revert t. induction words as [|w words IH]; intros t Ht; cbn [fold_left].
  - split; [exact Ht | simpl; lia].
  - destruct (tallyWord_bounds t w Ht) as [Ht' Hlen].
    destruct (IH _ Ht') as [Hfin Hlen']. split; [exact Hfin|].
    cbn [length]. lia.
Qed.

End RecordedSentences.

(** X18. Every sentence [highlightSentences] records is well formed:
    its [start] and [end] delimit a non-empty stretch inside the
    element's text, its [text] is that stretch trimmed and is not empty,
    it has at least three words, [unknownWords] lists as many words as
    [unknownCount] says, and the two counts together do not exceed the
    number of its words. *)
Theorem recorded_sentences_well_formed
    (isNetflix : bool) (matureWords learningWords : list jsstring)
    (textContent : jsstring) :
  Forall
    (fun sentence =>
       let words :=
         HebrewText.extractHebrewWords (SentenceHighlighter.text sentence)
           2 false in
       SentenceHighlighter.start sentence < SentenceHighlighter.end_ sentence
       /\ SentenceHighlighter.end_ sentence <= length textContent
       /\ SentenceHighlighter.text sentence
          = trim (WordPass.substring textContent
                    (SentenceHighlighter.start sentence)
                    (SentenceHighlighter.end_ sentence))
       /\ SentenceHighlighter.text sentence <> []
       /\ 3 <= length words
       /\ length (SentenceHighlighter.unknownWords sentence)
          = SentenceHighlighter.unknownCount sentence
       /\ SentenceHighlighter.unknownCount sentence
          + SentenceHighlighter.potentiallyKnownCount sentence
          <= length words)
    (SentenceHighlighter.sentencesOf isNetflix matureWords learningWords
       textContent).
Proof.
  apply Forall_forall. intros sentence Hin.
  apply sentencesOf_In in Hin. destruct Hin as (m & Hm & Hsome).
  destruct (chain_In _ _ _ _ _ (execAll_chain isNetflix textContent) Hm)
    as [Hne Htext].
  destruct (match_in_bounds _ _ _ Hne Htext) as [Hend Hidx].
  unfold SentenceHighlighter.sentenceOf in Hsome.
  destruct (length (trim (SentenceHighlighter.matched m)) =? 0) eqn:Etrim;
    [discriminate|].
  destruct (length (HebrewText.extractHebrewWords
                      (trim (SentenceHighlighter.matched m)) 2 false) =? 0);
    [discriminate|].
  destruct (Nat.ltb_spec
              (length (HebrewText.extractHebrewWords
                         (trim (SentenceHighlighter.matched m)) 2 false))
              Constants.MIN_SENTENCE_WORDS) as [|Hmin];
    [discriminate|].
  injection Hsome as <-.
  destruct (tallyWord_fold_bounds matureWords learningWords
              (HebrewText.extractHebrewWords
                 (trim (SentenceHighlighter.matched m)) 2 false)
              SentenceHighlighter.emptyTally)
    as [[Hlist Hcount] Hlen].
  { split; [reflexivity | simpl; lia]. }
  cbn [SentenceHighlighter.start SentenceHighlighter.end_
       SentenceHighlighter.text SentenceHighlighter.unknownWords
       SentenceHighlighter.unknownCount
       SentenceHighlighter.potentiallyKnownCount].
  assert (Hpos : 0 < length (SentenceHighlighter.matched m)).
  { destruct (SentenceHighlighter.matched m); [congruence | simpl; lia]. }
  repeat split.
  - lia.
  - exact Hend.
  - rewrite substring_between by lia.
    replace (SentenceHighlighter.index m
             + length (SentenceHighlighter.matched m)
             - SentenceHighlighter.index m)
      with (length (SentenceHighlighter.matched m)) by lia.
    now rewrite Htext.
  - intros Hnil. rewrite Hnil in Etrim. discriminate Etrim.
  - exact Hmin.
  - exact Hlist.
  - simpl in Hlen. lia.
Qed.

Lemma exclusive_filters {A} (p q : A -> bool) (l : list A) :
  (forall x, p x && q x = false) ->
  length (filter p l) + length (filter q l) <= length l.
Proof.
  intros Hex. induction l as [|x l IH]; simpl; [lia|].
  specialize (Hex x). destruct (p x), (q x); simpl in *;
    try discriminate; lia.
Qed.

(** X19. What one element adds to the two counters of
    [highlightSentences]: no sentence is counted twice, so the two
    numbers together do not exceed the number of recorded sentences,
    which does not exceed the number of matches of the sentence
    pattern. *)
Theorem element_counts_bounded
    (isNetflix : bool) (matureWords learningWords : list jsstring)
    (textContent : jsstring) :
  let counts :=
    SentenceHighlighter.elementCounts isNetflix matureWords learningWords
      textContent in
  let sentences :=
    SentenceHighlighter.sentencesOf isNetflix matureWords learningWords
      textContent in
  fst counts + snd counts <= length sentences
  /\ length sentences
     <= length (SentenceHighlighter.execAll isNetflix SentenceHighlighter.Idle 0
                  textContent).
Proof.
  intros counts sentences. split.
  - apply exclusive_filters. intros s.
    unfold SentenceHighlighter.isI1Sentence,
           SentenceHighlighter.isPotentiallyI1Sentence.
    destruct (SentenceHighlighter.potentiallyKnownCount s) as [|[|n]];
      cbn [Nat.eqb andb]; rewrite ?andb_false_r; reflexivity.
  - unfold sentences, SentenceHighlighter.sentencesOf.
    induction (SentenceHighlighter.execAll isNetflix SentenceHighlighter.Idle 0
                 textContent) as [|m ms IH]; [apply Nat.le_refl|].
    cbn [flat_map]. rewrite length_app. cbn [length].
    destruct (SentenceHighlighter.sentenceOf matureWords learningWords m);
      simpl; lia.
Qed.

Lemma execAll_without_line_feed (text : jsstring) :
  ~ In 0x0A%N text ->
  forall (st : SentenceHighlighter.ScanState) (pos : nat),
    SentenceHighlighter.execAll true st pos text
    = SentenceHighlighter.execAll false st pos text.
Proof.
  induction text as [|c text IH]; intros Hlf st pos; [reflexivity|].
  assert (Hc : SentenceHighlighter.isBoundary true c
               = SentenceHighlighter.isBoundary false c).
  { unfold SentenceHighlighter.isBoundary.
    destruct (N.eqb_spec c 0x0A%N) as [-> | _].
    - exfalso. apply Hlf. now left.
    - reflexivity. }
  assert (Hrest : ~ In 0x0A%N text) by (intros H; apply Hlf; now right).
  cbn [SentenceHighlighter.execAll]. rewrite Hc.
  destruct st; repeat match goal with
                      | |- context [if ?b then _ else _] => destruct b
                      end;
    rewrite ?IH by exact Hrest; reflexivity.
Qed.

(** X20. The two sentence patterns differ by the line feed only: on a
    text without line feeds the Netflix pattern and the general one give
    the same matches, hence the same sentences and counts. *)
Theorem netflix_pattern_differs_by_line_feed_only
    (matureWords learningWords : list jsstring) (textContent : jsstring) :
  ~ In 0x0A%N textContent ->
  SentenceHighlighter.execAll true SentenceHighlighter.Idle 0 textContent
  = SentenceHighlighter.execAll false SentenceHighlighter.Idle 0 textContent
  /\ SentenceHighlighter.elementCounts true matureWords learningWords textContent
     = SentenceHighlighter.elementCounts false matureWords learningWords
         textContent.
Proof.
  intros Hlf.
  pose proof (execAll_without_line_feed textContent Hlf
                SentenceHighlighter.Idle 0) as E.
  split; [exact E|].
  unfold SentenceHighlighter.elementCounts, SentenceHighlighter.sentencesOf.
  now rewrite E.
Qed.

Lemma netflix_pattern_differs_by_line_feed_only_witness :
  SentenceHighlighter.execAll true SentenceHighlighter.Idle 0 Samples.fourWords
  = SentenceHighlighter.execAll false SentenceHighlighter.Idle 0
      Samples.fourWords.
Proof.
  refine (proj1 (netflix_pattern_differs_by_line_feed_only [] []
                   Samples.fourWords _)).
  simpl. intros H.
  repeat (destruct H as [H | H]; [discriminate H|]). exact H.
Defined.

(** ** The checks of the subtitle browser *)

Section SubtitleChecks.
Import HebrewText AnkiStats SpecWords.

Variables matureWords learningWords : list jsstring.

Lemma not_known_test (w : jsstring) :
  negb (isWordKnown w matureWords learningWords)
  = tag_eqb (getWordKnownType w matureWords learningWords) unknown
    || tag_eqb (getWordKnownType w matureWords learningWords) potentially_known.
Proof.
  unfold isWordKnown.
  destruct (getWordKnownType_range matureWords learningWords w)
    as [E | [E | E]]; rewrite E; reflexivity.
Qed.

(** The two loops of the statistics module run in step: they see the
    same words, and what [countUnknownWords] counts is the sum of the
    two counts of [countWordTypes]. *)
Lemma count_loops_in_step (words : list jsstring) (s : StrSet) (n : nat)
    (c : WordTypeCounts) :
  n = unknownCount c + potentiallyKnownCount c ->
  let st1 := fold_left (countUnknownWord matureWords learningWords) words (s, n) in
  let st2 := fold_left (countWordType matureWords learningWords) words (s, c) in
  fst st1 = fst st2
  /\ snd st1 = unknownCount (snd st2) + potentiallyKnownCount (snd st2).
Proof.
  revert s n c. induction words as [|w words IH]; intros s n c Hn.
  - now split.
  - cbn [fold_left].
    set (fresh := (0 <? length (normalizeHebrew w))
                  && negb (Set_has s (normalizeHebrew w))).
    set (seen := Set_add s (normalizeHebrew w)).
    assert (E1 :
      countUnknownWord matureWords learningWords (s, n) w
      = if fresh
        then if negb (isWordKnown (normalizeHebrew w) matureWords learningWords)
             then (seen, S n) else (seen, n)
        else (s, n)) by reflexivity.
    assert (E2 :
      countWordType matureWords learningWords (s, c) w
      = if fresh
        then match getWordKnownType (normalizeHebrew w) matureWords
                     learningWords with
             | unknown =>
                 (seen, {| unknownCount := S (unknownCount c);
                           potentiallyKnownCount := potentiallyKnownCount c |})
             | potentially_known =>
                 (seen, {| unknownCount := unknownCount c;
                           potentiallyKnownCount :=
                             S (potentiallyKnownCount c) |})
             | _ => (seen, c)
             end
        else (s, c)) by reflexivity.
    rewrite E1, E2. clear E1 E2.
    destruct fresh; [|now apply IH].
    rewrite not_known_test.
    destruct (getWordKnownType_range matureWords learningWords
                (normalizeHebrew w)) as [E | [E | E]];
      rewrite E; cbn [tag_eqb orb]; apply IH;
      cbn [unknownCount potentiallyKnownCount]; lia.
Qed.

Lemma countUnknownWords_sum (words : list jsstring) :
  countUnknownWords words matureWords learningWords
  = unknownCount (countWordTypes words matureWords learningWords)
    + potentiallyKnownCount (countWordTypes words matureWords learningWords).
Proof.
  unfold countUnknownWords, countWordTypes.
  apply (count_loops_in_step words [] 0
           {| unknownCount := 0; potentiallyKnownCount := 0 |} eq_refl).
Qed.

Lemma checkIfI1Sentence_counts (sentenceText : jsstring) :
  let words := sentenceWords sentenceText in
  let counts := countWordTypes words matureWords learningWords in
  checkIfI1Sentence sentenceText matureWords learningWords
  = (3 <=? length words)
    && (unknownCount counts + potentiallyKnownCount counts =? 1)
  /\ checkIfPotentiallyI1Sentence sentenceText matureWords learningWords
     = (3 <=? length words)
       && ((potentiallyKnownCount counts =? 1)
           && ((unknownCount counts =? 0) || (unknownCount counts =? 1))).
Proof.
  intros words counts.
  assert (Hlt : (length words <? 3) = negb (3 <=? length words)).
  { destruct (Nat.ltb_spec (length words) 3), (Nat.leb_spec 3 (length words));
      try reflexivity; lia. }
  unfold checkIfI1Sentence, checkIfPotentiallyI1Sentence.
  fold words. rewrite Hlt, countUnknownWords_sum. fold counts.
  destruct sentenceText as [|c sentenceText].
  - split; reflexivity.
  - destruct (3 <=? length words); split; reflexivity.
Qed.

End SubtitleChecks.

(** [countUnknownWords] counts every distinct word that is not
    [known]: its result is the sum of the two counts of
    [countWordTypes] on the same words, the potentially known words
    included. *)
Lemma countUnknownWords_includes_potentially_known
    (hebrewWords matureWords learningWords : list jsstring) :
  let counts := AnkiStats.countWordTypes hebrewWords matureWords learningWords in
  AnkiStats.countUnknownWords hebrewWords matureWords learningWords
  = AnkiStats.unknownCount counts + AnkiStats.potentiallyKnownCount counts.
Proof. apply countUnknownWords_sum. Qed.

(** X21. What the two checks of the subtitle browser answer, in terms
    of the counts [u] (unknown) and [p] (potentially known) over the
    unique normalized words of the sentence.  [checkIfI1Sentence] holds
    exactly when there are at least three words and [u + p = 1];
    [checkIfPotentiallyI1Sentence] exactly when there are at least three
    words, [p = 1] and [u] is 0 or 1. *)
Theorem subtitle_checks_characterized
    (sentenceText : jsstring) (matureWords learningWords : list jsstring) :
  let words := AnkiStats.sentenceWords sentenceText in
  let u := SpecWords.unknownCountOf matureWords learningWords words in
  let p := SpecWords.potentiallyKnownCountOf matureWords learningWords words in
  AnkiStats.checkIfI1Sentence sentenceText matureWords learningWords
  = (3 <=? length words) && (u + p =? 1)
  /\ AnkiStats.checkIfPotentiallyI1Sentence sentenceText matureWords learningWords
     = (3 <=? length words) && ((p =? 1) && ((u =? 0) || (u =? 1))).
Proof.
  intros words u p.
  destruct (checkIfI1Sentence_counts matureWords learningWords sentenceText)
    as [Hi Hp].
  destruct (countWordTypes_spec matureWords learningWords sentenceText)
    as [Eu Ep].
  rewrite extractHebrewWords_sentenceWords in Eu, Ep.
  fold words in Eu, Ep. cbn zeta in Hi, Hp. fold words in Hi, Hp.
  rewrite Eu, Ep in Hi, Hp. split; assumption.
Qed.

(** X22. How the subtitle browser marks a row.  A row is never marked
    both ways; with sentence highlighting on it is an i+1 row exactly
    when it has at least three words and [u + p = 1], and a potentially
    i+1 row exactly when it has at least three words and [u = 1] and
    [p = 1]: a sentence whose only new word is potentially known is
    marked i+1.  With highlighting off no row is marked. *)
Theorem subtitle_row_marking
    (sentenceHighlightEnabled : bool) (subText : jsstring)
    (matureWords learningWords : list jsstring) :
  let words := AnkiStats.sentenceWords subText in
  let u := SpecWords.unknownCountOf matureWords learningWords words in
  let p := SpecWords.potentiallyKnownCountOf matureWords learningWords words in
  let flags :=
    SubtitleBrowser.rowFlags sentenceHighlightEnabled subText matureWords
      learningWords in
  fst flags = sentenceHighlightEnabled && (3 <=? length words) && (u + p =? 1)
  /\ snd flags
     = sentenceHighlightEnabled && (3 <=? length words)
       && ((u =? 1) && (p =? 1))
  /\ fst flags && snd flags = false
  /\ SubtitleBrowser.rowClass sentenceHighlightEnabled subText matureWords
       learningWords
     = if fst flags then SubtitleBrowser.I1Row
       else if snd flags then SubtitleBrowser.PotentiallyI1Row
       else SubtitleBrowser.PlainRow.
Proof.
  intros words u p flags.
  destruct (checkIfI1Sentence_counts matureWords learningWords subText)
    as [Hi Hp].
  destruct (countWordTypes_spec matureWords learningWords subText)
    as [Eu Ep].
  rewrite extractHebrewWords_sentenceWords in Eu, Ep.
  cbn zeta in Hi, Hp. rewrite Eu, Ep in Hi, Hp. fold words u p in Hi, Hp.
  unfold flags, SubtitleBrowser.rowClass, SubtitleBrowser.rowFlags.
  cbn [fst snd]. rewrite Hi, Hp.
  destruct sentenceHighlightEnabled, (3 <=? length words);
    cbn [andb negb]; try (repeat split; reflexivity).
  destruct u as [|[|u]], p as [|[|p]]; repeat split; reflexivity.
Qed.

(** ** The aggregator as a whole *)

Section AggregatorFacts.
Import HebrewText AnkiStats SpecWords Units.

Variables matureWords learningWords : list jsstring.

Lemma bool_count (b : bool) : (if b then 1 else 0) <= 1.
Proof. destruct b; lia. Qed.

Lemma scanSubtitle_counters (sc : Scan) (sub : Subtitle) :
  let sc' := scanSubtitle matureWords learningWords sc sub in
  i1SentenceCount sc'
  = i1SentenceCount sc
    + (if countedI1 matureWords learningWords sub then 1 else 0)
  /\ potentiallyI1SentenceCount sc'
     = potentiallyI1SentenceCount sc
       + (if countedPotentiallyI1 matureWords learningWords sub then 1 else 0).
Proof.
  unfold scanSubtitle, countedI1, countedPotentiallyI1.
  destruct (3 <=? length (extractHebrewWords (text sub) 2 false));
    cbn [andb]; [|simpl; lia].
  destruct ((unknownCount _ =? 1) && (potentiallyKnownCount _ =? 0));
    cbn [negb andb]; [simpl; lia|].
  destruct ((potentiallyKnownCount _ =? 1) && _); simpl; lia.
Qed.

Lemma scan_counters (subtitles : list Subtitle) (sc : Scan) :
  let sc' := fold_left (scanSubtitle matureWords learningWords) subtitles sc in
  i1SentenceCount sc'
  = i1SentenceCount sc
    + length (filter (countedI1 matureWords learningWords) subtitles)
  /\ potentiallyI1SentenceCount sc'
     = potentiallyI1SentenceCount sc
       + length (filter (countedPotentiallyI1 matureWords learningWords)
                   subtitles).
Proof.
  revert sc. induction subtitles as [|sub subtitles IH]; intros sc.
  - simpl. lia.
  - cbn [fold_left filter].
    destruct (IH (scanSubtitle matureWords learningWords sc sub)) as [H1 H2].
    destruct (scanSubtitle_counters sc sub) as [S1 S2].
    cbn zeta in *. rewrite H1, H2, S1, S2.
    destruct (countedI1 matureWords learningWords sub),
             (countedPotentiallyI1 matureWords learningWords sub);
      cbn [length]; lia.
Qed.


End AggregatorFacts.

Section AggregatorStats.
Import HebrewText AnkiStats SpecWords Units.

(** The statistics, field by field. *)
Lemma statsOf_fields (wordsData : WordsData) (subtitles : list Subtitle) :
  let matureWords := orEmpty (AnkiStats.matureWords wordsData) in
  let learningWords := orEmpty (AnkiStats.learningWords wordsData) in
  let seen :=
    fold_left Set_add (map normalizeHebrew (allWords subtitles)) [] in
  statsOf wordsData subtitles
  = {| total := length seen;
       known_ := countTagged known matureWords learningWords seen;
       potentiallyKnown :=
         countTagged potentially_known matureWords learningWords seen;
       percentage :=
         percentageOf (countTagged known matureWords learningWords seen)
           (length seen);
       i1Sentences :=
         length (filter (countedI1 matureWords learningWords) subtitles);
       potentiallyI1Sentences :=
         length (filter (countedPotentiallyI1 matureWords learningWords)
                   subtitles) |}.
Proof.
  intros matureWords learningWords seen. unfold statsOf.
  fold matureWords learningWords.
  rewrite countKnown_fold, scan_uniqueWords.
  destruct (scan_counters matureWords learningWords subtitles
              {| uniqueWords := []; i1SentenceCount := 0;
                 potentiallyI1SentenceCount := 0 |}) as [H1 H2].
  cbn zeta in H1, H2. rewrite H1, H2. reflexivity.
Qed.

End AggregatorStats.


(** X24. The order of the subtitles does not matter: the aggregator
    returns the same statistics for any rearrangement of them. *)
Theorem aggregator_ignores_order
    (reply : Completion (option AnkiStats.WordsData))
    (subtitles subtitles' : list AnkiStats.Subtitle) :
  Permutation subtitles subtitles' ->
  AnkiStats.calculateComprehensionStats reply subtitles
  = AnkiStats.calculateComprehensionStats reply subtitles'.
Proof.
  intros Hperm. destruct reply as [[wordsData|]|error]; try reflexivity.
  unfold AnkiStats.calculateComprehensionStats. cbn [bind tryCatch].
  f_equal. rewrite !statsOf_fields.
  set (m := orEmpty (AnkiStats.matureWords wordsData)).
  set (l := orEmpty (AnkiStats.learningWords wordsData)).
  assert (Hseen : Permutation
            (fold_left Set_add
               (map HebrewText.normalizeHebrew (Units.allWords subtitles)) [])
            (fold_left Set_add
               (map HebrewText.normalizeHebrew (Units.allWords subtitles')) [])).
  { apply NoDup_Permutation;
      try (apply fold_Set_add_NoDup; constructor).
    intros w. rewrite !fold_Set_add_In.
    assert (Hwords : Permutation (Units.allWords subtitles)
                       (Units.allWords subtitles'))
      by (apply Permutation_flat_map; exact Hperm).
    split; intros [[] | H]; right;
      [apply (Permutation_in _ (Permutation_map _ Hwords)) |
       apply (Permutation_in _ (Permutation_map _ (Permutation_sym Hwords)))];
      exact H. }
  rewrite (Permutation_length Hseen),
          (countTagged_perm m l known _ _ Hseen),
          (countTagged_perm m l potentially_known _ _ Hseen),
          (filter_length_perm (Units.countedI1 m l) _ _ Hperm),
          (filter_length_perm (Units.countedPotentiallyI1 m l) _ _ Hperm).
  reflexivity.
Qed.

Lemma aggregator_ignores_order_witness :
  let reply :=
    Normal (Some {| AnkiStats.matureWords := Some [Samples.shalom; Samples.olam];
                    AnkiStats.learningWords := None |}) in
  AnkiStats.calculateComprehensionStats reply
    [{| AnkiStats.text := Samples.fourWords |};
     {| AnkiStats.text := Samples.prefixedSentence |}]
  = AnkiStats.calculateComprehensionStats reply
      [{| AnkiStats.text := Samples.prefixedSentence |};
       {| AnkiStats.text := Samples.fourWords |}].
Proof.
  intros reply. apply aggregator_ignores_order. apply perm_swap.
Defined.

(** ** The unknown words offered for a new card *)

Section UnknownWords.
Import HebrewText CardCreator.

Variables matureWords learningWords : list jsstring.

Lemma noteUnknown_fold (words unknownWords : list jsstring) :
  NoDup unknownWords ->
  let result :=
    fold_left (noteUnknown matureWords learningWords) words unknownWords in
  NoDup result
  /\ forall w,
       In w result
       <-> In w unknownWords
           \/ (In w words
               /\ isWordKnown (normalizeHebrew w) matureWords learningWords
                  = false).
Proof.
  revert unknownWords.
  induction words as [|x words IH]; intros unknownWords Hnd; cbn [fold_left].
  - split; [exact Hnd|]. intros w. simpl. tauto.
  - assert (Estep :
      noteUnknown matureWords learningWords unknownWords x
      = if negb (isWordKnown (normalizeHebrew x) matureWords learningWords)
        then if negb (includes unknownWords x) then unknownWords ++ [x]
             else unknownWords
        else unknownWords) by reflexivity.
    rewrite Estep. clear Estep.
    destruct (isWordKnown (normalizeHebrew x) matureWords learningWords) eqn:Ek;
      cbn [negb].
    + destruct (IH unknownWords Hnd) as [Hnd' Hin]. split; [exact Hnd'|].
      intros w. rewrite Hin. simpl. split.
      * intros [H | [H Hk]]; auto.
      * intros [H | [[-> | H] Hk]]; auto. congruence.
    + destruct (includes unknownWords x) eqn:Ei; cbn [negb].
      * apply includes_In in Ei.
        destruct (IH unknownWords Hnd) as [Hnd' Hin]. split; [exact Hnd'|].
        intros w. rewrite Hin. simpl. split.
        -- intros [H | [H Hk]]; auto.
        -- intros [H | [[-> | H] Hk]]; auto.
      * apply includes_not_In in Ei.
        assert (Hnd2 : NoDup (unknownWords ++ [x])).
        { apply NoDup_app; [exact Hnd | repeat constructor; intros [] |].
          intros y Hy [<- | []]. exact (Ei Hy). }
        destruct (IH _ Hnd2) as [Hnd' Hin]. split; [exact Hnd'|].
        intros w. rewrite Hin, in_app_iff. simpl. split.
        -- intros [[H | [<- | []]] | [H Hk]]; auto.
        -- intros [H | [[-> | H] Hk]]; auto.
Qed.

End UnknownWords.

(** X25. [extractAllUnknownWords] returns, without repeating any, the
    words of the sentence that are not [known] once normalized, the
    potentially known ones included: a word is in the result exactly
    when it is a match of the Hebrew pattern in the sentence and
    [isWordKnown] rejects its normalized form. *)
Theorem extractAllUnknownWords_characterized
    (sentence : jsstring) (matureWords learningWords : list jsstring) :
  let result :=
    CardCreator.extractAllUnknownWords sentence matureWords learningWords in
  NoDup result
  /\ forall w,
       In w result
       <-> In w (HebrewText.scanHebrew [] sentence)
           /\ HebrewText.isWordKnown (HebrewText.normalizeHebrew w)
                matureWords learningWords = false.
Proof.
  intros result. unfold result, CardCreator.extractAllUnknownWords.
  rewrite matchHebrew_scan.
  destruct (noteUnknown_fold matureWords learningWords
              (HebrewText.scanHebrew [] sentence) [] (NoDup_nil _))
    as [Hnd Hin].
  split; [exact Hnd|]. intros w. rewrite Hin. simpl. tauto.
Qed.

(** ** Vocabulary entries that no page word can equal *)

Section InertEntries.
Import HebrewText.

Variable keep : jsstring -> bool.

Lemma includes_filter_kept (arr : list jsstring) (x : jsstring) :
  keep x = true -> includes (filter keep arr) x = includes arr x.
Proof.
  intros Hx. induction arr as [|e arr IH]; [reflexivity|]. simpl.
  destruct (keep e) eqn:Ee; simpl; rewrite IH; [reflexivity|].
  destruct (streq x e) eqn:Exe; [|reflexivity].
  apply streq_true in Exe. congruence.
Qed.

Lemma getWordType_filter_kept (w : jsstring) (m l : list jsstring) :
  keep w = true -> keep (substring1 w) = true ->
  Coordinator.getWordType
    {| Coordinator.matureWords := filter keep m;
       Coordinator.learningWords := filter keep l |} w
  = Coordinator.getWordType
      {| Coordinator.matureWords := m; Coordinator.learningWords := l |} w.
Proof.
  intros Hw Ht. unfold Coordinator.getWordType, prefixMatch.
  cbn [Coordinator.matureWords Coordinator.learningWords].
  now rewrite !(includes_filter_kept _ w Hw),
              !(includes_filter_kept _ (substring1 w) Ht).
Qed.

End InertEntries.

(** X26. A vocabulary entry that holds a code unit outside the Hebrew
    block (the pattern of the vocabulary fetch lets quotation marks into
    a word, the pattern of the pages does not) never matches a word of
    a page: every match of [HEBREW_WORD_REGEX] gets the same label with
    such entries present or dropped. *)
Theorem entries_outside_the_hebrew_block_are_inert
    (text : jsstring) (matureWords learningWords : list jsstring) :
  Forall
    (fun token =>
       WordHighlighter.getWordType token
         (filter Entries.allHebrew matureWords)
         (filter Entries.allHebrew learningWords)
       = WordHighlighter.getWordType token matureWords learningWords
       /\ HebrewText.getWordKnownType (HebrewText.normalizeHebrew token)
            (filter Entries.allHebrew matureWords)
            (filter Entries.allHebrew learningWords)
          = HebrewText.getWordKnownType (HebrewText.normalizeHebrew token)
              matureWords learningWords)
    (HebrewText.scanHebrew [] text).
Proof.
  pose proof (scanHebrew_runs text [] (Forall_nil _)) as Hruns.
  revert Hruns. apply Forall_impl. intros token [_ Htoken].
  assert (Hn : Entries.allHebrew (HebrewText.normalizeHebrew token) = true).
  { unfold Entries.allHebrew. apply forallb_forall. intros c Hc.
    rewrite normalizeHebrew_filter in Hc. apply filter_In in Hc.
    rewrite Forall_forall in Htoken. now apply Htoken. }
  assert (Ht : Entries.allHebrew
                 (substring1 (HebrewText.normalizeHebrew token)) = true).
  { unfold Entries.allHebrew in *. rewrite forallb_forall in Hn.
    apply forallb_forall. intros c Hc. apply Hn.
    destruct (HebrewText.normalizeHebrew token); [destruct Hc | now right]. }
  pose proof (getWordType_filter_kept Entries.allHebrew
                (HebrewText.normalizeHebrew token) matureWords learningWords
                Hn Ht) as E.
  split.
  - rewrite !highlighter_is_coordinator. exact E.
  - rewrite !getWordKnownType_collapse. now rewrite E.
Qed.

(** ** The vocabulary the fetch stores *)

Section VocabularyFacts.
Import HebrewText Vocabulary StoredWords.

Ltac four_parts := split; [|split; [|split]].

Lemma streq_false (a b : jsstring) : streq a b = false <-> a <> b.
Proof.
  unfold streq. destruct (jsstring_eq_dec a b); split; congruence.
Qed.

Lemma Set_delete_In (s : StrSet) (x y : jsstring) :
  In y (Set_delete s x) <-> In y s /\ y <> x.
Proof.
  unfold Set_delete. rewrite filter_In, negb_true_iff, streq_false.
  split; intros [H Hne]; split; auto.
Qed.

Lemma Set_delete_NoDup (s : StrSet) (x : jsstring) :
  NoDup s -> NoDup (Set_delete s x).
Proof. apply NoDup_filter. Qed.

(** A word made mature leaves the learning set. *)
Lemma promote_separate (sets : StrSet * StrSet) (w : jsstring) :
  separate sets ->
  separate (Set_add (fst sets) w, Set_delete (snd sets) w).
Proof.
  intros (Hm & Hl & Hd). unfold separate. cbn [fst snd]. repeat split.
  - now apply Set_add_NoDup.
  - now apply Set_delete_NoDup.
  - intros x Hx Hx'. apply Set_add_In in Hx. apply Set_delete_In in Hx'.
    destruct Hx' as [Hx' Hne]. destruct Hx as [Hx | ->]; [|congruence].
    exact (Hd x Hx Hx').
Qed.

Lemma promote_clean (sets : StrSet * StrSet) (w : jsstring) :
  clean w -> cleanSets sets ->
  cleanSets (Set_add (fst sets) w, Set_delete (snd sets) w).
Proof.
  intros Hw [Hm Hl]. unfold cleanSets. cbn [fst snd]. split.
  - apply Forall_forall. intros x Hx. apply Set_add_In in Hx.
    rewrite Forall_forall in Hm. destruct Hx as [Hx | ->]; auto.
  - apply Forall_forall. intros x Hx. apply Set_delete_In in Hx.
    rewrite Forall_forall in Hl. now apply Hl.
Qed.

Lemma sortWord_keeps (threshold cardType interval : Z)
    (sets : StrSet * StrSet) (w : jsstring) :
  separate sets ->
  let sets' := sortWord threshold cardType interval sets w in
  separate sets'
  /\ (clean w -> cleanSets sets -> cleanSets sets')
  /\ (forall x, In x (fst sets) -> In x (fst sets'))
  /\ ((cardType =? 2) && (threshold <=? interval) = true ->
      In w (fst sets'))%Z.
Proof.
  intros Hsep. destruct sets as [m l]. unfold sortWord.
  assert (Hsame :
    separate (m, l)
    /\ (clean w -> cleanSets (m, l) -> cleanSets (m, l))
    /\ (forall x, In x (fst (m, l)) -> In x (fst (m, l)))) by auto.
  destruct ((cardType =? 2) && (threshold <=? interval))%Z.
  - four_parts.
    + apply (promote_separate (m, l) w Hsep).
    + intros Hw Hc. apply (promote_clean (m, l) w Hw Hc).
    + intros x Hx. apply Set_add_In. now left.
    + intros _. apply Set_add_In. now right.
  - destruct ((cardType =? 1)
              || (cardType =? 2) && (0 <? interval) && (interval <? threshold))%Z.
    2: { destruct Hsame as (H1 & H2 & H3).
         split; [|split; [|split]]; auto. discriminate. }
    destruct (Set_has m w) eqn:Eh; cbn [negb].
    { destruct Hsame as (H1 & H2 & H3).
      split; [|split; [|split]]; auto. discriminate. }
    destruct Hsep as (Hm & Hl & Hd). cbn [fst snd] in *.
    split; [|split; [|split]].
    + split; [|split]; cbn [fst snd].
      * exact Hm.
      * now apply Set_add_NoDup.
      * intros x Hx Hx'. apply Set_add_In in Hx'.
        destruct Hx' as [Hx' | ->]; [exact (Hd x Hx Hx')|].
        apply Set_has_In in Hx. congruence.
    + intros Hw [Hcm Hcl]. split; cbn [fst snd] in *; [exact Hcm|].
      apply Forall_forall. intros x Hx.
      apply Set_add_In in Hx. rewrite Forall_forall in Hcl.
      destruct Hx as [Hx | ->]; auto.
    + auto.
    + discriminate.
Qed.

Lemma sortWords_keep (threshold cardType interval : Z) (words : list jsstring)
    (sets : StrSet * StrSet) :
  separate sets ->
  let sets' := fold_left (sortWord threshold cardType interval) words sets in
  separate sets'
  /\ (Forall clean words -> cleanSets sets -> cleanSets sets')
  /\ (forall x, In x (fst sets) -> In x (fst sets'))
  /\ ((cardType =? 2) && (threshold <=? interval) = true ->
      forall w, In w words -> In w (fst sets'))%Z.
Proof.
  revert sets. induction words as [|w words IH]; intros sets Hsep;
    cbn [fold_left].
  - four_parts; auto. intros _ w [].
  - destruct (sortWord_keeps threshold cardType interval sets w Hsep)
      as (Hsep' & Hclean' & Hgrow' & Hin').
    destruct (IH _ Hsep') as (Hsep'' & Hclean'' & Hgrow'' & Hin'').
    four_parts.
    + exact Hsep''.
    + intros Hws Hc. inversion Hws; subst. auto.
    + auto.
    + intros Hcard x [<- | Hx]; auto.
Qed.

Lemma alreadyKnownWords_keep (words : list jsstring) (sets : StrSet * StrSet) :
  separate sets ->
  let sets' := fold_left alreadyKnownWord words sets in
  separate sets'
  /\ (Forall clean words -> cleanSets sets -> cleanSets sets')
  /\ (forall x, In x (fst sets) -> In x (fst sets'))
  /\ (forall w, In w words -> In w (fst sets')).
Proof.
  revert sets. induction words as [|w words IH]; intros sets Hsep;
    cbn [fold_left].
  - four_parts; auto. intros w [].
  - assert (E : alreadyKnownWord sets w
                = (Set_add (fst sets) w, Set_delete (snd sets) w))
      by (destruct sets; reflexivity).
    rewrite E.
    destruct (IH _ (promote_separate sets w Hsep))
      as (Hsep' & Hclean' & Hgrow' & Hin').
    four_parts.
    + exact Hsep'.
    + intros Hws Hc. inversion Hws; subst.
      apply Hclean'; [assumption | now apply promote_clean].
    + intros x Hx. apply Hgrow'. cbn [fst]. apply Set_add_In. now left.
    + intros x [<- | Hx]; [|now apply Hin'].
      apply Hgrow'. cbn [fst]. apply Set_add_In. now right.
Qed.

Lemma noteWords_clean (ms : list jsstring) :
  Forall clean (Background.noteWords ms).
Proof.
  pose proof (noteWords_normalized ms) as Hn.
  rewrite Forall_forall in Hn. apply Forall_forall. intros w Hw.
  split; [|now apply Hn].
  unfold Background.noteWords in Hw. apply filter_In in Hw.
  destruct Hw as [_ Hlen]. apply Nat.ltb_lt in Hlen.
  intros ->. simpl in Hlen. lia.
Qed.

Lemma recordNotes_clean (notes : list Note) (map : NoteWords) :
  cleanMap map -> cleanMap (fold_left recordNote notes map).
Proof.
  revert map. induction notes as [|n notes IH]; intros map Hmap;
    cbn [fold_left]; [exact Hmap|].
  apply IH. unfold recordNote. destruct (matches n); [|exact Hmap].
  constructor; [apply noteWords_clean | exact Hmap].
Qed.

Lemma Map_get_clean (map : NoteWords) (key : Z) (words : list jsstring) :
  cleanMap map -> Map_get map key = Some words -> Forall clean words.
Proof.
  induction 1 as [|[k v] map Hv _ IH]; simpl; [discriminate|].
  destruct (k =? key)%Z; [|exact IH]. now intros [= <-].
Qed.

Lemma alreadyKnownNotes_keep (notes : list Note) (sets : StrSet * StrSet) :
  separate sets ->
  let sets' := fold_left alreadyKnownNote notes sets in
  separate sets'
  /\ (cleanSets sets -> cleanSets sets')
  /\ (forall x, In x (fst sets) -> In x (fst sets'))
  /\ (forall n ms w,
        In n notes -> matches n = Some ms ->
        In w (Background.noteWords ms) -> In w (fst sets')).
Proof.
  revert sets. induction notes as [|n notes IH]; intros sets Hsep;
    cbn [fold_left].
  - four_parts; auto. intros n ms w [].
  - assert (Hstep :
      let s1 := alreadyKnownNote sets n in
      separate s1 /\ (cleanSets sets -> cleanSets s1)
      /\ (forall x, In x (fst sets) -> In x (fst s1))
      /\ (forall ms w, matches n = Some ms ->
            In w (Background.noteWords ms) -> In w (fst s1))).
    { unfold alreadyKnownNote. destruct (matches n) as [ms|].
      - destruct (alreadyKnownWords_keep (Background.noteWords ms) sets Hsep)
          as (H1 & H2 & H3 & H4).
        four_parts; auto.
        + intros Hc. apply H2; [apply noteWords_clean | exact Hc].
        + intros ms' w [= <-]. apply H4.
      - four_parts; auto. discriminate. }
    destruct Hstep as (Hsep1 & Hclean1 & Hgrow1 & Hin1).
    destruct (IH _ Hsep1) as (Hsep' & Hclean' & Hgrow' & Hin').
    four_parts; auto.
    intros n' ms w [<- | Hn] Hms Hw; [|now apply (Hin' n' ms w)].
    apply Hgrow'. now apply (Hin1 ms w).
Qed.

Lemma sortCards_keep (threshold : Z) (map : NoteWords) (cards : list Card)
    (sets : StrSet * StrSet) :
  cleanMap map -> separate sets ->
  let sets' := fold_left (sortCard threshold map) cards sets in
  separate sets'
  /\ (cleanSets sets -> cleanSets sets')
  /\ (forall x, In x (fst sets) -> In x (fst sets'))
  /\ (forall card words w,
        In card cards -> matureCard threshold card = true ->
        Map_get map (note card) = Some words -> In w words ->
        In w (fst sets')).
Proof.
  intros Hmap. revert sets.
  induction cards as [|card cards IH]; intros sets Hsep; cbn [fold_left].
  - four_parts; auto. intros card words w [].
  - assert (Hstep :
      let s1 := sortCard threshold map sets card in
      separate s1 /\ (cleanSets sets -> cleanSets s1)
      /\ (forall x, In x (fst sets) -> In x (fst s1))
      /\ (forall words w, matureCard threshold card = true ->
            Map_get map (note card) = Some words -> In w words ->
            In w (fst s1))).
    { unfold sortCard. destruct (Map_get map (note card)) as [ws|] eqn:Eg.
      - destruct (sortWords_keep threshold (type_ card) (intervalOf card)
                    ws sets Hsep) as (H1 & H2 & H3 & H4).
        four_parts; auto.
        + intros Hc. apply H2; [|exact Hc].
          exact (Map_get_clean map (note card) ws Hmap Eg).
        + intros words w Hcard [= <-]. now apply H4.
      - four_parts; auto. discriminate. }
    destruct Hstep as (Hsep1 & Hclean1 & Hgrow1 & Hin1).
    destruct (IH _ Hsep1) as (Hsep' & Hclean' & Hgrow' & Hin').
    four_parts; auto.
    intros c words w [<- | Hc] Hcard Hget Hw;
      [|now apply (Hin' c words w)].
    apply Hgrow'. now apply (Hin1 words w).
Qed.

(** The order of [sort]. *)
Lemma str_leb_total (a b : jsstring) :
  str_leb a b = false -> str_leb b a = true.
Proof.
  revert b. induction a as [|x a IH]; intros [|y b]; simpl;
    try discriminate; try reflexivity.
  destruct (N.ltb_spec x y), (N.ltb_spec y x); try discriminate;
    try reflexivity; try lia.
  apply IH.
Qed.

Lemma insertSorted_perm (x : jsstring) (l : list jsstring) :
  Permutation (insertSorted x l) (x :: l).
Proof.
  induction l as [|y l IH]; simpl; [reflexivity|].
  destruct (str_leb x y); [reflexivity|].
  rewrite IH. apply perm_swap.
Qed.

Lemma sortArray_perm (s : StrSet) : Permutation (sortArray s) s.
Proof.
  induction s as [|x s IH]; simpl; [reflexivity|].
  rewrite insertSorted_perm. now constructor.
Qed.

Lemma insertSorted_sorted (x : jsstring) (l : list jsstring) :
  Sorted (fun a b => str_leb a b = true) l ->
  Sorted (fun a b => str_leb a b = true) (insertSorted x l).
Proof.
  induction 1 as [|y l Hl IH Hhd]; simpl.
  - repeat constructor.
  - destruct (str_leb x y) eqn:E.
    + constructor; [now constructor | now constructor].
    + constructor; [exact IH|].
      destruct l as [|z l]; simpl.
      * constructor. now apply str_leb_total.
      * destruct (str_leb x z).
        -- constructor. now apply str_leb_total.
        -- inversion Hhd; subst. now constructor.
Qed.

Lemma sortArray_sorted (s : StrSet) :
  Sorted (fun a b => str_leb a b = true) (sortArray s).
Proof.
  induction s as [|x s IH]; simpl; [constructor|].
  now apply insertSorted_sorted.
Qed.

(** The sets just before they are sorted and stored. *)
Lemma fetched_sets (threshold : Z) (notesInfo : list Note)
    (cardsInfo : list Card) (alreadyKnown : Completion (list Note)) :
  let map := fold_left recordNote notesInfo [] in
  let sets :=
    match alreadyKnown with
    | Normal notes =>
        fold_left alreadyKnownNote notes
          (fold_left (sortCard threshold map) cardsInfo ([], []))
    | Throw _ => fold_left (sortCard threshold map) cardsInfo ([], [])
    end in
  separate sets /\ cleanSets sets
  /\ (forall card words w,
        In card cardsInfo -> matureCard threshold card = true ->
        Map_get map (note card) = Some words -> In w words ->
        In w (fst sets))
  /\ (forall notes n ms w,
        alreadyKnown = Normal notes -> In n notes -> matches n = Some ms ->
        In w (Background.noteWords ms) -> In w (fst sets)).
Proof.
  intros map sets.
  assert (Hmap : cleanMap map) by (apply recordNotes_clean; constructor).
  assert (Hsep0 : separate (([] : StrSet), ([] : StrSet))).
  { repeat split; try constructor. intros w []. }
  assert (Hclean0 : cleanSets (([] : StrSet), ([] : StrSet)))
    by (split; constructor).
  destruct (sortCards_keep threshold map cardsInfo ([], []) Hmap Hsep0)
    as (Hsep1 & Hclean1 & _ & Hin1).
  unfold sets. destruct alreadyKnown as [notes|error].
  - destruct (alreadyKnownNotes_keep notes _ Hsep1)
      as (Hsep2 & Hclean2 & Hgrow2 & Hin2).
    four_parts.
    + exact Hsep2.
    + now apply Hclean2, Hclean1.
    + intros card words w Hc Hm Hg Hw. apply Hgrow2.
      now apply (Hin1 card words w).
    + intros notes' n ms w [= <-]. apply Hin2.
  - four_parts.
    + exact Hsep1.
    + now apply Hclean1.
    + exact Hin1.
    + discriminate.
Qed.

End VocabularyFacts.

(** X27. What [fetchHebrewWords] stores, whatever the cards and notes
    are and whether or not the "Already Known" deck could be read: the
    mature and the learning array share no word, neither repeats a
    word, both are in the order of [sort] (code unit by code unit), and
    every word in them is non-empty and free of diacritics. *)
Theorem fetched_vocabulary_invariants
    (matureThresholdSetting : option Z)
    (cardsInfo : list Vocabulary.Card) (notesInfo : list Vocabulary.Note)
    (alreadyKnownNotesInfo : Completion (list Vocabulary.Note)) :
  let result :=
    Vocabulary.fetchHebrewWords matureThresholdSetting cardsInfo notesInfo
      alreadyKnownNotesInfo in
  NoDup (fst result) /\ NoDup (snd result)
  /\ (forall w, In w (fst result) -> ~ In w (snd result))
  /\ Sorted (fun a b => Vocabulary.str_leb a b = true) (fst result)
  /\ Sorted (fun a b => Vocabulary.str_leb a b = true) (snd result)
  /\ Forall StoredWords.clean (fst result ++ snd result).
Proof.
  intros result. unfold result, Vocabulary.fetchHebrewWords.
  destruct cardsInfo as [|card cards].
  - cbn [fst snd app]. repeat split; try constructor. intros w [].
  - remember (card :: cards) as cardsInfo eqn:Ecards. clear Ecards.
    destruct (fetched_sets (Vocabulary.matureThresholdOf matureThresholdSetting)
                notesInfo cardsInfo alreadyKnownNotesInfo)
      as ((Hm & Hl & Hd) & (Hcm & Hcl) & _ & _).
    cbn zeta in *.
    set (sets := match alreadyKnownNotesInfo with
                 | Normal notes => _
                 | Throw _ => _
                 end) in *.
    cbn [fst snd].
    pose proof (sortArray_perm (fst sets)) as Pm.
    pose proof (sortArray_perm (snd sets)) as Pl.
    split; [|split; [|split; [|split; [|split]]]].
    + apply (Permutation_NoDup (Permutation_sym Pm) Hm).
    + apply (Permutation_NoDup (Permutation_sym Pl) Hl).
    + intros w Hw Hw'. apply (Hd w).
      * apply (Permutation_in _ Pm Hw).
      * apply (Permutation_in _ Pl Hw').
    + apply sortArray_sorted.
    + apply sortArray_sorted.
    + apply Forall_app. split.
      * apply (Permutation_Forall (Permutation_sym Pm) Hcm).
      * apply (Permutation_Forall (Permutation_sym Pl) Hcl).
Qed.

(** X28. A mature card wins: a word of the note of a review card
    (type 2) whose interval has reached the threshold is stored as
    mature and not as learning, whatever the other cards of the same
    word say and in whatever order the cards come.  Independently of
    that, whenever there is at least one card, of whatever kind, and
    the "Already Known" deck could be read, every word of a note of
    that deck is stored as mature and not as learning. *)
Theorem mature_card_wins
    (matureThresholdSetting : option Z)
    (cardsInfo : list Vocabulary.Card) (notesInfo : list Vocabulary.Note)
    (alreadyKnownNotesInfo : Completion (list Vocabulary.Note)) :
  let result :=
    Vocabulary.fetchHebrewWords matureThresholdSetting cardsInfo notesInfo
      alreadyKnownNotesInfo in
  (forall card words w,
     In card cardsInfo ->
     Vocabulary.matureCard (Vocabulary.matureThresholdOf matureThresholdSetting)
       card = true ->
     Vocabulary.Map_get (fold_left Vocabulary.recordNote notesInfo [])
       (Vocabulary.note card) = Some words ->
     In w words ->
     In w (fst result) /\ ~ In w (snd result))
  /\ (forall notes n ms w,
        cardsInfo <> [] ->
        alreadyKnownNotesInfo = Normal notes -> In n notes ->
        Vocabulary.matches n = Some ms -> In w (Background.noteWords ms) ->
        In w (fst result) /\ ~ In w (snd result)).
Proof.
  intros result.
  assert (Hstored :
    cardsInfo <> [] ->
    (forall card words w,
       In card cardsInfo ->
       Vocabulary.matureCard
         (Vocabulary.matureThresholdOf matureThresholdSetting) card = true ->
       Vocabulary.Map_get (fold_left Vocabulary.recordNote notesInfo [])
         (Vocabulary.note card) = Some words ->
       In w words ->
       In w (fst result) /\ ~ In w (snd result))
    /\ (forall notes n ms w,
          alreadyKnownNotesInfo = Normal notes -> In n notes ->
          Vocabulary.matches n = Some ms -> In w (Background.noteWords ms) ->
          In w (fst result) /\ ~ In w (snd result))).
  { intros Hcards. unfold result, Vocabulary.fetchHebrewWords.
    destruct cardsInfo as [|c cs]; [now destruct Hcards|].
    remember (c :: cs) as cards eqn:Ecards. clear Ecards Hcards.
    destruct (fetched_sets
                (Vocabulary.matureThresholdOf matureThresholdSetting)
                notesInfo cards alreadyKnownNotesInfo)
      as ((Hm & Hl & Hd) & _ & Hmature & Hknown).
    cbn zeta in *.
    set (sets := match alreadyKnownNotesInfo with
                 | Normal notes => _
                 | Throw _ => _
                 end) in *.
    cbn [fst snd].
    pose proof (sortArray_perm (fst sets)) as Pm.
    pose proof (sortArray_perm (snd sets)) as Pl.
    assert (Hkept : forall x, In x (fst sets) ->
              In x (Vocabulary.sortArray (fst sets))
              /\ ~ In x (Vocabulary.sortArray (snd sets))).
    { intros x Hx. split.
      - apply (Permutation_in _ (Permutation_sym Pm) Hx).
      - intros Hx'. apply (Hd x Hx). apply (Permutation_in _ Pl Hx'). }
    split.
    - intros card words w Hcard Hm' Hget Hw. apply Hkept.
      now apply (Hmature card words w).
    - intros notes n ms w E Hn Hms Hw. apply Hkept.
      now apply (Hknown notes n ms w). }
  split.
  - intros card words w Hcard.
    assert (Hcards : cardsInfo <> [])
      by (intros E; rewrite E in Hcard; destruct Hcard).
    now apply (proj1 (Hstored Hcards)).
  - intros notes n ms w Hcards. apply (proj2 (Hstored Hcards)).
Qed.

(** "sefer" has a mature card and a young one: it is stored as mature,
    in whichever order the two cards come.  With the young card alone,
    "bayit" of the "Already Known" deck is stored as mature all the
    same. *)
Lemma mature_card_wins_witness :
  (let result :=
     Vocabulary.fetchHebrewWords None
       [SampleCards.matureSefer; SampleCards.youngSefer]
       [SampleCards.seferNote] (Normal [SampleCards.bayitNote]) in
   In Samples.sefer (fst result) /\ ~ In Samples.sefer (snd result))
  /\ (let result :=
        Vocabulary.fetchHebrewWords None [SampleCards.youngSefer]
          [SampleCards.seferNote] (Normal [SampleCards.bayitNote]) in
      In Samples.bayit (fst result) /\ ~ In Samples.bayit (snd result)).
Proof.
  split.
  - refine (proj1 (mature_card_wins None
                     [SampleCards.matureSefer; SampleCards.youngSefer]
                     [SampleCards.seferNote] (Normal [SampleCards.bayitNote]))
                  SampleCards.matureSefer [Samples.sefer] Samples.sefer
                  _ _ _ _).
    + now left.
    + reflexivity.
    + reflexivity.
    + now left.
  - refine (proj2 (mature_card_wins None [SampleCards.youngSefer]
                     [SampleCards.seferNote] (Normal [SampleCards.bayitNote]))
                  [SampleCards.bayitNote] SampleCards.bayitNote
                  [Samples.bayit] Samples.bayit _ _ _ _ _).
    + discriminate.
    + reflexivity.
    + now left.
    + reflexivity.
    + now left.
Defined.
